(** * Flow-field visualisation engine (FlowFieldRenderer): a shallow embedding

    The development follows [FlowFieldRenderer] of the songbird player: the
    audio feature extraction of [render], the pattern scheduler
    [updatePatternTransition], the entity pools created by [resize], the
    bubble physics of [renderBubbles] and the escape-time loop of
    [renderFractal].

    Numbers.  A JavaScript [number] is modelled by [num]: the two special
    classes of IEEE values the code can produce ([NaN], the infinities) are
    explicit constructors; a finite value carries an exact rational, so
    rounding of finite results is not modelled and there is a single zero
    (read as +0 when it divides).  Counters that only ever hold integers
    ([time], [patternTimer], [patternIndex], array indices, pixel sizes) are
    integers.

    Effects.  [Math.random] is an oracle: the [k]-th call returns
    [random k], and a computation threads the number of calls made so far.
    A computation returns, throws, or has no result; the escape-time [while]
    loop takes fuel, and the statements say how much fuel gives a result.
    [Math.sin], [Math.cos], [Math.pow], [Math.PI] and the flocking update of
    the swarm pattern are parameters.

    The canvas context is an external collaborator: what is painted is not
    part of the state, and calls into it are not modelled. *)

From Stdlib Require Import ZArith QArith Qround Lia Lqa List Bool String.
From stdpp Require Import base list.

Open Scope Q_scope.

(** ** JavaScript numbers *)

Module JS.

Inductive num : Type :=
| NaN
| Inf (negative : bool)
| Fin (q : Q).

Definition of_Z (z : Z) : num := Fin (inject_Z z).

Definition Qltb (a b : Q) : bool := negb (Qle_bool b a).

Definition isNaN (a : num) : bool :=
  match a with NaN => true | _ => false end.

Definition isFinite (a : num) : bool :=
  match a with Fin _ => true | _ => false end.

Definition neg (a : num) : num :=
  match a with
  | NaN => NaN
  | Inf s => Inf (negb s)
  | Fin q => Fin (- q)
  end.

Definition add (a b : num) : num :=
  match a, b with
  | NaN, _ | _, NaN => NaN
  | Inf s, Inf t => if Bool.eqb s t then Inf s else NaN
  | Inf s, Fin _ => Inf s
  | Fin _, Inf t => Inf t
  | Fin x, Fin y => Fin (x + y)
  end.

Definition sub (a b : num) : num := add a (neg b).

Definition mul (a b : num) : num :=
  match a, b with
  | NaN, _ | _, NaN => NaN
  | Inf s, Inf t => Inf (xorb s t)
  | Inf s, Fin y => if Qeq_bool y 0 then NaN else Inf (xorb s (Qltb y 0))
  | Fin x, Inf t => if Qeq_bool x 0 then NaN else Inf (xorb (Qltb x 0) t)
  | Fin x, Fin y => Fin (x * y)
  end.

(** [0 / 0] is [NaN]; a non-zero finite value over zero is an infinity. *)
Definition div (a b : num) : num :=
  match a, b with
  | NaN, _ | _, NaN => NaN
  | Inf _, Inf _ => NaN
  | Inf s, Fin y => Inf (xorb s (Qltb y 0))
  | Fin _, Inf _ => Fin 0
  | Fin x, Fin y =>
      if Qeq_bool y 0
      then (if Qeq_bool x 0 then NaN else Inf (Qltb x 0))
      else Fin (x / y)
  end.

(** Comparisons: every comparison with [NaN] is false. *)
Definition lt (a b : num) : bool :=
  match a, b with
  | NaN, _ | _, NaN => false
  | Inf s, Inf t => s && negb t
  | Inf s, Fin _ => s
  | Fin _, Inf t => negb t
  | Fin x, Fin y => Qltb x y
  end.

Definition le (a b : num) : bool :=
  match a, b with
  | NaN, _ | _, NaN => false
  | Inf s, Inf t => s || negb t
  | Inf s, Fin _ => s
  | Fin _, Inf t => negb t
  | Fin x, Fin y => Qle_bool x y
  end.

(** Strict equality [===] on numbers: [NaN] equals nothing. *)
Definition eq (a b : num) : bool :=
  match a, b with
  | Inf s, Inf t => Bool.eqb s t
  | Fin x, Fin y => Qeq_bool x y
  | _, _ => false
  end.

Definition gt (a b : num) : bool := lt b a.
Definition ge (a b : num) : bool := le b a.

(** [Math.min] and [Math.max] return [NaN] as soon as one argument is. *)
Definition min (a b : num) : num :=
  match a, b with
  | NaN, _ | _, NaN => NaN
  | _, _ => if lt b a then b else a
  end.

Definition max (a b : num) : num :=
  match a, b with
  | NaN, _ | _, NaN => NaN
  | _, _ => if lt a b then b else a
  end.

Definition floor (a : num) : num :=
  match a with
  | Fin q => of_Z (Qfloor q)
  | _ => a
  end.

(** [Math.round]: the nearest integer, a tie going up. *)
Definition round (a : num) : num :=
  match a with
  | Fin q => of_Z (Qfloor (q + (1 # 2)))
  | _ => a
  end.

(** Truncation towards zero, as used by the remainder operator. *)
Definition Qtrunc (q : Q) : Z :=
  if Qle_bool 0 q then Qfloor q else Qceiling q.

(** The remainder operator [%]: the result has the sign of the dividend. *)
Definition rem (a b : num) : num :=
  match a, b with
  | NaN, _ | _, NaN => NaN
  | Inf _, _ => NaN
  | Fin _, Inf _ => a
  | Fin x, Fin y =>
      if Qeq_bool y 0 then NaN
      else Fin (x - y * inject_Z (Qtrunc (x / y)))
  end.

End JS.

Import JS.

Declare Scope num_scope.
Delimit Scope num_scope with num.
Bind Scope num_scope with num.
Arguments JS.neg a%_num.
Arguments JS.add (a b)%_num.
Arguments JS.sub (a b)%_num.
Arguments JS.mul (a b)%_num.
Arguments JS.div (a b)%_num.
Arguments JS.rem (a b)%_num.
Arguments JS.lt (a b)%_num.
Arguments JS.le (a b)%_num.
Arguments JS.gt (a b)%_num.
Arguments JS.ge (a b)%_num.
Arguments JS.eq (a b)%_num.
Arguments JS.min (a b)%_num.
Arguments JS.max (a b)%_num.
Arguments JS.floor a%_num.
Arguments JS.round a%_num.
Infix "+" := JS.add : num_scope.
Infix "-" := JS.sub : num_scope.
Infix "*" := JS.mul : num_scope.
Infix "/" := JS.div : num_scope.
Infix "%%" := JS.rem (at level 40, left associativity) : num_scope.
Infix "<?" := JS.lt : num_scope.
Infix "<=?" := JS.le : num_scope.
Infix ">?" := JS.gt : num_scope.
Infix ">=?" := JS.ge : num_scope.
Notation "- x" := (JS.neg x) : num_scope.

(** A decimal literal of the source is read as a rational and is a [num]
    through the coercion. *)
Coercion Fin : Q >-> num.

(** A finite number lies in the closed unit interval. *)
Definition in_unit (a : num) : Prop :=
  exists q, a = Fin q /\ 0 <= q <= 1.

(** [a[i]] for an integer index: [undefined] (here [None]) outside the
    array, in particular at a negative index. *)
Definition nth_Z {A : Type} (l : list A) (i : Z) : option A :=
  if (i <? 0)%Z then None else l !! Z.to_nat i.

(** ** Audio feature extraction *)

(** The frequency-magnitude array is a [Uint8Array]: every entry is an
    integer in [0, 255]. *)
Abbreviation Uint8Array := (list Z) (only parsing).

Definition uint8 (d : Uint8Array) : Prop :=
  Forall (fun v => (0 <= v <= 255)%Z) d.

(** [dataArray[i] ?? 0]: an index outside the array reads [undefined],
    which the nullish coalescing turns into 0. *)
Definition at_or_0 (d : Uint8Array) (i : Z) : Z :=
  match nth_Z d i with
  | Some v => v
  | None => 0%Z
  end.

(** [for (let i = startIndex; i < endIndex; i++) sum += dataArray[i] ?? 0]
    with [n] iterations left; the sum of integers is exact. *)
Fixpoint sumLoop (d : Uint8Array) (i : Z) (n : nat) (sum : Z) : Z :=
  match n with
  | O => sum
  | S n' => sumLoop d (i + 1) n' (sum + at_or_0 d i)
  end.

(** [Math.floor(bufferLength * ratio)] for an integer [bufferLength]. *)
Definition ratioIndex (bufferLength : Z) (ratio : Q) : Z :=
  Qfloor (inject_Z bufferLength * ratio).

Definition getFrequencyBandIntensity
  (dataArray : Uint8Array) (bufferLength : Z) (startRatio endRatio : Q) : num :=
  let startIndex := ratioIndex bufferLength startRatio in
  let endIndex := ratioIndex bufferLength endRatio in
  let sum := sumLoop dataArray startIndex (Z.to_nat (endIndex - startIndex)) 0 in
  JS.min 1 (of_Z sum / of_Z (endIndex - startIndex) / 128)%num.

(** [dataArray.reduce((sum, val) => sum + val, 0)] *)
Definition reduce_sum (dataArray : Uint8Array) : Z :=
  fold_left Z.add dataArray 0%Z.

(** The four scalars [render] computes before it touches any state. *)
Record Intensities := mkIntensities {
  audioIntensity : num;
  bassIntensity : num;
  midIntensity : num;
  trebleIntensity : num
}.

Definition audioMetrics (dataArray : Uint8Array) (bufferLength : Z) : Intensities :=
  let avgFrequency := (of_Z (reduce_sum dataArray) / of_Z bufferLength)%num in
  {| audioIntensity := JS.min 1 (avgFrequency / 128)%num;
     bassIntensity := getFrequencyBandIntensity dataArray bufferLength 0 0.15;
     midIntensity := getFrequencyBandIntensity dataArray bufferLength 0.15 0.5;
     trebleIntensity := getFrequencyBandIntensity dataArray bufferLength 0.5 1.0 |}.


(** ** Entities and engine state *)

Module Pattern.
Inductive t : Type :=
| fractal | rays | tunnel | bubbles | voronoi
| waves | swarm | mandala | dna | plasma.

Definition eqb (a b : t) : bool :=
  match a, b with
  | fractal, fractal | rays, rays | tunnel, tunnel | bubbles, bubbles
  | voronoi, voronoi | waves, waves | swarm, swarm | mandala, mandala
  | dna, dna | plasma, plasma => true
  | _, _ => false
  end.
End Pattern.

Module Particle.
Record t : Type := mk {
  x : num; y : num; vx : num; vy : num;
  size : num; hue : num; life : num; maxLife : num;
  angle : num; angularVelocity : num;
  trail : list (num * num * num)
}.
End Particle.

Module Bubble.
Record t : Type := mk {
  x : num; y : num; vx : num; vy : num;
  radius : num; hue : num; age : num; maxAge : num;
  popping : bool; popProgress : num
}.
End Bubble.

Module Seed.
Record t : Type := mk { x : num; y : num; hue : num }.
End Seed.

Record FlowFieldRenderer : Type := mkRenderer {
  canvas_width : Z;
  canvas_height : Z;
  particles : list Particle.t;
  bubbles : list Bubble.t;
  time : Z;
  width : Z;
  height : Z;
  centerX : num;
  centerY : num;
  hueBase : num;
  (* Pattern system *)
  currentPattern : Pattern.t;
  nextPattern : Pattern.t;
  patternTimer : Z;
  patternDuration : num;
  transitionProgress : num;
  transitionSpeed : num;
  isTransitioning : bool;
  patternIndex : Z;
  (* Fractal parameters *)
  fractalZoom : num;
  fractalOffsetX : num;
  fractalOffsetY : num;
  juliaC_re : num;
  juliaC_im : num;
  (* Voronoi seeds *)
  voronoiSeeds : list Seed.t
}.

Definition patternSequence : list Pattern.t :=
  [Pattern.rays; Pattern.fractal; Pattern.tunnel; Pattern.bubbles; Pattern.voronoi;
   Pattern.waves; Pattern.swarm; Pattern.mandala; Pattern.dna; Pattern.plasma].

(** Field assignments [this.f = v]. *)
Definition set_canvas (w h : Z) (r : FlowFieldRenderer) : FlowFieldRenderer :=
  let 'mkRenderer _ _ ps bs t w0 h0 cx cy hb cp np pt pd tp ts it pi fz fx fy jr ji vs := r in
  mkRenderer w h ps bs t w0 h0 cx cy hb cp np pt pd tp ts it pi fz fx fy jr ji vs.
Definition set_particles (v : list Particle.t) (r : FlowFieldRenderer) : FlowFieldRenderer :=
  let 'mkRenderer cw ch _ bs t w0 h0 cx cy hb cp np pt pd tp ts it pi fz fx fy jr ji vs := r in
  mkRenderer cw ch v bs t w0 h0 cx cy hb cp np pt pd tp ts it pi fz fx fy jr ji vs.
Definition set_bubbles (v : list Bubble.t) (r : FlowFieldRenderer) : FlowFieldRenderer :=
  let 'mkRenderer cw ch ps _ t w0 h0 cx cy hb cp np pt pd tp ts it pi fz fx fy jr ji vs := r in
  mkRenderer cw ch ps v t w0 h0 cx cy hb cp np pt pd tp ts it pi fz fx fy jr ji vs.
Definition set_time (v : Z) (r : FlowFieldRenderer) : FlowFieldRenderer :=
  let 'mkRenderer cw ch ps bs _ w0 h0 cx cy hb cp np pt pd tp ts it pi fz fx fy jr ji vs := r in
  mkRenderer cw ch ps bs v w0 h0 cx cy hb cp np pt pd tp ts it pi fz fx fy jr ji vs.
Definition set_size (w h : Z) (r : FlowFieldRenderer) : FlowFieldRenderer :=
  let 'mkRenderer cw ch ps bs t _ _ cx cy hb cp np pt pd tp ts it pi fz fx fy jr ji vs := r in
  mkRenderer cw ch ps bs t w h cx cy hb cp np pt pd tp ts it pi fz fx fy jr ji vs.
Definition set_center (x y : num) (r : FlowFieldRenderer) : FlowFieldRenderer :=
  let 'mkRenderer cw ch ps bs t w0 h0 _ _ hb cp np pt pd tp ts it pi fz fx fy jr ji vs := r in
  mkRenderer cw ch ps bs t w0 h0 x y hb cp np pt pd tp ts it pi fz fx fy jr ji vs.
Definition set_hueBase (v : num) (r : FlowFieldRenderer) : FlowFieldRenderer :=
  let 'mkRenderer cw ch ps bs t w0 h0 cx cy _ cp np pt pd tp ts it pi fz fx fy jr ji vs := r in
  mkRenderer cw ch ps bs t w0 h0 cx cy v cp np pt pd tp ts it pi fz fx fy jr ji vs.
Definition set_currentPattern (v : Pattern.t) (r : FlowFieldRenderer) : FlowFieldRenderer :=
  let 'mkRenderer cw ch ps bs t w0 h0 cx cy hb _ np pt pd tp ts it pi fz fx fy jr ji vs := r in
  mkRenderer cw ch ps bs t w0 h0 cx cy hb v np pt pd tp ts it pi fz fx fy jr ji vs.
Definition set_nextPattern (v : Pattern.t) (r : FlowFieldRenderer) : FlowFieldRenderer :=
  let 'mkRenderer cw ch ps bs t w0 h0 cx cy hb cp _ pt pd tp ts it pi fz fx fy jr ji vs := r in
  mkRenderer cw ch ps bs t w0 h0 cx cy hb cp v pt pd tp ts it pi fz fx fy jr ji vs.
Definition set_patternTimer (v : Z) (r : FlowFieldRenderer) : FlowFieldRenderer :=
  let 'mkRenderer cw ch ps bs t w0 h0 cx cy hb cp np _ pd tp ts it pi fz fx fy jr ji vs := r in
  mkRenderer cw ch ps bs t w0 h0 cx cy hb cp np v pd tp ts it pi fz fx fy jr ji vs.
Definition set_transitionProgress (v : num) (r : FlowFieldRenderer) : FlowFieldRenderer :=
  let 'mkRenderer cw ch ps bs t w0 h0 cx cy hb cp np pt pd _ ts it pi fz fx fy jr ji vs := r in
  mkRenderer cw ch ps bs t w0 h0 cx cy hb cp np pt pd v ts it pi fz fx fy jr ji vs.
Definition set_isTransitioning (v : bool) (r : FlowFieldRenderer) : FlowFieldRenderer :=
  let 'mkRenderer cw ch ps bs t w0 h0 cx cy hb cp np pt pd tp ts _ pi fz fx fy jr ji vs := r in
  mkRenderer cw ch ps bs t w0 h0 cx cy hb cp np pt pd tp ts v pi fz fx fy jr ji vs.
Definition set_patternIndex (v : Z) (r : FlowFieldRenderer) : FlowFieldRenderer :=
  let 'mkRenderer cw ch ps bs t w0 h0 cx cy hb cp np pt pd tp ts it _ fz fx fy jr ji vs := r in
  mkRenderer cw ch ps bs t w0 h0 cx cy hb cp np pt pd tp ts it v fz fx fy jr ji vs.
Definition set_fractalZoom (v : num) (r : FlowFieldRenderer) : FlowFieldRenderer :=
  let 'mkRenderer cw ch ps bs t w0 h0 cx cy hb cp np pt pd tp ts it pi _ fx fy jr ji vs := r in
  mkRenderer cw ch ps bs t w0 h0 cx cy hb cp np pt pd tp ts it pi v fx fy jr ji vs.
Definition set_juliaC_re (v : num) (r : FlowFieldRenderer) : FlowFieldRenderer :=
  let 'mkRenderer cw ch ps bs t w0 h0 cx cy hb cp np pt pd tp ts it pi fz fx fy _ ji vs := r in
  mkRenderer cw ch ps bs t w0 h0 cx cy hb cp np pt pd tp ts it pi fz fx fy v ji vs.
Definition set_juliaC_im (v : num) (r : FlowFieldRenderer) : FlowFieldRenderer :=
  let 'mkRenderer cw ch ps bs t w0 h0 cx cy hb cp np pt pd tp ts it pi fz fx fy jr _ vs := r in
  mkRenderer cw ch ps bs t w0 h0 cx cy hb cp np pt pd tp ts it pi fz fx fy jr v vs.
Definition set_voronoiSeeds (v : list Seed.t) (r : FlowFieldRenderer) : FlowFieldRenderer :=
  let 'mkRenderer cw ch ps bs t w0 h0 cx cy hb cp np pt pd tp ts it pi fz fx fy jr ji _ := r in
  mkRenderer cw ch ps bs t w0 h0 cx cy hb cp np pt pd tp ts it pi fz fx fy jr ji v.

(** The class field initializers, for a canvas of the given size. *)
Definition fieldInitializers (canvasWidth canvasHeight : Z) : FlowFieldRenderer :=
  {| canvas_width := canvasWidth; canvas_height := canvasHeight;
     particles := []; bubbles := []; time := 0;
     width := 0; height := 0; centerX := 0; centerY := 0; hueBase := 0;
     currentPattern := Pattern.rays; nextPattern := Pattern.fractal;
     patternTimer := 0; patternDuration := 600;
     transitionProgress := 0; transitionSpeed := 0.02;
     isTransitioning := false; patternIndex := 0;
     fractalZoom := 1; fractalOffsetX := (-0.5)%Q; fractalOffsetY := 0;
     juliaC_re := (-0.7)%Q; juliaC_im := 0.27;
     voronoiSeeds := [] |}.

(** Two views of the state: the scheduler fields, and the fields no pattern
    renderer assigns. *)
Definition scheduler (r : FlowFieldRenderer) :=
  (currentPattern r, nextPattern r, patternIndex r, patternTimer r,
   transitionProgress r, isTransitioning r, patternDuration r, transitionSpeed r).

Definition globals (r : FlowFieldRenderer) :=
  (canvas_width r, canvas_height r, time r, width r, height r,
   centerX r, centerY r, hueBase r, fractalOffsetX r, fractalOffsetY r).

(** ** The pattern scheduler *)

Definition dynamicDuration (patternDuration audioIntensity : num) : num :=
  JS.max 300 (patternDuration - audioIntensity * 200)%num.

Definition updatePatternTransition (audioIntensity : num) (r : FlowFieldRenderer)
  : FlowFieldRenderer :=
  let dynamicDuration := dynamicDuration (patternDuration r) audioIntensity in
  let r := set_patternTimer (patternTimer r + 1) r in
  if isTransitioning r then
    let r := set_transitionProgress
               (transitionProgress r
                + transitionSpeed r * (1 + audioIntensity * 0.5))%num r in
    if (transitionProgress r >=? 1)%num then
      let r := set_transitionProgress 0 r in
      let r := set_isTransitioning false r in
      let r := set_currentPattern (nextPattern r) r in
      set_patternTimer 0 r
    else r
  else if (of_Z (patternTimer r) >? dynamicDuration)%num then
    let r := set_isTransitioning true r in
    let r := set_transitionProgress 0 r in
    let r := set_patternIndex
               (Z.rem (patternIndex r + 1) (Z.of_nat (length patternSequence))) r in
    set_nextPattern
      (match nth_Z patternSequence (patternIndex r) with
       | Some p => p
       | None => Pattern.rays
       end) r
  else r.

(** The scheduler alone over the audio intensities of successive frames,
    and the number of transitions it completes on the way: a transition is
    completed by the call that leaves the transitioning state. *)
Fixpoint runScheduler (intensities : list num) (r : FlowFieldRenderer)
  : FlowFieldRenderer :=
  match intensities with
  | [] => r
  | a :: rest => runScheduler rest (updatePatternTransition a r)
  end.

Fixpoint completedTransitions (intensities : list num) (r : FlowFieldRenderer) : nat :=
  match intensities with
  | [] => O
  | a :: rest =>
      let r' := updatePatternTransition a r in
      ((if isTransitioning r && negb (isTransitioning r') then 1 else 0)
       + completedTransitions rest r')%nat
  end.

(** The pattern that is active after [n] completed transitions. *)
Definition patternAfter (n : nat) : Pattern.t :=
  nth (n mod 10) patternSequence Pattern.rays.

(** ** Effects: the random source, exceptions, loops that need not end *)

(** A computation is run after [k] calls of [Math.random] and either returns
    a value together with the new number of calls, throws, or has no result
    (an unbounded [for] loop, or a [while] loop that outlives its fuel). *)
Inductive outcome (A : Type) : Type :=
| Returned (a : A) (calls : nat)
| Threw (message : string)
| NoResult.
Arguments Returned {A} a calls.
Arguments Threw {A} message.
Arguments NoResult {A}.

Definition M (A : Type) : Type := nat -> outcome A.

Definition ret {A : Type} (a : A) : M A := fun k => Returned a k.

Definition bind {A B : Type} (m : M A) (f : A -> M B) : M B :=
  fun k =>
    match m k with
    | Returned a k' => f a k'
    | Threw e => Threw e
    | NoResult => NoResult
    end.

Definition throw {A : Type} (message : string) : M A := fun _ => Threw message.

Definition noResult {A : Type} : M A := fun _ => NoResult.

Notation "'let*' x ':=' c1 'in' c2" := (bind c1 (fun x => c2))
  (at level 10, x pattern, c1 at level 100, c2 at level 200).

(** [for (let i = 0; i < count; i++) push(create())] *)
Fixpoint pushN {A : Type} (n : nat) (create : M A) : M (list A) :=
  match n with
  | O => ret []
  | S n' => let* a := create in let* l := pushN n' create in ret (a :: l)
  end.

(** The number of integers [i >= 0] with [i < bound]: the number of
    iterations a counter from 0 can make against [bound]; none when the
    comparison fails at once, no such number when [bound] is [+Infinity]. *)
Definition countBelow (bound : num) : option nat :=
  match bound with
  | NaN => Some O
  | Inf true => Some O
  | Inf false => None
  | Fin q => Some (Z.to_nat (Qceiling q))
  end.

(** [for (let i = 0; i < count; i++)] *)
Definition forCount (count : num) : M nat :=
  match countBelow count with
  | Some n => ret n
  | None => noResult
  end.

(** The values of [v] in [for (let v = 0; v < bound; v += 2)]. *)
Definition steps2 (bound : Z) : list Z :=
  map (fun k => (2 * Z.of_nat k)%Z) (seq 0 (Z.to_nat ((bound + 1) / 2))).

(** ** Color model *)

Definition hue2rgb (p q t : num) : num :=
  let t := if (t <? 0)%num then (t + 1)%num else t in
  let t := if (t >? 1)%num then (t - 1)%num else t in
  if (t <? 1 / 6)%num then (p + (q - p) * 6 * t)%num
  else if (t <? 1 / 2)%num then q
  else if (t <? 2 / 3)%num then (p + (q - p) * (2 / 3 - t) * 6)%num
  else p.

Definition hslToRgb (h s l : num) : num * num * num :=
  let '(r, g, b) :=
    if JS.eq s 0 then (l, l, l)
    else
      let q := if (l <? 0.5)%num then (l * (1 + s))%num else (l + s - l * s)%num in
      let p := (2 * l - q)%num in
      (hue2rgb p q (h + 1 / 3)%num, hue2rgb p q h, hue2rgb p q (h - 1 / 3)%num) in
  (JS.round (r * 255)%num, JS.round (g * 255)%num, JS.round (b * 255)%num).

(** A bubble is finished when its pop progress has reached 1. *)
Definition finished (b : Bubble.t) : bool := (Bubble.popProgress b >=? 1)%num.

(** A rising bubble has not begun to pop: its pop progress is still 0. *)
Definition fresh (b : Bubble.t) : Prop :=
  Bubble.popping b = false -> Bubble.popProgress b = 0.

(** The bubbles a pass keeps: those whose update did not splice. *)
Definition survivors (updated : list (Bubble.t * bool)) : list Bubble.t :=
  map fst (List.filter (fun p => negb (snd p)) updated).

(** ** The engine *)

Section Engine.

(** [random k] is the value of the [k]-th call of [Math.random]; a finite
    number by type. *)
Variable random : nat -> Q.

(** The transcendental functions and [Math.PI] have no rational model and
    are left open; so is the flocking update of [renderSwarm], which only
    rewrites the particles in place. *)
Variables Math_sin Math_cos : num -> num.
Variable Math_pow : num -> num -> num.
Variable Math_PI : num.
Variable flock : Intensities -> FlowFieldRenderer -> list Particle.t.

Definition Math_random : M num := fun k => Returned (Fin (random k)) (S k).

(** *** Initialization *)

Definition createParticle (r : FlowFieldRenderer) : M Particle.t :=
  let* u := Math_random in
  let angle := (u * Math_PI * 2)%num in
  let* u := Math_random in
  let radius := (u * of_Z (Z.min (width r) (height r)) * 0.5)%num in
  let* u := Math_random in
  let maxLife := (150 + u * 250)%num in
  let x := (centerX r + Math_cos angle * radius)%num in
  let y := (centerY r + Math_sin angle * radius)%num in
  let* u := Math_random in
  let vx := ((u - 0.5) * 2)%num in
  let* u := Math_random in
  let vy := ((u - 0.5) * 2)%num in
  let* u := Math_random in
  let size := (0.8 + u * 2.5)%num in
  let* u := Math_random in
  let hue := (u * 60)%num in
  let* u := Math_random in
  let angle' := (u * Math_PI * 2)%num in
  let* u := Math_random in
  let angularVelocity := ((u - 0.5) * 0.1)%num in
  ret (Particle.mk x y vx vy size hue maxLife maxLife angle' angularVelocity []).

Definition initializeParticles (r : FlowFieldRenderer) : M FlowFieldRenderer :=
  let count := JS.min 1200 (JS.floor (of_Z (width r) * of_Z (height r) / 800))%num in
  let r := set_particles [] r in
  let* n := forCount count in
  let* ps := pushN n (createParticle r) in
  ret (set_particles ps r).

Definition createBubble (r : FlowFieldRenderer) : M Bubble.t :=
  let* u := Math_random in
  let x := (u * of_Z (width r))%num in
  let* u := Math_random in
  let y := (of_Z (height r) + u * 100)%num in
  let* u := Math_random in
  let vx := ((u - 0.5) * 0.5)%num in
  let* u := Math_random in
  let vy := (- (0.5 + u * 1.5))%num in
  let* u := Math_random in
  let radius := (10 + u * 40)%num in
  let* u := Math_random in
  let hue := (u * 360)%num in
  let* u := Math_random in
  let maxAge := (300 + u * 300)%num in
  ret (Bubble.mk x y vx vy radius hue 0 maxAge false 0).

Definition initializeBubbles (r : FlowFieldRenderer) : M FlowFieldRenderer :=
  let r := set_bubbles [] r in
  let* u := Math_random in
  let count := (30 + JS.floor (u * 20))%num in
  let* n := forCount count in
  let* bs := pushN n (createBubble r) in
  ret (set_bubbles bs r).

Definition createSeed (r : FlowFieldRenderer) : M Seed.t :=
  let* u := Math_random in
  let x := (u * of_Z (width r))%num in
  let* u := Math_random in
  let y := (u * of_Z (height r))%num in
  let* u := Math_random in
  let hue := (u * 360)%num in
  ret (Seed.mk x y hue).

Definition initializeVoronoiSeeds (r : FlowFieldRenderer) : M FlowFieldRenderer :=
  let* u := Math_random in
  let count := (15 + JS.floor (u * 10))%num in
  let r := set_voronoiSeeds [] r in
  let* n := forCount count in
  let* vs := pushN n (createSeed r) in
  ret (set_voronoiSeeds vs r).

(** [new FlowFieldRenderer(canvas)]: [ctx] tells whether the canvas hands
    out a drawing context. *)
Definition constructor (canvasWidth canvasHeight : Z) (ctx : bool) : M FlowFieldRenderer :=
  if negb ctx then throw "Could not get canvas context"
  else
    let r := fieldInitializers canvasWidth canvasHeight in
    let r := set_size (canvas_width r) (canvas_height r) r in
    let r := set_center (of_Z (width r) / 2)%num (of_Z (height r) / 2)%num r in
    let* r := initializeParticles r in
    let* r := initializeBubbles r in
    initializeVoronoiSeeds r.

Definition resize (width height : Z) (r : FlowFieldRenderer) : M FlowFieldRenderer :=
  let r := set_size width height r in
  let r := set_center (of_Z width / 2)%num (of_Z height / 2)%num r in
  let r := set_canvas width height r in
  let* r := initializeParticles r in
  let* r := initializeBubbles r in
  initializeVoronoiSeeds r.

(** *** Pattern 1: fractal *)

(** The guard of the escape-time loop,
    [x * x + y * y <= 4 && iter < maxIter]. *)
Definition juliaGuard (maxIter x y : num) (iter : Z) : bool :=
  (x * x + y * y <=? 4)%num && (of_Z iter <? maxIter)%num.

(** The [while] loop of one pixel; [None] when the fuel is used up with the
    guard still true. The result is the final [iter]. *)
Fixpoint juliaLoop (fuel : nat) (re im maxIter x y : num) (iter : Z) : option Z :=
  if juliaGuard maxIter x y iter then
    match fuel with
    | O => None
    | S fuel' =>
        let xtemp := (x * x - y * y + re)%num in
        let y := (2 * x * y + im)%num in
        let x := xtemp in
        juliaLoop fuel' re im maxIter x y (iter + 1)
    end
  else Some iter.

(** One 2x2 block of the image: its top-left pixel, the iteration count of
    that pixel and the colour written to the block. *)
Record Block : Type := mkBlock {
  block_px : Z; block_py : Z; block_iter : Z; block_rgb : num * num * num
}.

(** The point of the complex plane a pixel column or row is mapped to. *)
Definition planeX (r : FlowFieldRenderer) (zoom : num) (px : Z) : num :=
  ((of_Z px - centerX r) / (of_Z (width r) * 0.25) / zoom + fractalOffsetX r)%num.

Definition planeY (r : FlowFieldRenderer) (zoom : num) (py : Z) : num :=
  ((of_Z py - centerY r) / (of_Z (height r) * 0.25) / zoom + fractalOffsetY r)%num.

Definition fractalBlock (fuel : nat) (I : Intensities) (r : FlowFieldRenderer)
  (maxIter zoom : num) (py px : Z) : M Block :=
  let x0 := planeX r zoom px in
  let y0 := planeY r zoom py in
  match juliaLoop fuel (juliaC_re r) (juliaC_im r) maxIter x0 y0 0 with
  | None => noResult
  | Some iter =>
      let hue := ((hueBase r + of_Z iter / maxIter * 360 + bassIntensity I * 60)
                  %% 360)%num in
      let saturation := (70 + audioIntensity I * 30)%num in
      let lightness :=
        if (of_Z iter <? maxIter)%num then (of_Z iter / maxIter * 60)%num
        else 0 in
      let rgb := hslToRgb (hue / 360)%num (saturation / 100)%num
                   (lightness / 100)%num in
      ret (mkBlock px py iter rgb)
  end.

(** Sequencing of a loop body over the values of the loop variable. *)
Fixpoint forEach {A B : Type} (l : list A) (body : A -> M B) : M (list B) :=
  match l with
  | [] => ret []
  | a :: l' => let* b := body a in let* bs := forEach l' body in ret (b :: bs)
  end.

(** The assignments that open [renderFractal]: the animated Julia constant
    and the zoom. *)
Definition animateFractal (I : Intensities) (r : FlowFieldRenderer) : FlowFieldRenderer :=
  let r := set_juliaC_re
             (- 0.7 + Math_sin (of_Z (time r) * 0.001) * 0.2
              + bassIntensity I * 0.1)%num r in
  let r := set_juliaC_im
             (0.27 + Math_cos (of_Z (time r) * 0.0015) * 0.2
              + midIntensity I * 0.1)%num r in
  set_fractalZoom
    (fractalZoom r
     + (0.02 + audioIntensity I * 0.05)
       * (1 + Math_sin (of_Z (time r) * 0.002) * 0.5))%num r.

Definition maxIterOf (I : Intensities) : num :=
  (50 + JS.floor (audioIntensity I * 50))%num.

Definition renderFractal (fuel : nat) (I : Intensities) (r : FlowFieldRenderer)
  : M (FlowFieldRenderer * list (list Block)) :=
  let r := animateFractal I r in
  let maxIter := maxIterOf I in
  let zoom := Math_pow 1.5 (fractalZoom r) in
  let* image :=
    forEach (steps2 (height r)) (fun py =>
      forEach (steps2 (width r)) (fun px =>
        fractalBlock fuel I r maxIter zoom py px)) in
  ret (r, image).

(** *** Pattern 4: bubbles *)

Definition popConditions (I : Intensities) (r : FlowFieldRenderer) (b : Bubble.t)
  : M bool :=
  if (Bubble.age b >? Bubble.maxAge b)%num
     || (Bubble.y b <? (- Bubble.radius b) * 2)%num
     || (Bubble.x b <? - Bubble.radius b)%num
     || (Bubble.x b >? of_Z (width r) + Bubble.radius b)%num
  then ret true
  else if (trebleIntensity I >? 0.7)%num
  then let* u := Math_random in ret (u >? 0.95)%num
  else ret false.

(** The loop body for one bubble: the bubble as mutated in place, and
    whether the body ran [this.bubbles.splice(i, 1)]. *)
Definition updateBubble (I : Intensities) (r : FlowFieldRenderer) (b : Bubble.t)
  : M (Bubble.t * bool) :=
  let '(Bubble.mk x y vx vy radius hue age maxAge popping popProgress) := b in
  if popping then
    let popProgress := (popProgress + (0.1 + trebleIntensity I * 0.1))%num in
    let b := Bubble.mk x y vx vy radius hue age maxAge popping popProgress in
    if (popProgress >=? 1)%num then ret (b, true) else ret (b, false)
  else
    let age := (age + 1)%num in
    let vy := (vy - 0.01)%num in
    let* u := Math_random in
    let vx := (vx + (u - 0.5) * 0.1)%num in
    let vx := (vx * 0.99)%num in
    let vy := (vy * 0.99)%num in
    let x := (x + (vx + Math_sin (of_Z (time r) * 0.02 + y * 0.01) * 0.5))%num in
    let y := (y + vy)%num in
    let b := Bubble.mk x y vx vy radius hue age maxAge popping popProgress in
    let* pop := popConditions I r b in
    if pop
    then ret (Bubble.mk x y vx vy radius hue age maxAge true popProgress, false)
    else ret (b, false).

(** For the statements about [updateBubble]: the bubble after the physics
    step of the rising branch, given the value [u] drawn for the Brownian
    motion, and the three bounds of the pop conditions. *)
Definition risen (r : FlowFieldRenderer) (b : Bubble.t) (u : num) : Bubble.t :=
  let vy := ((Bubble.vy b - 0.01) * 0.99)%num in
  let vx := ((Bubble.vx b + (u - 0.5) * 0.1) * 0.99)%num in
  Bubble.mk
    (Bubble.x b + (vx + Math_sin (of_Z (time r) * 0.02 + Bubble.y b * 0.01) * 0.5))%num
    (Bubble.y b + vy)%num vx vy (Bubble.radius b) (Bubble.hue b)
    (Bubble.age b + 1)%num (Bubble.maxAge b) false (Bubble.popProgress b).

Definition leavesBounds (r : FlowFieldRenderer) (b : Bubble.t) : bool :=
  (Bubble.y b <? (- Bubble.radius b) * 2)%num
  || (Bubble.x b <? - Bubble.radius b)%num
  || (Bubble.x b >? of_Z (width r) + Bubble.radius b)%num.

(** [for (let i = this.bubbles.length - 1; i >= 0; i--)], entered with
    [n = i + 1]. Next to the pool the loop returns its visits: the index and
    the bubble found there, in the order of the visits. *)
Fixpoint bubbleLoop (n : nat) (I : Intensities) (r : FlowFieldRenderer)
  (pool : list Bubble.t) (visited : list (nat * Bubble.t))
  : M (list Bubble.t * list (nat * Bubble.t)) :=
  match n with
  | O => ret (pool, visited)
  | S i =>
      match pool !! i with
      | None => bubbleLoop i I r pool visited
      | Some bubble =>
          let* (bubble', spliced) := updateBubble I r bubble in
          let visited := visited ++ [(i, bubble)] in
          if spliced
          then bubbleLoop i I r (delete i pool) visited
          else bubbleLoop i I r (<[i := bubble']> pool) visited
      end
  end.

(** The update pass in the words of the specification: every bubble is
    updated on its own, then the finished ones are deleted. The bubbles are
    updated from the last to the first, which fixes the order in which they
    draw from [Math.random]. *)
Fixpoint updateEach (I : Intensities) (r : FlowFieldRenderer) (pool : list Bubble.t)
  : M (list (Bubble.t * bool)) :=
  match pool with
  | [] => ret []
  | b :: rest =>
      let* rest' := updateEach I r rest in
      let* b' := updateBubble I r b in
      ret (b' :: rest')
  end.

Definition updateThenDelete (I : Intensities) (r : FlowFieldRenderer)
  (pool : list Bubble.t) : M (list Bubble.t) :=
  let* updated := updateEach I r pool in
  ret (List.filter (fun b => negb (finished b)) (map fst updated)).

Definition spawnBubble (I : Intensities) (r : FlowFieldRenderer) : M FlowFieldRenderer :=
  if (bassIntensity I >? 0.5)%num then
    let* u := Math_random in
    if (u >? 0.8)%num then
      let* b := createBubble r in
      ret (set_bubbles (bubbles r ++ [b]) r)
    else ret r
  else ret r.

Definition renderBubbles (I : Intensities) (r : FlowFieldRenderer) : M FlowFieldRenderer :=
  let* r := spawnBubble I r in
  let* (pool, _) := bubbleLoop (length (bubbles r)) I r (bubbles r) [] in
  ret (set_bubbles pool r).

(** *** Pattern 5: Voronoi seeds *)

Definition animateSeed (I : Intensities) (r : FlowFieldRenderer) (i : nat) (seed : Seed.t)
  : Seed.t :=
  let i := of_Z (Z.of_nat i) in
  let angle := (of_Z (time r) * 0.001 + i)%num in
  let radius := (50 + Math_sin (of_Z (time r) * 0.002 + i) * 30)%num in
  Seed.mk
    (centerX r + Math_cos angle * radius * (1 + bassIntensity I))%num
    (centerY r + Math_sin (angle * 1.3) * radius * (1 + bassIntensity I))%num
    ((Seed.hue seed + 0.5 + midIntensity I) %% 360)%num.

Definition renderVoronoi (I : Intensities) (r : FlowFieldRenderer) : FlowFieldRenderer :=
  set_voronoiSeeds (imap (animateSeed I r) (voronoiSeeds r)) r.

(** *** Dispatch and the frame *)

Definition renderPattern (fuel : nat) (pattern : Pattern.t) (I : Intensities)
  (r : FlowFieldRenderer) : M FlowFieldRenderer :=
  match pattern with
  | Pattern.fractal => let* (r, _) := renderFractal fuel I r in ret r
  | Pattern.bubbles => renderBubbles I r
  | Pattern.voronoi => ret (renderVoronoi I r)
  | Pattern.swarm => ret (set_particles (flock I r) r)
  | Pattern.rays | Pattern.tunnel | Pattern.waves
  | Pattern.mandala | Pattern.dna | Pattern.plasma => ret r
  end.

Definition render (fuel : nat) (dataArray : Uint8Array) (bufferLength : Z)
  (r : FlowFieldRenderer) : M FlowFieldRenderer :=
  let I := audioMetrics dataArray bufferLength in
  let r := set_time (time r + 1) r in
  let r := set_hueBase
             ((hueBase r + 0.3 + bassIntensity I * 1.5) %% 360)%num r in
  let r := updatePatternTransition (audioIntensity I) r in
  if isTransitioning r then
    let* r := renderPattern fuel (currentPattern r) I r in
    renderPattern fuel (nextPattern r) I r
  else renderPattern fuel (currentPattern r) I r.

(** The frames of a session: one [render] per array, all of length
    [bufferLength]. *)
Fixpoint renderAll (fuel : nat) (frames : list Uint8Array) (bufferLength : Z)
  (r : FlowFieldRenderer) : M FlowFieldRenderer :=
  match frames with
  | [] => ret r
  | dataArray :: frames' =>
      let* r := render fuel dataArray bufferLength r in
      renderAll fuel frames' bufferLength r
  end.

End Engine.

(** ** The pixel loop of the Voronoi pattern and the particle loop of the swarm

    [Math.sqrt] has no rational model either and is a parameter of both
    loops. [swarmPool] is the flocking update which the engine above takes
    as the parameter [flock]. *)

Section Patterns.

Variable Math_sqrt : num -> num.

(** *** Pattern 5: the Voronoi diagram *)

(** [Math.sqrt(dx * dx + dy * dy)] for the pixel [(x, y)] and a seed. *)
Definition seedDistance (x y : Z) (seed : Seed.t) : num :=
  let dx := (of_Z x - Seed.x seed)%num in
  let dy := (of_Z y - Seed.y seed)%num in
  Math_sqrt (dx * dx + dy * dy)%num.

(** The body of [for (const seed of this.voronoiSeeds)] on the pair
    [(minDist, closestSeed)]. *)
Definition closestStep (x y : Z) (acc : num * option Seed.t) (seed : Seed.t)
  : num * option Seed.t :=
  let '(minDist, closestSeed) := acc in
  let dist := seedDistance x y seed in
  if (dist <? minDist)%num then (dist, Some seed) else (minDist, closestSeed).

(** The search, entered with [minDist = Infinity] and [closestSeed = null]. *)
Definition findClosest (seeds : list Seed.t) (x y : Z) : num * option Seed.t :=
  fold_left (closestStep x y) seeds (Inf false, None).

Definition voronoiColor (I : Intensities) (minDist : num) (closestSeed : Seed.t)
  : num * num * num :=
  let distNorm := JS.min 1 (minDist / 200)%num in
  let lightness := (30 + distNorm * 40 + audioIntensity I * 20)%num in
  let saturation := (70 + audioIntensity I * 30)%num in
  hslToRgb (Seed.hue closestSeed / 360)%num (saturation / 100)%num
    (lightness / 100)%num.

(** The colour written to the 2x2 block at [(x, y)]; [None] when
    [closestSeed] is still [null] and the block is left as it was created. *)
Definition voronoiBlock (I : Intensities) (seeds : list Seed.t) (y x : Z)
  : option (num * num * num) :=
  let '(minDist, closestSeed) := findClosest seeds x y in
  match closestSeed with
  | Some seed => Some (voronoiColor I minDist seed)
  | None => None
  end.

(** The blocks of the diagram, for the seeds as [renderVoronoi] has just
    animated them. *)
Definition voronoiImage (I : Intensities) (r : FlowFieldRenderer)
  : list (list (option (num * num * num))) :=
  map (fun y => map (fun x => voronoiBlock I (voronoiSeeds r) y x)
                 (steps2 (width r)))
    (steps2 (height r)).

(** *** Pattern 7: the particle swarm *)

(** The accumulators of the flocking forces. *)
Record Forces : Type := mkForces {
  alignX : num; alignY : num;
  cohereX : num; cohereY : num;
  separateX : num; separateY : num;
  neighbors : Z
}.

(** The body of the inner loop [for (let j = 0; ...)] for particle [i]. *)
Definition neighbourStep (I : Intensities) (i : nat) (particle : Particle.t)
  (f : Forces) (j : nat) (other : Particle.t) : Forces :=
  if Nat.eqb i j then f
  else
    let perceptionRadius := (50 + audioIntensity I * 50)%num in
    let dx := (Particle.x other - Particle.x particle)%num in
    let dy := (Particle.y other - Particle.y particle)%num in
    let dist := Math_sqrt (dx * dx + dy * dy)%num in
    if (dist <? perceptionRadius)%num && (dist >? 0)%num then
      let close := (dist <? 30)%num in
      mkForces
        (alignX f + Particle.vx other)%num (alignY f + Particle.vy other)%num
        (cohereX f + Particle.x other)%num (cohereY f + Particle.y other)%num
        (if close then (separateX f - dx / dist)%num else separateX f)
        (if close then (separateY f - dy / dist)%num else separateY f)
        (neighbors f + 1)
    else f.

Definition neighbourLoop (I : Intensities) (i : nat) (particle : Particle.t)
  (pool : list Particle.t) : Forces :=
  fold_left (fun f jo => neighbourStep I i particle f (fst jo) (snd jo))
    (imap pair pool) (mkForces 0 0 0 0 0 0 0).

(** [if (neighbors > 0) { ... }]: the averages of the forces. *)
Definition averaged (particle : Particle.t) (f : Forces) : Forces :=
  if (0 <? neighbors f)%Z then
    let n := of_Z (neighbors f) in
    mkForces
      (alignX f / n)%num (alignY f / n)%num
      ((cohereX f / n - Particle.x particle) * 0.01)%num
      ((cohereY f / n - Particle.y particle) * 0.01)%num
      (separateX f * 0.05)%num (separateY f * 0.05)%num
      (neighbors f)
  else f.

(** [if (v < 0) v = bound; if (v > bound) v = 0;] *)
Definition wrap (bound : Z) (v : num) : num :=
  let v := if (v <? 0)%num then of_Z bound else v in
  if (v >? of_Z bound)%num then 0 else v.

(** [trail.push(point); if (trail.length > 20) trail.shift();] *)
Definition pushTrail (trail : list (num * num * num)) (point : num * num * num)
  : list (num * num * num) :=
  let trail := trail ++ [point] in
  if (20 <? length trail)%nat then tl trail else trail.

(** The body of the outer loop for the particle at index [i] of the pool:
    the particle as mutated in place. The pool is the array as it is when
    the body runs, so the particles before [i] are already updated. *)
Definition flockParticle (I : Intensities) (r : FlowFieldRenderer)
  (pool : list Particle.t) (i : nat) (particle : Particle.t) : Particle.t :=
  let f := averaged particle (neighbourLoop I i particle pool) in
  let dx := (centerX r - Particle.x particle)%num in
  let dy := (centerY r - Particle.y particle)%num in
  let dist := Math_sqrt (dx * dx + dy * dy)%num in
  let centerForce := (0.001 * (1 + bassIntensity I * 2))%num in
  let vx := (Particle.vx particle
             + (alignX f * 0.02 + cohereX f + separateX f + dx / dist * centerForce))%num in
  let vy := (Particle.vy particle
             + (alignY f * 0.02 + cohereY f + separateY f + dy / dist * centerForce))%num in
  let maxSpeed := (2 + trebleIntensity I * 3)%num in
  let speed := Math_sqrt (vx * vx + vy * vy)%num in
  let clamp := (speed >? maxSpeed)%num in
  let vx' := if clamp then (vx / speed * maxSpeed)%num else vx in
  let vy' := if clamp then (vy / speed * maxSpeed)%num else vy in
  let x := wrap (width r) (Particle.x particle + vx')%num in
  let y := wrap (height r) (Particle.y particle + vy')%num in
  Particle.mk x y vx' vy' (Particle.size particle) (Particle.hue particle)
    (Particle.life particle) (Particle.maxLife particle)
    (Particle.angle particle) (Particle.angularVelocity particle)
    (pushTrail (Particle.trail particle) (x, y, Fin 1)).

(** [for (let i = 0; i < this.particles.length; i++)], the update part. *)
Definition swarmStep (I : Intensities) (r : FlowFieldRenderer)
  (pool : list Particle.t) (i : nat) : list Particle.t :=
  match pool !! i with
  | Some particle => <[i := flockParticle I r pool i particle]> pool
  | None => pool
  end.

Definition swarmPool (I : Intensities) (r : FlowFieldRenderer) : list Particle.t :=
  fold_left (swarmStep I r) (seq 0 (length (particles r))) (particles r).

Definition renderSwarm (I : Intensities) (r : FlowFieldRenderer) : FlowFieldRenderer :=
  set_particles (swarmPool I r) r.

End Patterns.

(** ** What the ray burst, the tunnel and the plasma hand to the canvas

    The numbers the three renderers compute for their strokes, rings and
    pixel blocks; the canvas calls that take them are not modelled. *)

Section Drawing.

Variables Math_sin Math_cos Math_sqrt : num -> num.
Variable Math_PI : num.

(** *** Pattern 2: ray burst *)

Definition rayCount (I : Intensities) : num :=
  (24 + JS.floor (bassIntensity I * 24))%num.

(** One stroke of the chromatic aberration loop of ray [i]. *)
Record RayStroke : Type := mkRayStroke {
  ray_index : Z; ray_offset : Z;
  ray_angle : num; ray_endX : num; ray_endY : num;
  ray_width : num; ray_hue : num; ray_alpha : num
}.

Definition rayStroke (I : Intensities) (r : FlowFieldRenderer) (i offset : Z)
  : RayStroke :=
  let rayCount := rayCount I in
  let angleStep := (Math_PI * 2 / rayCount)%num in
  let angle := (angleStep * of_Z i + of_Z (time r) * 0.005)%num in
  let rayLength :=
    (of_Z (Z.min (width r) (height r)) * (0.6 + audioIntensity I * 0.4))%num in
  let rayWidth := (2 + trebleIntensity I * 8)%num in
  let endX := (centerX r + Math_cos angle * rayLength)%num in
  let endY := (centerY r + Math_sin angle * rayLength)%num in
  let hue := ((hueBase r + of_Z i * (360 / rayCount) + of_Z offset * 10) %% 360)%num in
  let alpha :=
    ((0.15 + audioIntensity I * 0.15) * (1 - of_Z (Z.abs offset) * 0.3))%num in
  mkRayStroke i offset angle (endX + of_Z offset * 3)%num (endY + of_Z offset * 3)%num
    rayWidth hue alpha.

(** [for (let offset = -2; offset <= 2; offset++)] *)
Definition rayOffsets : list Z := [-2; -1; 0; 1; 2]%Z.

Definition renderRays (I : Intensities) (r : FlowFieldRenderer) : M (list RayStroke) :=
  let* n := forCount (rayCount I) in
  ret (flat_map (fun i => map (rayStroke I r (Z.of_nat i)) rayOffsets) (seq 0 n)).

(** *** Pattern 3: tunnel *)

Record Ring : Type := mkRing {
  ring_radius : num; ring_alpha : num; ring_rotation : num;
  ring_hue : num; ring_lineWidth : num; ring_filled : bool
}.

(** The radius of ring [ring], computed before the ring is drawn or
    skipped. *)
Definition ringDepth (ring : Z) : num := (of_Z ring / 30)%num.

Definition ringZ (I : Intensities) (r : FlowFieldRenderer) (ring : Z) : num :=
  (ringDepth ring + of_Z (time r) * 0.003 + bassIntensity I * 0.1)%num.

Definition ringRadius (I : Intensities) (r : FlowFieldRenderer) (ring : Z) : num :=
  let zMod := (ringZ I r ring %% 1)%num in
  let scale := (1 / (zMod + 0.1))%num in
  (scale * 50)%num.

(** The body of [for (let r = 0; r < rings; r++)]: [None] when the ring is
    skipped by [continue]. *)
Definition tunnelRing (I : Intensities) (r : FlowFieldRenderer) (ring : Z)
  : option Ring :=
  let depth := ringDepth ring in
  let z := ringZ I r ring in
  let zMod := (z %% 1)%num in
  let radius := ringRadius I r ring in
  if (radius >? of_Z (Z.max (width r) (height r)) * 2)%num then None
  else
    let alpha := ((1 - zMod) * (0.2 + audioIntensity I * 0.3))%num in
    let rotation := (z * Math_PI * 2 + midIntensity I * Math_PI)%num in
    let hue := ((hueBase r + depth * 360 + bassIntensity I * 60) %% 360)%num in
    Some (mkRing radius alpha rotation hue (1 + audioIntensity I * 3)%num
            (Z.rem ring 3 =? 0)%Z).

Definition renderTunnel (I : Intensities) (r : FlowFieldRenderer) : list (option Ring) :=
  map (fun ring => tunnelRing I r (Z.of_nat ring)) (seq 0 30).

(** *** Pattern 10: plasma *)

(** The colour of the 2x2 block at [(x, y)]. The squares [(x - centerX) ** 2]
    are products. *)
Definition plasmaValue (I : Intensities) (r : FlowFieldRenderer) (y x : Z) : num :=
  let time := (of_Z (time r) * 0.05)%num in
  let scale := (0.01 + audioIntensity I * 0.005)%num in
  let v1 := Math_sin (of_Z x * scale + time)%num in
  let v2 := Math_sin ((of_Z y * scale + time) / 2)%num in
  let v3 := Math_sin ((of_Z x * scale + of_Z y * scale + time) / 2)%num in
  let dx := (of_Z x - centerX r)%num in
  let dy := (of_Z y - centerY r)%num in
  let v4 := Math_sin (Math_sqrt (dx * dx + dy * dy) * scale + time)%num in
  ((v1 + v2 + v3 + v4) / 4)%num.

Definition plasmaBlock (I : Intensities) (r : FlowFieldRenderer) (y x : Z)
  : num * num * num :=
  let plasma := plasmaValue I r y x in
  let hue := ((hueBase r + plasma * 180 + bassIntensity I * 60) %% 360)%num in
  let saturation := (70 + midIntensity I * 30)%num in
  let lightness := (40 + plasma * 30 + audioIntensity I * 20)%num in
  hslToRgb (hue / 360)%num (saturation / 100)%num (lightness / 100)%num.

Definition renderPlasma (I : Intensities) (r : FlowFieldRenderer)
  : list (list (num * num * num)) :=
  map (fun y => map (fun x => plasmaBlock I r y x) (steps2 (width r)))
    (steps2 (height r)).

End Drawing.

(** ** The pixel blocks of the fractal, the Voronoi diagram and the plasma

    The three pixel loops end with the same two loops, which write one
    colour to the pixels of a 2x2 block that lie inside the surface. *)

(** The values of [d] in [for (let d = 0; d < 2 && v + d < bound; d++)]. *)
Definition blockSteps (bound v : Z) : list Z :=
  if (v + 0 <? bound)%Z
  then 0%Z :: (if (v + 1 <? bound)%Z then [1%Z] else [])
  else [].

(** The indices [((py + dy) * width + (px + dx)) * 4] at which the block at
    [(px, py)] writes its red channel; green, blue and alpha follow at the
    next three indices. *)
Definition blockWrites (width height py px : Z) : list Z :=
  flat_map (fun dy =>
              map (fun dx => ((py + dy) * width + (px + dx)) * 4)%Z
                (blockSteps width px))
    (blockSteps height py).

(** The writes of a frame that paints every block, in the order of the
    loops: [for (py = 0; py < height; py += 2) for (px = 0; px < width;
    px += 2)]. *)
Definition imageWrites (width height : Z) : list Z :=
  flat_map (fun py => flat_map (fun px => blockWrites width height py px)
                        (steps2 width))
    (steps2 height).

(** Modelled from the spec: the parameter setters of the engine facade are
    not part of the renderer source; the spec has them validate nothing
    beyond the type and store the value. *)
Definition setFractalZoom (value : num) (r : FlowFieldRenderer) : FlowFieldRenderer :=
  set_fractalZoom value r.

(** ** A concrete environment

    Stand-ins for the open functions, used where a statement is evaluated at
    a concrete input: a constant random source, flat trigonometry, a zoom
    factor of 1 and particles that do not move. *)
Module Demo.
Definition random : nat -> Q := fun _ => 0.5.
Definition Math_sin : num -> num := fun _ => 0.
Definition Math_cos : num -> num := fun _ => 0.
Definition Math_pow : num -> num -> num := fun _ _ => 1.
Definition Math_PI : num := 3.14.
Definition flock : Intensities -> FlowFieldRenderer -> list Particle.t :=
  fun _ r => particles r.
Definition constructor := constructor random Math_sin Math_cos Math_PI.
Definition resize := resize random Math_sin Math_cos Math_PI.
Definition render := render random Math_sin Math_cos Math_pow flock.
Definition renderAll := renderAll random Math_sin Math_cos Math_pow flock.
Definition renderFractal := renderFractal Math_sin Math_cos Math_pow.
Definition quiet : Uint8Array := [10; 20; 30; 40; 50; 60; 70; 80]%Z.
Definition loud : Uint8Array := [255; 255; 255; 255; 255; 255; 255; 255]%Z.
End Demo.

(** A stand-in for [Math.sqrt] where a statement is evaluated at a concrete
    input: the root of a finite number, rounded up to an integer. *)
Definition sqrt_ceil (a : num) : num :=
  match a with
  | Fin q => if Qle_bool 0 q then of_Z (Z.sqrt_up (Qceiling q)) else NaN
  | Inf false => Inf false
  | _ => NaN
  end.

(** ** Notions used by the statements *)

(** [yields m P]: whatever the number of earlier [Math.random] calls, [m]
    returns (it neither throws nor lacks a result) a value satisfying [P]. *)
Definition yields {A : Type} (m : M A) (P : A -> Prop) : Prop :=
  forall k, exists a k', m k = Returned a k' /\ P a.

(** The audio intensity [render] computes is [Math.min(1, _)]: never
    [+Infinity], and at most 1 when finite. *)
Definition capped (a : num) : Prop :=
  a = NaN \/ a = Inf true \/ exists q, a = Fin q /\ q <= 1.

(** Proofs by cases on the comparisons of a loop body: name the closed
    comparisons, so that they can be destructed as booleans. *)
Ltac abstract_comparisons :=
  repeat match goal with
         | |- context [JS.gt ?a ?b] =>
             let c := fresh "c" in set (c := JS.gt a b) in *; clearbody c
         | |- context [JS.lt ?a ?b] =>
             let c := fresh "c" in set (c := JS.lt a b) in *; clearbody c
         | |- context [JS.ge ?a ?b] =>
             let c := fresh "c" in set (c := JS.ge a b) in *; clearbody c
         end.

(** The image [renderFractal] computes: one block for every second row and
    column of the surface, each with the iteration count at which the loop
    of its pixel ends, within [cap] iterations. *)
Definition escapeImage (r : FlowFieldRenderer) (maxIter zoom : num) (cap : nat)
  (image : list (list Block)) : Prop :=
  Forall2
    (fun py row =>
       Forall2
         (fun px b =>
            block_px b = px /\ block_py b = py
            /\ juliaLoop cap (juliaC_re r) (juliaC_im r) maxIter
                 (planeX r zoom px) (planeY r zoom py) 0 = Some (block_iter b)
            /\ (0 <= block_iter b <= Z.of_nat cap)%Z)
         (steps2 (width r)) row)
    (steps2 (height r)) image.

(** A new bubble: age 0, rising, no pop progress. *)
Definition newborn (b : Bubble.t) : Prop :=
  Bubble.age b = 0 /\ Bubble.popping b = false /\ Bubble.popProgress b = 0.

(** A hue in degrees: a finite number in [0, 360). *)
Definition hue_ok (a : num) : Prop :=
  exists q, a = Fin q /\ 0 <= q < 360.

(** A valid frequency-magnitude input for a buffer of [bufferLength] bins:
    a [Uint8Array] of that length, long enough for every band to hold a
    sample (from 7 bins on [floor(bufferLength * 0.15) >= 1]). *)
Definition validFrame (bufferLength : Z) (dataArray : Uint8Array) : Prop :=
  uint8 dataArray /\ Z.of_nat (length dataArray) = bufferLength
  /\ (7 <= bufferLength)%Z.

(** After [c] completed transitions the scheduler shows pattern [c mod 10]
    of the sequence, and heads for the next one while it is transitioning. *)
Definition cycle_inv (c : nat) (r : FlowFieldRenderer) : Prop :=
  currentPattern r = patternAfter c
  /\ if isTransitioning r
     then patternIndex r = Z.of_nat (S c mod 10) /\ nextPattern r = patternAfter (S c)
     else patternIndex r = Z.of_nat (c mod 10).

(** The audio intensities of the frames of a session. *)
Definition intensitiesOf (frames : list Uint8Array) (bufferLength : Z) : list num :=
  map (fun d => audioIntensity (audioMetrics d bufferLength)) frames.

(** Every entry of the array is 255. *)
Definition all255 (dataArray : Uint8Array) : Prop :=
  Forall (fun v => v = 255%Z) dataArray.

(** Reduction of field reads over field assignments. *)
Ltac fields :=
  cbn [canvas_width canvas_height particles bubbles time width height centerX
       centerY hueBase currentPattern nextPattern patternTimer patternDuration
       transitionProgress transitionSpeed isTransitioning patternIndex
       fractalZoom fractalOffsetX fractalOffsetY juliaC_re juliaC_im voronoiSeeds
       set_canvas set_particles set_bubbles set_time set_size set_center
       set_hueBase set_currentPattern set_nextPattern set_patternTimer
       set_transitionProgress set_isTransitioning set_patternIndex
       set_fractalZoom set_juliaC_re set_juliaC_im set_voronoiSeeds] in *.

(** A colour channel as [hslToRgb] returns it to the pixel loops: an integer
    from 0 to 255. *)
Definition channel (a : num) : Prop :=
  exists n : Z, a = of_Z n /\ (0 <= n <= 255)%Z.

Definition rgb_ok (c : num * num * num) : Prop :=
  channel (fst (fst c)) /\ channel (snd (fst c)) /\ channel (snd c).

(** What the search for the closest seed returns, for the distance [dist] of
    a pixel: no seed when every distance is [NaN] or [+Infinity]; otherwise
    the first seed at the least distance, which is below [+Infinity], no
    earlier seed being as close and no later one closer. *)
Definition nearest (dist : Seed.t -> num) (seeds : list Seed.t)
  (found : num * option Seed.t) : Prop :=
  match found with
  | (minDist, None) =>
      minDist = Inf false
      /\ forall s, In s seeds -> dist s = NaN \/ dist s = Inf false
  | (minDist, Some seed) =>
      minDist = dist seed /\ (minDist <? Inf false)%num = true
      /\ exists before after,
           seeds = before ++ seed :: after
           /\ (forall s, In s before -> (dist s <=? minDist)%num = false)
           /\ (forall s, In s after -> (dist s <? minDist)%num = false)
  end.

(** A coordinate after the wrap-around of the swarm: [NaN], or a finite
    number from 0 to the bound. *)
Definition within (bound : Z) (v : num) : Prop :=
  v = NaN \/ exists q, v = Fin q /\ 0 <= q <= inject_Z bound.

(** What one pass of the swarm does to a particle [p], giving [p']: the
    fields the pass does not assign are unchanged, the position is wrapped
    into the surface, and the trail has got the new position, at full
    opacity, as its last point. *)
Definition flocked (r : FlowFieldRenderer) (p p' : Particle.t) : Prop :=
  Particle.size p' = Particle.size p /\ Particle.hue p' = Particle.hue p
  /\ Particle.life p' = Particle.life p /\ Particle.maxLife p' = Particle.maxLife p
  /\ Particle.angle p' = Particle.angle p
  /\ Particle.angularVelocity p' = Particle.angularVelocity p
  /\ within (width r) (Particle.x p') /\ within (height r) (Particle.y p')
  /\ Particle.trail p'
     = pushTrail (Particle.trail p) (Particle.x p', Particle.y p', Fin 1).

(** A trail as the swarm keeps it: at most 20 points. *)
Definition short (p : Particle.t) : Prop := (length (Particle.trail p) <= 20)%nat.

(** [Math.sqrt] of a zero is a zero. *)
Definition sqrt_of_zero (Math_sqrt : num -> num) : Prop :=
  forall q, q == 0 -> exists z, Math_sqrt (Fin q) = Fin z /\ z == 0.

(** The particle sits exactly at the centre of the surface. *)
Definition atCentre (r : FlowFieldRenderer) (p : Particle.t) : Prop :=
  exists cx cy px py,
    centerX r = Fin cx /\ centerY r = Fin cy
    /\ Particle.x p = Fin px /\ Particle.y p = Fin py
    /\ px == cx /\ py == cy.

(** The particle has no position any more. *)
Definition lost (p : Particle.t) : Prop :=
  Particle.x p = NaN /\ Particle.vx p = NaN
  /\ Particle.y p = NaN /\ Particle.vy p = NaN.

(** A finite number in the half-open interval from [lo] to [hi]. *)
Definition between (lo hi : Q) (a : num) : Prop :=
  exists q, a = Fin q /\ lo <= q < hi.

(** [Math.random] returns a number in [0, 1). *)
Definition unit_random (random : nat -> Q) : Prop :=
  forall k, 0 <= random k < 1.

(** A bubble as [createBubble] makes it for a surface of the given size: new,
    at or below the bottom edge, moving upwards. *)
Definition spawned (w h : Z) (b : Bubble.t) : Prop :=
  newborn b
  /\ between (inject_Z h) (inject_Z h + 100) (Bubble.y b)
  /\ between (- 0.25) 0.25 (Bubble.vx b)
  /\ (exists q, Bubble.vy b = Fin q /\ - 2 < q <= - 0.5)
  /\ between 10 50 (Bubble.radius b)
  /\ hue_ok (Bubble.hue b)
  /\ between 300 600 (Bubble.maxAge b)
  /\ ((0 <= w)%Z -> exists q, Bubble.x b = Fin q /\ 0 <= q <= inject_Z w).

(** A seed as [initializeVoronoiSeeds] makes it. *)
Definition sown (w h : Z) (s : Seed.t) : Prop :=
  hue_ok (Seed.hue s)
  /\ ((0 <= w)%Z -> exists q, Seed.x s = Fin q /\ 0 <= q <= inject_Z w)
  /\ ((0 <= h)%Z -> exists q, Seed.y s = Fin q /\ 0 <= q <= inject_Z h).

(** A particle as [createParticle] makes it. *)
Definition scattered (p : Particle.t) : Prop :=
  Particle.trail p = [] /\ Particle.life p = Particle.maxLife p
  /\ between 150 400 (Particle.maxLife p)
  /\ between (- 1) 1 (Particle.vx p) /\ between (- 1) 1 (Particle.vy p)
  /\ between 0.8 3.3 (Particle.size p)
  /\ between 0 60 (Particle.hue p)
  /\ between (- 0.05) 0.05 (Particle.angularVelocity p).

(** The pools no pattern creates or deletes from: [n] particles with short
    trails and [m] seeds, and, where [hues] is set, every seed hue in
    range. *)
Definition pools (hues : bool) (n m : nat) (r : FlowFieldRenderer) : Prop :=
  length (particles r) = n /\ Forall short (particles r)
  /\ length (voronoiSeeds r) = m
  /\ (hues = true -> Forall (fun s => hue_ok (Seed.hue s)) (voronoiSeeds r)).

(** [Math.sqrt] returns [NaN] or a number that is not negative. *)
Definition sqrt_not_negative (Math_sqrt : num -> num) : Prop :=
  forall a, Math_sqrt a = NaN \/ (0 <=? Math_sqrt a)%num = true.

(** The life of one bubble over successive passes of [renderBubbles]: a
    visit gives the intensities and the renderer of the pass and the number
    of [Math.random] calls made when the loop reaches the bubble. The result
    is [None] once an update has spliced the bubble. *)
Fixpoint follow (random : nat -> Q) (Math_sin : num -> num)
  (visits : list (Intensities * FlowFieldRenderer * nat)) (b : Bubble.t)
  : option Bubble.t :=
  match visits with
  | [] => Some b
  | (intensities, r, k) :: rest =>
      match updateBubble random Math_sin intensities r b k with
      | Returned (b', false) _ => follow random Math_sin rest b'
      | _ => None
      end
  end.

(** The treble intensity of every visit is in [0, 1]. *)
Definition treble_unit (visits : list (Intensities * FlowFieldRenderer * nat)) : Prop :=
  Forall (fun v => in_unit (trebleIntensity (fst (fst v)))) visits.

(** The bubble has not begun to pop. *)
Definition rising (b : Bubble.t) : bool := negb (Bubble.popping b).

(** What holds of every bubble of the pool at any time: the radius, the hue
    and the maximal age are as created and the bubble moves upwards; the age
    is at most one above the maximal age, and not above it while the bubble
    rises; the pop progress is 0 while it rises and below 1 while it
    pops. *)
Definition sound (b : Bubble.t) : Prop :=
  between 10 50 (Bubble.radius b) /\ hue_ok (Bubble.hue b)
  /\ (exists q, Bubble.vy b = Fin q /\ - 2 < q <= - 0.5)
  /\ (exists a m,
        Bubble.age b = Fin a /\ Bubble.maxAge b = Fin m
        /\ 300 <= m < 600 /\ 0 <= a <= m + 1
        /\ (Bubble.popping b = false -> a <= m))
  /\ (exists p,
        Bubble.popProgress b = Fin p /\ 0 <= p < 1
        /\ (Bubble.popping b = false -> Bubble.popProgress b = 0)).

(** A stroke of the ray burst for a ray count of [c]: the ray index is
    below the count, the alpha is between 0.06 and 0.3, the line width
    between 2 and 10, and the hue, which is not normalised after the
    chromatic offset is added, between -20 and 360. *)
Definition stroke_ok (c : Z) (s : RayStroke) : Prop :=
  (0 <= ray_index s < c)%Z /\ In (ray_offset s) rayOffsets
  /\ (exists q, ray_alpha s = Fin q /\ 0.06 <= q <= 0.3)
  /\ (exists q, ray_hue s = Fin q /\ - 20 <= q < 360)
  /\ (exists q, ray_width s = Fin q /\ 2 <= q <= 10).

(** [Math.sin] of a finite number is between -1 and 1, and [Math.sqrt] of a
    finite number that is not negative is finite. *)
Definition sin_bounded (Math_sin : num -> num) : Prop :=
  forall q, exists s, Math_sin (Fin q) = Fin s /\ - 1 <= s <= 1.

Definition sqrt_finite (Math_sqrt : num -> num) : Prop :=
  forall q, 0 <= q -> exists s, Math_sqrt (Fin q) = Fin s.

(** * Properties *)

(** ** Numbers *)

Lemma Qltb_lt (a b : Q) : Qltb a b = true <-> a < b.
Proof.
  unfold Qltb. rewrite negb_true_iff. split.
  - intros H. apply Qnot_le_lt. intros Hle. apply Qle_bool_iff in Hle. congruence.
  - intros H. destruct (Qle_bool b a) eqn:E; [|reflexivity].
    apply Qle_bool_iff in E. apply Qle_not_lt in E. contradiction.
Qed.

Lemma Qltb_ge (a b : Q) : Qltb a b = false <-> b <= a.
Proof.
  unfold Qltb. rewrite negb_false_iff. apply Qle_bool_iff.
Qed.

Lemma Qeq_bool_false (a b : Q) : ~ a == b -> Qeq_bool a b = false.
Proof.
  intros H. destruct (Qeq_bool a b) eqn:E; [|reflexivity].
  apply Qeq_bool_iff in E. contradiction.
Qed.

Lemma min_one_unit (q : Q) : 0 <= q -> in_unit (JS.min 1 (Fin q)).
Proof.
  intros Hq. unfold JS.min, JS.lt. destruct (Qltb q 1) eqn:E.
  - exists q. split; [reflexivity|]. apply Qltb_lt in E. lra.
  - exists 1. split; [reflexivity|]. lra.
Qed.

Lemma min_one_saturates (q : Q) : 1 <= q -> JS.min 1 (Fin q) = 1.
Proof.
  intros Hq. unfold JS.min, JS.lt.
  destruct (Qltb q 1) eqn:E; [|reflexivity].
  apply Qltb_lt in E. lra.
Qed.

(** ** Audio feature extraction *)

Lemma ratioIndex_div (N a : Z) (b : positive) :
  ratioIndex N (a # b) = (N * a / Z.pos b)%Z.
Proof. reflexivity. Qed.

Lemma at_or_0_bounds (d : Uint8Array) (i : Z) :
  uint8 d -> (0 <= at_or_0 d i <= 255)%Z.
Proof.
  intros Hd. unfold at_or_0, nth_Z.
  destruct (i <? 0)%Z; [simpl; lia|].
  destruct (d !! Z.to_nat i) as [v|] eqn:E; [|simpl; lia].
  unfold uint8 in Hd. rewrite Forall_forall in Hd.
  apply Hd. eapply list_elem_of_lookup_2; eauto.
Qed.

Lemma sumLoop_bounds (d : Uint8Array) (n : nat) :
  uint8 d -> forall i acc,
  (acc <= sumLoop d i n acc <= acc + 255 * Z.of_nat n)%Z.
Proof.
  intros Hd. induction n as [|n IH]; intros i acc; simpl sumLoop.
  - lia.
  - specialize (IH (i + 1)%Z (acc + at_or_0 d i)%Z).
    pose proof (at_or_0_bounds d i Hd). lia.
Qed.

Lemma band_empty_NaN (d : Uint8Array) (N : Z) (s e : Q) :
  ratioIndex N e = ratioIndex N s -> getFrequencyBandIntensity d N s e = NaN.
Proof.
  intros H. unfold getFrequencyBandIntensity. rewrite H, Z.sub_diag. reflexivity.
Qed.

Lemma band_in_unit (d : Uint8Array) (N : Z) (s e : Q) :
  uint8 d -> (ratioIndex N s < ratioIndex N e)%Z ->
  in_unit (getFrequencyBandIntensity d N s e).
Proof.
  intros Hd Hlt. unfold getFrequencyBandIntensity.
  set (n := (ratioIndex N e - ratioIndex N s)%Z).
  assert (Hn : (0 < n)%Z) by (unfold n; lia).
  pose proof (sumLoop_bounds d (Z.to_nat n) Hd (ratioIndex N s) 0%Z) as [Hlo _].
  set (sum := sumLoop d (ratioIndex N s) (Z.to_nat n) 0) in *.
  assert (Hnq : 0 < inject_Z n) by (rewrite Zlt_Qlt in Hn; exact Hn).
  assert (Hsq : 0 <= inject_Z sum) by (rewrite Zle_Qle in Hlo; exact Hlo).
  unfold of_Z. cbn [JS.div].
  rewrite (Qeq_bool_false (inject_Z n) 0) by lra.
  cbn [JS.div]. rewrite (Qeq_bool_false 128 0) by lra.
  apply min_one_unit.
  apply Qle_shift_div_l; [lra|]. rewrite Qmult_0_l.
  apply Qle_shift_div_l; [lra|]. lra.
Qed.

(** C1 (as the code has it): a band without samples is not guarded. Its
    sum is 0 and its sample count is 0, so the intensity is [0 / 0 = NaN],
    not 0: this is the case of the bass band of every array shorter than 7
    and of all four scalars of the empty array. The one bound check is the
    read [dataArray[i] ?? 0]; with it, a band with at least one sample of a
    [Uint8Array] has an intensity in the unit interval. *)
Theorem band_without_samples_is_NaN :
  (forall d N s e,
     ratioIndex N e = ratioIndex N s -> getFrequencyBandIntensity d N s e = NaN)
  /\ (forall d N, (0 <= N < 7)%Z -> bassIntensity (audioMetrics d N) = NaN)
  /\ audioMetrics [] 0 = mkIntensities NaN NaN NaN NaN
  /\ (forall d N s e,
        uint8 d -> (ratioIndex N s < ratioIndex N e)%Z ->
        in_unit (getFrequencyBandIntensity d N s e)).
Proof.
  split; [|split; [|split]].
  - exact band_empty_NaN.
  - intros d N HN. cbn [audioMetrics bassIntensity].
    apply band_empty_NaN. rewrite !ratioIndex_div.
    rewrite Z.mul_0_r. cbn [Z.div]. rewrite Zdiv_0_l.
    apply Z.div_small. lia.
  - reflexivity.
  - exact band_in_unit.
Qed.

Lemma band_without_samples_is_NaN_witness :
  getFrequencyBandIntensity [] 0 0.5 1.0 = NaN
  /\ bassIntensity (audioMetrics [200; 100; 50]%Z 3) = NaN
  /\ in_unit (getFrequencyBandIntensity [200; 100; 50]%Z 3 0.15 0.5).
Proof.
  destruct band_without_samples_is_NaN as (H1 & H2 & _ & H4).
  split; [|split].
  - apply H1. reflexivity.
  - apply H2. lia.
  - apply H4; [|reflexivity].
    repeat constructor; lia.
Defined.

(** C1, as stated, fails: the bass band of a six-entry array has no sample
    ([floor(6 * 0.15) = 0]) and its intensity is [NaN], not 0. *)
Lemma band_without_samples_not_zero :
  ratioIndex 6 0.15 = ratioIndex 6 0
  /\ getFrequencyBandIntensity [255; 255; 255; 255; 255; 255]%Z 6 0 0.15 = NaN
  /\ getFrequencyBandIntensity [255; 255; 255; 255; 255; 255]%Z 6 0 0.15 <> 0.
Proof.
  split; [reflexivity|]. split; [reflexivity|]. discriminate.
Qed.

(** ** The pattern scheduler *)

(** The fields [updatePatternTransition] never assigns. *)
Lemma updatePatternTransition_frame (a : num) (r : FlowFieldRenderer) :
  let r' := updatePatternTransition a r in
  globals r' = globals r
  /\ particles r' = particles r /\ bubbles r' = bubbles r
  /\ voronoiSeeds r' = voronoiSeeds r
  /\ fractalZoom r' = fractalZoom r
  /\ juliaC_re r' = juliaC_re r /\ juliaC_im r' = juliaC_im r
  /\ patternDuration r' = patternDuration r
  /\ transitionSpeed r' = transitionSpeed r.
Proof.
  destruct r. unfold updatePatternTransition. cbn.
  repeat match goal with |- context [if ?c then _ else _] => destruct c end;
    cbn; repeat split; reflexivity.
Qed.

(** The scheduler reads nothing but the scheduler fields. *)
Lemma updatePatternTransition_scheduler (a : num) (r1 r2 : FlowFieldRenderer) :
  scheduler r1 = scheduler r2 ->
  scheduler (updatePatternTransition a r1) = scheduler (updatePatternTransition a r2).
Proof.
  destruct r1, r2. unfold scheduler. cbn. intros H. injection H as -> -> -> -> -> -> -> ->.
  unfold updatePatternTransition. cbn.
  repeat match goal with |- context [if ?c then _ else _] => destruct c end;
    reflexivity.
Qed.

(** C2 (as the code has it): one rule per call, chosen by [isTransitioning];
    [patternTimer] is incremented on every call, before the rule is chosen,
    and [dynamicDuration] is computed on every call. While transitioning the
    progress grows by [transitionSpeed * (1 + a * 0.5)] and the transition is
    committed once it is at least 1; otherwise a transition begins as soon
    as the incremented timer exceeds [dynamicDuration]. *)
Theorem updatePatternTransition_rules (a : num) (r : FlowFieldRenderer) :
  let r' := updatePatternTransition a r in
  let timer := (patternTimer r + 1)%Z in
  let progress := (transitionProgress r + transitionSpeed r * (1 + a * 0.5))%num in
  let dynamicDuration := JS.max 300 (patternDuration r - a * 200)%num in
  (isTransitioning r = true -> (progress >=? 1)%num = true ->
     currentPattern r' = nextPattern r /\ transitionProgress r' = 0
     /\ patternTimer r' = 0%Z /\ isTransitioning r' = false
     /\ nextPattern r' = nextPattern r /\ patternIndex r' = patternIndex r)
  /\ (isTransitioning r = true -> (progress >=? 1)%num = false ->
     transitionProgress r' = progress /\ patternTimer r' = timer
     /\ isTransitioning r' = true /\ currentPattern r' = currentPattern r
     /\ nextPattern r' = nextPattern r /\ patternIndex r' = patternIndex r)
  /\ (isTransitioning r = false -> (of_Z timer >? dynamicDuration)%num = true ->
     isTransitioning r' = true /\ transitionProgress r' = 0
     /\ patternIndex r' = Z.rem (patternIndex r + 1) 10
     /\ nextPattern r' = match nth_Z patternSequence (patternIndex r') with
                         | Some p => p
                         | None => Pattern.rays
                         end
     /\ patternTimer r' = timer /\ currentPattern r' = currentPattern r)
  /\ (isTransitioning r = false -> (of_Z timer >? dynamicDuration)%num = false ->
     patternTimer r' = timer /\ isTransitioning r' = false
     /\ transitionProgress r' = transitionProgress r
     /\ currentPattern r' = currentPattern r
     /\ nextPattern r' = nextPattern r /\ patternIndex r' = patternIndex r).
Proof.
  destruct r. unfold updatePatternTransition, dynamicDuration. cbn.
  split; [|split; [|split]]; intros -> Hc; cbn; rewrite Hc;
    cbn; repeat split; reflexivity.
Qed.

Lemma updatePatternTransition_rules_witness :
  let r := set_isTransitioning true (set_transitionProgress 0.99 (fieldInitializers 0 0)) in
  let r' := updatePatternTransition 0 r in
  currentPattern r' = nextPattern r /\ transitionProgress r' = 0
  /\ patternTimer r' = 0%Z /\ isTransitioning r' = false
  /\ nextPattern r' = nextPattern r /\ patternIndex r' = patternIndex r.
Proof.
  intros r r'.
  exact (proj1 (updatePatternTransition_rules 0 r) eq_refl eq_refl).
Defined.

(** C2, as stated, fails: [patternTimer] is incremented in the transitioning
    branch as well. Here a transition is under way and is not committed by
    the call, and the timer goes from 5 to 6. *)
Lemma patternTimer_incremented_while_transitioning :
  let r := set_isTransitioning true (set_patternTimer 5 (fieldInitializers 0 0)) in
  let r' := updatePatternTransition 0 r in
  isTransitioning r = true /\ isTransitioning r' = true
  /\ patternTimer r = 5%Z /\ patternTimer r' = 6%Z.
Proof. repeat split; reflexivity. Qed.

(** ** Computations that return *)

Lemma yields_ret {A : Type} (a : A) (P : A -> Prop) : P a -> yields (ret a) P.
Proof. intros H k. exists a, k. split; [reflexivity|exact H]. Qed.

Lemma yields_bind {A B : Type} (m : M A) (f : A -> M B) (P : A -> Prop) (Q : B -> Prop) :
  yields m P -> (forall a, P a -> yields (f a) Q) -> yields (bind m f) Q.
Proof.
  intros Hm Hf k. destruct (Hm k) as (a & k1 & E & Ha).
  destruct (Hf a Ha k1) as (b & k2 & E2 & Hb).
  exists b, k2. unfold bind. rewrite E. split; assumption.
Qed.

Lemma yields_bind_ret {A B : Type} (a : A) (f : A -> M B) (Q : B -> Prop) :
  yields (f a) Q -> yields (bind (ret a) f) Q.
Proof. intros H k. exact (H k). Qed.

Lemma yields_weaken {A : Type} (m : M A) (P Q : A -> Prop) :
  yields m P -> (forall a, P a -> Q a) -> yields m Q.
Proof.
  intros Hm HPQ k. destruct (Hm k) as (a & k' & E & Ha).
  exists a, k'. split; [exact E|apply HPQ, Ha].
Qed.

Lemma yields_random (random : nat -> Q) :
  yields (Math_random random) (fun u => exists q : Q, u = Fin q).
Proof. intros k. eexists _, _. split; [reflexivity|]. eexists. reflexivity. Qed.

Lemma yields_forEach {A B : Type} (l : list A) (body : A -> M B) (Q : A -> B -> Prop) :
  (forall a, a ∈ l -> yields (body a) (Q a)) ->
  yields (forEach l body) (fun bs => Forall2 Q l bs).
Proof.
  induction l as [|a l IH]; intros H; cbn [forEach].
  - apply yields_ret. constructor.
  - eapply yields_bind; [apply H; left|].
    intros b Hb. eapply yields_bind.
    + apply IH. intros a' Ha'. apply H. right. exact Ha'.
    + intros bs Hbs. apply yields_ret. constructor; assumption.
Qed.

Lemma yields_pushN {A : Type} (n : nat) (create : M A) (P : A -> Prop) :
  yields create P ->
  yields (pushN n create) (fun l => length l = n /\ Forall P l).
Proof.
  intros Hc. induction n as [|n IH]; cbn [pushN].
  - apply yields_ret. split; [reflexivity|constructor].
  - eapply yields_bind; [exact Hc|]. intros a Ha.
    eapply yields_bind; [exact IH|]. intros l [Hl HP].
    apply yields_ret. split; [cbn; congruence|constructor; assumption].
Qed.

(** ** The escape-time loop *)

Lemma countBelow_lt (bound : num) (cap : nat) (i : Z) :
  countBelow bound = Some cap -> (of_Z i <? bound)%num = true ->
  (i < Z.of_nat cap)%Z.
Proof.
  destruct bound as [|[|]|q]; cbn; try discriminate.
  intros [= <-] H. apply Qltb_lt in H.
  pose proof (Qle_ceiling q) as Hc.
  assert (Hlt : inject_Z i < inject_Z (Qceiling q)) by lra.
  rewrite <- Zlt_Qlt in Hlt. lia.
Qed.

(** The loop ends within [cap] iterations, where [cap] is the number of
    values of [iter] below [maxIter]. *)
Lemma juliaLoop_terminates (re im maxIter : num) (cap : nat) :
  countBelow maxIter = Some cap ->
  forall fuel x y iter,
    (0 <= iter)%Z -> (Z.of_nat cap - iter <= Z.of_nat fuel)%Z ->
    exists n, juliaLoop fuel re im maxIter x y iter = Some n
              /\ (iter <= n <= Z.max iter (Z.of_nat cap))%Z.
Proof.
  intros Hcap. induction fuel as [|fuel IH]; intros x y iter H0 Hfuel; cbn [juliaLoop].
  - destruct (juliaGuard maxIter x y iter) eqn:G.
    + apply andb_prop in G as [_ G].
      pose proof (countBelow_lt _ _ _ Hcap G). lia.
    + exists iter. split; [reflexivity|lia].
  - destruct (juliaGuard maxIter x y iter) eqn:G.
    + apply andb_prop in G as [_ G].
      pose proof (countBelow_lt _ _ _ Hcap G) as Hlt.
      edestruct (IH (x * x - y * y + re)%num (2 * x * y + im)%num (iter + 1)%Z)
        as (n & E & Hn); [lia|lia|].
      exists n. split; [exact E|lia].
    + exists iter. split; [reflexivity|lia].
Qed.

(** More fuel does not change the result. *)
Lemma juliaLoop_fuel (re im maxIter : num) (fuel : nat) :
  forall x y iter n,
    juliaLoop fuel re im maxIter x y iter = Some n ->
    forall fuel', (fuel <= fuel')%nat ->
    juliaLoop fuel' re im maxIter x y iter = Some n.
Proof.
  induction fuel as [|fuel IH]; intros x y iter n E fuel' Hle.
  - cbn [juliaLoop] in E. destruct (juliaGuard maxIter x y iter) eqn:G; [discriminate|].
    destruct fuel'; cbn [juliaLoop]; rewrite G; exact E.
  - cbn [juliaLoop] in E. destruct fuel' as [|fuel']; [lia|].
    cbn [juliaLoop]. destruct (juliaGuard maxIter x y iter); [|exact E].
    eapply IH; [exact E|lia].
Qed.

Lemma min_one_capped (a : num) : capped (JS.min 1 a).
Proof.
  destruct a as [|[|]|q]; cbn.
  - left. reflexivity.
  - right. left. reflexivity.
  - right. right. exists 1. split; [reflexivity|lra].
  - right. right. unfold JS.lt. destruct (Qltb q 1) eqn:E.
    + exists q. split; [reflexivity|]. apply Qltb_lt in E. lra.
    + exists 1. split; [reflexivity|lra].
Qed.

Lemma audioIntensity_capped (d : Uint8Array) (N : Z) :
  capped (audioIntensity (audioMetrics d N)).
Proof. cbn [audioMetrics audioIntensity]. apply min_one_capped. Qed.

(** The iteration cap [maxIter = 50 + floor(a * 50)] of a capped intensity
    allows at most 100 iterations. *)
Lemma maxIter_cap (a : num) :
  capped a ->
  exists cap, countBelow (50 + JS.floor (a * 50))%num = Some cap /\ (cap <= 100)%nat.
Proof.
  intros [->|[->|(q & -> & Hq)]].
  - exists O. split; [reflexivity|lia].
  - exists O. split; [reflexivity|lia].
  - cbn [JS.mul JS.floor JS.add countBelow of_Z]. eexists. split; [reflexivity|].
    assert (H : (Qfloor (q * 50) <= 50)%Z).
    { replace 50%Z with (Qfloor 50) at 2 by reflexivity.
      apply Qfloor_resp_le. lra. }
    assert (Hc : (Qceiling (50 + inject_Z (Qfloor (q * 50))) <= 100)%Z).
    { replace 100%Z with (Qceiling 100) by reflexivity.
      apply Qceiling_resp_le. rewrite Zle_Qle in H.
      change (inject_Z 50) with 50 in H.
      set (z := inject_Z (Qfloor (q * 50))) in *. lra. }
    lia.
Qed.

(** ** The bubble pool *)

Lemma gt_add_one (a m : num) : (a >? m)%num = true -> (a + 1 >? m)%num = true.
Proof.
  unfold JS.gt. destruct a as [|s|x], m as [|t|y]; cbn; try discriminate; try tauto.
  rewrite !Qltb_lt. lra.
Qed.

Section Bubbles.

Variable random : nat -> Q.
Variable Math_sin : num -> num.

Local Abbreviation updateBubble := (updateBubble random Math_sin).
Local Abbreviation updateEach := (updateEach random Math_sin).
Local Abbreviation bubbleLoop := (bubbleLoop random Math_sin).
Local Abbreviation updateThenDelete := (updateThenDelete random Math_sin).
Local Abbreviation renderBubbles := (renderBubbles random Math_sin).
Local Abbreviation createBubble := (createBubble random).
Local Abbreviation spawnBubble := (spawnBubble random).

(** A popping bubble adds [0.1 + trebleIntensity * 0.1] to its progress and
    is spliced exactly when the sum has reached 1. *)
Lemma updateBubble_popping (I : Intensities) (r : FlowFieldRenderer) (b : Bubble.t) (k : nat) :
  Bubble.popping b = true ->
  let progress := (Bubble.popProgress b + (0.1 + trebleIntensity I * 0.1))%num in
  updateBubble I r b k =
  Returned (Bubble.mk (Bubble.x b) (Bubble.y b) (Bubble.vx b) (Bubble.vy b)
              (Bubble.radius b) (Bubble.hue b) (Bubble.age b) (Bubble.maxAge b)
              true progress,
            (progress >=? 1)%num) k.
Proof.
  destruct b; cbn. intros ->.
  match goal with |- context [if ?c then _ else _] => destruct c end; reflexivity.
Qed.

(** A rising bubble is never spliced; after the physics step it turns to
    popping when it is older than [maxAge], or has left the surface upward
    or sideways, or, with a treble intensity above 0.7, when the next random
    draw is above 0.95. *)
Lemma updateBubble_rising (I : Intensities) (r : FlowFieldRenderer) (b : Bubble.t) (k : nat) :
  Bubble.popping b = false ->
  let b1 := risen Math_sin r b (Fin (random k)) in
  exists b' k',
    updateBubble I r b k = Returned (b', false) k'
    /\ Bubble.popping b' =
       ((Bubble.age b1 >? Bubble.maxAge b1)%num || leavesBounds r b1
        || ((trebleIntensity I >? 0.7)%num && (Fin (random (S k)) >? 0.95)%num))
    /\ Bubble.x b' = Bubble.x b1 /\ Bubble.y b' = Bubble.y b1
    /\ Bubble.vx b' = Bubble.vx b1 /\ Bubble.vy b' = Bubble.vy b1
    /\ Bubble.age b' = Bubble.age b1 /\ Bubble.maxAge b' = Bubble.maxAge b
    /\ Bubble.radius b' = Bubble.radius b /\ Bubble.hue b' = Bubble.hue b
    /\ Bubble.popProgress b' = Bubble.popProgress b.
Proof.
  destruct b as [x y vx vy radius hue age maxAge popping popProgress].
  cbn [Bubble.popping]. intros ->.
  unfold updateBubble, popConditions, bind, Math_random, ret, risen, leavesBounds.
  cbn [Bubble.x Bubble.y Bubble.vx Bubble.vy Bubble.radius Bubble.hue
       Bubble.age Bubble.maxAge Bubble.popping Bubble.popProgress].
  remember (Fin (random (S k)) >? 0.95)%num as cr eqn:Ecr.
  abstract_comparisons.
  repeat match goal with c : bool |- _ => destruct c end;
    cbn [orb andb]; cbv beta iota; rewrite <- ?Ecr; cbv beta iota;
    eexists _, _; (split; [reflexivity|]);
    cbn [Bubble.x Bubble.y Bubble.vx Bubble.vy Bubble.radius Bubble.hue
         Bubble.age Bubble.maxAge Bubble.popping Bubble.popProgress];
    repeat split; reflexivity.
Qed.

Lemma updateBubble_too_old (I : Intensities) (r : FlowFieldRenderer) (b : Bubble.t) (k : nat) :
  Bubble.popping b = false -> (Bubble.age b >? Bubble.maxAge b)%num = true ->
  exists b' k', updateBubble I r b k = Returned (b', false) k'
                /\ Bubble.popping b' = true.
Proof.
  intros Hr Hage. destruct (updateBubble_rising I r b k Hr) as (b' & k' & E & Hp & _).
  exists b', k'. split; [exact E|]. rewrite Hp. cbn.
  rewrite (gt_add_one _ _ Hage). reflexivity.
Qed.

Lemma updateBubble_yields (I : Intensities) (r : FlowFieldRenderer) (b : Bubble.t) :
  yields (updateBubble I r b) (fun _ => True).
Proof.
  intros k. destruct (Bubble.popping b) eqn:Hp.
  - eexists _, _. split; [apply updateBubble_popping; exact Hp|exact Logic.I].
  - destruct (updateBubble_rising I r b k Hp) as (b' & k' & E & _).
    eexists _, _. split; [exact E|exact Logic.I].
Qed.

(** *** The pass over the pool *)

Lemma updateEach_snoc (I : Intensities) (r : FlowFieldRenderer) (pre : list Bubble.t)
  (b : Bubble.t) :
  forall k,
    updateEach I r (pre ++ [b]) k =
    (let* x := updateBubble I r b in
     let* rest := updateEach I r pre in
     ret (rest ++ [x])) k.
Proof.
  induction pre as [|a pre IH]; intros k.
  - cbn [app updateEach]. unfold bind, ret.
    destruct (updateBubble I r b k) as [[x s] kx| |]; reflexivity.
  - cbn [app updateEach]. unfold bind at 1. rewrite IH. unfold bind, ret.
    destruct (updateBubble I r b k) as [x kx| |]; try reflexivity.
    destruct (updateEach I r pre kx) as [rest kr| |]; try reflexivity.
    destruct (updateBubble I r a kr) as [y ky| |]; reflexivity.
Qed.

Lemma survivors_snoc (updated : list (Bubble.t * bool)) (b : Bubble.t) (s : bool) :
  survivors (updated ++ [(b, s)]) = survivors updated ++ (if s then [] else [b]).
Proof.
  unfold survivors. rewrite List.filter_app, map_app. cbn. destruct s; reflexivity.
Qed.

(** The loop, entered at index [length pre - 1] on the pool [pre ++ done]:
    it updates the bubbles of [pre] from the last to the first, each exactly
    once and as it stood at the start, and leaves [done] alone. *)
Lemma bubbleLoop_prefix (I : Intensities) (r : FlowFieldRenderer) (pre : list Bubble.t) :
  forall done visited k,
    bubbleLoop (length pre) I r (pre ++ done) visited k =
    (let* updated := updateEach I r pre in
     ret (survivors updated ++ done, visited ++ rev (imap pair pre))) k.
Proof.
  induction pre as [|b pre IH] using rev_ind; intros done visited k.
  - cbn. unfold ret. rewrite app_nil_r. reflexivity.
  - rewrite length_app, Nat.add_1_r. cbn [bubbleLoop].
    rewrite <- app_assoc. cbn [app].
    rewrite list_lookup_middle by reflexivity.
    unfold bind at 1 2. rewrite updateEach_snoc. unfold bind.
    destruct (updateBubble I r b k) as [[b' s] kb| |]; [|reflexivity|reflexivity].
    assert (Hv : forall l : list (nat * Bubble.t),
               visited ++ rev (imap pair (pre ++ [b]))
               = (visited ++ [(length pre, b)]) ++ rev (imap pair pre)).
    { intros _. rewrite imap_app, rev_app_distr. cbn.
      rewrite Nat.add_0_r, <- app_assoc. reflexivity. }
    specialize (Hv []).
    destruct s.
    + replace (delete (length pre) (pre ++ b :: done)) with (pre ++ done).
      2:{ rewrite delete_middle. reflexivity. }
      rewrite IH. unfold bind, ret.
      destruct (updateEach I r pre kb) as [updated ku| |]; try reflexivity.
      rewrite survivors_snoc, app_nil_r, Hv. reflexivity.
    + replace (<[length pre := b']> (pre ++ b :: done)) with (pre ++ b' :: done).
      2:{ rewrite insert_app_r_alt by lia. rewrite Nat.sub_diag. reflexivity. }
      rewrite IH. unfold bind, ret.
      destruct (updateEach I r pre kb) as [updated ku| |]; try reflexivity.
      rewrite survivors_snoc, Hv, <- (app_assoc (survivors updated)). reflexivity.
Qed.

Lemma bubbleLoop_whole (I : Intensities) (r : FlowFieldRenderer) (pool : list Bubble.t)
  (k : nat) :
  bubbleLoop (length pool) I r pool [] k =
  (let* updated := updateEach I r pool in
   ret (survivors updated, rev (imap pair pool))) k.
Proof.
  pose proof (bubbleLoop_prefix I r pool [] [] k) as H.
  rewrite app_nil_r in H. rewrite H. unfold bind, ret.
  destruct (updateEach I r pool k) as [updated ku| |]; try reflexivity.
  rewrite app_nil_r. reflexivity.
Qed.

Lemma updateEach_yields (I : Intensities) (r : FlowFieldRenderer) (pool : list Bubble.t) :
  yields (updateEach I r pool)
    (fun updated =>
       Forall2 (fun b p => exists kb kb', updateBubble I r b kb = Returned p kb')
         pool updated).
Proof.
  induction pool as [|b pool IH]; cbn [updateEach].
  - apply yields_ret. constructor.
  - eapply yields_bind; [exact IH|]. intros rest Hrest k.
    destruct (updateBubble_yields I r b k) as (p & k' & E & _).
    exists (p :: rest), k'. unfold bind, ret. rewrite E.
    split; [reflexivity|]. constructor; [|exact Hrest]. eauto.
Qed.

(** The update keeps a bubble fresh, and on a fresh bubble the splice is
    run exactly when the bubble is finished. *)
Lemma updateBubble_fresh (I : Intensities) (r : FlowFieldRenderer) (b : Bubble.t)
  (k : nat) (b' : Bubble.t) (s : bool) (k' : nat) :
  fresh b -> updateBubble I r b k = Returned (b', s) k' ->
  fresh b' /\ s = finished b'.
Proof.
  intros Hf E. destruct (Bubble.popping b) eqn:Hp.
  - rewrite (updateBubble_popping I r b k Hp) in E. injection E as <- <- <-.
    split; [intros H; discriminate H|reflexivity].
  - destruct (updateBubble_rising I r b k Hp) as (b1 & k1 & E1 & _ & Hrest).
    rewrite E1 in E. injection E as <- <- <-.
    assert (Hpp : Bubble.popProgress b1 = 0).
    { destruct Hrest as (_ & _ & _ & _ & _ & _ & _ & _ & ->). apply Hf, Hp. }
    split; [intros _; exact Hpp|]. unfold finished. rewrite Hpp. reflexivity.
Qed.

Lemma survivors_fresh (I : Intensities) (r : FlowFieldRenderer) (pool : list Bubble.t)
  (updated : list (Bubble.t * bool)) :
  Forall fresh pool ->
  Forall2 (fun b p => exists kb kb', updateBubble I r b kb = Returned p kb')
    pool updated ->
  survivors updated = List.filter (fun b => negb (finished b)) (map fst updated)
  /\ Forall fresh (survivors updated).
Proof.
  intros Hf H. revert Hf. unfold survivors.
  induction H as [|b [b' s] pool updated (kb & kb' & E) _ IH]; intros Hf.
  - split; [reflexivity|constructor].
  - apply Forall_cons in Hf as [Hb Hf]. destruct (IH Hf) as [IH1 IH2].
    destruct (updateBubble_fresh I r b kb b' s kb' Hb E) as [Hb' ->].
    cbn [List.filter map fst snd]. destruct (finished b'); cbn [negb map fst].
    + split; assumption.
    + split; [f_equal; exact IH1|constructor; assumption].
Qed.

(** C10: one pass of the loop, from the last index down to 0 with the
    in-place [splice], visits every bubble of the pool exactly once (the
    visits are the pairs of an index and the bubble the pool held there at
    the start, from the last to the first), and leaves the pool that
    updating every bubble on its own and then deleting the finished ones
    gives. *)
Theorem bubble_pass_refines (I : Intensities) (r : FlowFieldRenderer)
  (pool : list Bubble.t) (k : nat) :
  Forall fresh pool ->
  bubbleLoop (length pool) I r pool [] k =
  (let* kept := updateThenDelete I r pool in
   ret (kept, rev (imap pair pool))) k.
Proof.
  intros Hf. rewrite bubbleLoop_whole.
  unfold updateThenDelete, bind, ret.
  destruct (updateEach_yields I r pool k) as (updated & k' & E & Hu).
  rewrite E.
  destruct (survivors_fresh I r pool updated Hf Hu) as [-> _]. reflexivity.
Qed.

(** *** Spawning and the whole renderer *)

Lemma updateBubble_set_bubbles (I : Intensities) (r : FlowFieldRenderer)
  (bs : list Bubble.t) (b : Bubble.t) :
  updateBubble I (set_bubbles bs r) b = updateBubble I r b.
Proof. destruct r. reflexivity. Qed.

Lemma set_bubbles_twice (bs bs' : list Bubble.t) (r : FlowFieldRenderer) :
  set_bubbles bs (set_bubbles bs' r) = set_bubbles bs r.
Proof. destruct r. reflexivity. Qed.

Lemma set_bubbles_same (r : FlowFieldRenderer) : set_bubbles (bubbles r) r = r.
Proof. destruct r. reflexivity. Qed.

Lemma bubbles_set_bubbles (bs : list Bubble.t) (r : FlowFieldRenderer) :
  bubbles (set_bubbles bs r) = bs.
Proof. destruct r. reflexivity. Qed.

Lemma createBubble_yields (r : FlowFieldRenderer) : yields (createBubble r) fresh.
Proof.
  intros k. unfold createBubble, bind, Math_random, ret. cbv beta iota zeta.
  eexists _, _. split; [reflexivity|]. intros _. reflexivity.
Qed.

Lemma spawnBubble_yields (I : Intensities) (r : FlowFieldRenderer) :
  yields (spawnBubble I r)
    (fun r1 => r1 = r \/ exists b, fresh b /\ r1 = set_bubbles (bubbles r ++ [b]) r).
Proof.
  unfold spawnBubble. destruct (bassIntensity I >? 0.5)%num.
  - eapply yields_bind; [apply yields_random|]. intros u _.
    destruct (u >? 0.8)%num.
    + eapply yields_bind; [apply createBubble_yields|]. intros b Hb.
      apply yields_ret. right. exists b. split; [exact Hb|reflexivity].
    + apply yields_ret. left. reflexivity.
  - apply yields_ret. left. reflexivity.
Qed.

(** One call of [renderBubbles]: possibly one fresh bubble is pushed, then
    every bubble of the pool is updated once and exactly those whose update
    ran the splice are gone; nothing but the pool changes. *)
Lemma renderBubbles_yields (I : Intensities) (r : FlowFieldRenderer) :
  yields (renderBubbles I r)
    (fun r' => exists pool updated,
       (pool = bubbles r \/ exists b, fresh b /\ pool = bubbles r ++ [b])
       /\ Forall2 (fun b p => exists kb kb', updateBubble I r b kb = Returned p kb')
            pool updated
       /\ r' = set_bubbles (survivors updated) r).
Proof.
  unfold renderBubbles. eapply yields_bind; [apply spawnBubble_yields|].
  intros r1 Hr1 k.
  assert (Hr : exists pool, r1 = set_bubbles pool r
             /\ (pool = bubbles r \/ exists b, fresh b /\ pool = bubbles r ++ [b])).
  { destruct Hr1 as [->|(b & Hb & ->)].
    - exists (bubbles r). split; [symmetry; apply set_bubbles_same|left; reflexivity].
    - eexists. split; [reflexivity|]. right. exists b. split; [exact Hb|reflexivity]. }
  destruct Hr as (pool & -> & Hpool). rewrite bubbles_set_bubbles.
  unfold bind. rewrite bubbleLoop_whole. unfold bind.
  destruct (updateEach_yields I (set_bubbles pool r) pool k) as (updated & k' & E & Hu).
  rewrite E. eexists _, _. split; [reflexivity|].
  exists pool, updated. split; [exact Hpool|]. split.
  - eapply Forall2_impl; [exact Hu|]. intros b p (kb & kb' & Eb).
    exists kb, kb'. rewrite <- Eb, updateBubble_set_bubbles. reflexivity.
  - apply set_bubbles_twice.
Qed.

(** Freshness is an invariant of the pool. *)
Lemma renderBubbles_fresh (I : Intensities) (r : FlowFieldRenderer) :
  Forall fresh (bubbles r) ->
  yields (renderBubbles I r) (fun r' => Forall fresh (bubbles r')).
Proof.
  intros Hf. eapply yields_weaken; [apply renderBubbles_yields|].
  intros r' (pool & updated & Hpool & Hu & ->). rewrite bubbles_set_bubbles.
  eapply survivors_fresh; [|exact Hu].
  destruct Hpool as [->|(b & Hb & ->)]; [exact Hf|].
  apply Forall_app. split; [exact Hf|]. constructor; [exact Hb|constructor].
Qed.

(** C6: a rising bubble that is older than [maxAge] is popping after the
    next [renderBubbles] (so is one that has left the surface upward or
    sideways and, with a treble intensity above 0.7, one whose random draw
    is above 0.95); a popping bubble adds [0.1 + trebleIntensity * 0.1] to
    its progress on every call and is removed by the first call on which
    the progress has reached 1. Every bubble of the pool gets exactly this
    update on a call. *)
Theorem bubble_lifecycle (I : Intensities) (r : FlowFieldRenderer) :
  (forall b k,
     Bubble.popping b = false -> (Bubble.age b >? Bubble.maxAge b)%num = true ->
     exists b' k', updateBubble I r b k = Returned (b', false) k'
                   /\ Bubble.popping b' = true)
  /\ (forall b k,
        Bubble.popping b = false ->
        let b1 := risen Math_sin r b (Fin (random k)) in
        exists b' k',
          updateBubble I r b k = Returned (b', false) k'
          /\ Bubble.popping b' =
             ((Bubble.age b1 >? Bubble.maxAge b1)%num || leavesBounds r b1
              || ((trebleIntensity I >? 0.7)%num && (Fin (random (S k)) >? 0.95)%num)))
  /\ (forall b k,
        Bubble.popping b = true ->
        exists b',
          updateBubble I r b k
          = Returned (b', (Bubble.popProgress b' >=? 1)%num) k
          /\ Bubble.popping b' = true
          /\ Bubble.popProgress b'
             = (Bubble.popProgress b + (0.1 + trebleIntensity I * 0.1))%num)
  /\ (forall k, exists r' k' pool updated,
        renderBubbles I r k = Returned r' k'
        /\ (pool = bubbles r \/ exists b, fresh b /\ pool = bubbles r ++ [b])
        /\ Forall2 (fun b p => exists kb kb', updateBubble I r b kb = Returned p kb')
             pool updated
        /\ bubbles r' = survivors updated).
Proof.
  split; [|split; [|split]].
  - intros b k. apply updateBubble_too_old.
  - intros b k Hp b1. destruct (updateBubble_rising I r b k Hp) as (b' & k' & E & H & _).
    exists b', k'. split; assumption.
  - intros b k Hp. eexists. split; [exact (updateBubble_popping I r b k Hp)|].
    split; reflexivity.
  - intros k. destruct (renderBubbles_yields I r k) as (r' & k' & E & pool & updated & H1 & H2 & ->).
    exists (set_bubbles (survivors updated) r), k', pool, updated.
    rewrite bubbles_set_bubbles. auto.
Qed.

End Bubbles.

Lemma bubble_pass_refines_witness :
  let rising := Bubble.mk 10 20 0 (-1)%Q 5 0 0 300 false 0 in
  let popping := Bubble.mk 10 20 0 (-1)%Q 5 0 7 300 true 0.95 in
  let pool := [popping; rising; popping] in
  let I := mkIntensities 0 0 0 0 in
  let r := fieldInitializers 100 100 in
  Forall fresh pool
  /\ bubbleLoop (fun _ => 0.5) (fun _ => 0) 3 I r pool [] 0%nat =
     (let* kept := updateThenDelete (fun _ => 0.5) (fun _ => 0) I r pool in
      ret (kept, [(2%nat, popping); (1%nat, rising); (0%nat, popping)])) 0%nat.
Proof.
  intros rising popping pool I r.
  assert (Hf : Forall fresh pool).
  { repeat constructor; intros H; (reflexivity || discriminate H). }
  split; [exact Hf|].
  exact (bubble_pass_refines (fun _ => 0.5) (fun _ => 0) I r pool 0%nat Hf).
Defined.

Lemma bubble_lifecycle_witness :
  let old := Bubble.mk 10 20 0 (-1)%Q 5 0 301 300 false 0 in
  let almost := Bubble.mk 10 20 0 (-1)%Q 5 0 7 300 true 0.95 in
  let I := mkIntensities 0 0 0 0 in
  let r := fieldInitializers 100 100 in
  (exists b' k', updateBubble (fun _ => 0.5) (fun _ => 0) I r old 0%nat
                 = Returned (b', false) k'
                 /\ Bubble.popping b' = true)
  /\ (exists b', updateBubble (fun _ => 0.5) (fun _ => 0) I r almost 0%nat
                 = Returned (b', (Bubble.popProgress b' >=? 1)%num) 0%nat
                 /\ Bubble.popping b' = true
                 /\ Bubble.popProgress b'
                    = (Bubble.popProgress almost + (0.1 + trebleIntensity I * 0.1))%num).
Proof.
  intros old almost I r.
  destruct (bubble_lifecycle (fun _ => 0.5) (fun _ => 0) I r) as (H1 & _ & H3 & _).
  split.
  - apply H1; reflexivity.
  - apply H3. reflexivity.
Defined.

(** ** The renderers and the frame *)

Section Frame.

Variable random : nat -> Q.
Variables Math_sin Math_cos : num -> num.
Variable Math_pow : num -> num -> num.
Variable Math_PI : num.
Variable flock : Intensities -> FlowFieldRenderer -> list Particle.t.

Local Abbreviation animateFractal := (animateFractal Math_sin Math_cos).
Local Abbreviation renderFractal := (renderFractal Math_sin Math_cos Math_pow).
Local Abbreviation renderPattern :=
  (renderPattern random Math_sin Math_cos Math_pow flock).
Local Abbreviation render := (render random Math_sin Math_cos Math_pow flock).
Local Abbreviation renderAll := (renderAll random Math_sin Math_cos Math_pow flock).

(** *** The fractal *)

Lemma fractalBlock_yields (fuel : nat) (I : Intensities) (r : FlowFieldRenderer)
  (maxIter zoom : num) (py px : Z) (cap : nat) :
  countBelow maxIter = Some cap -> (cap <= fuel)%nat ->
  yields (fractalBlock fuel I r maxIter zoom py px)
    (fun b => block_px b = px /\ block_py b = py
              /\ juliaLoop cap (juliaC_re r) (juliaC_im r) maxIter
                   (planeX r zoom px) (planeY r zoom py) 0 = Some (block_iter b)
              /\ (0 <= block_iter b <= Z.of_nat cap)%Z).
Proof.
  intros Hcap Hfuel.
  destruct (juliaLoop_terminates (juliaC_re r) (juliaC_im r) maxIter cap Hcap
              cap (planeX r zoom px) (planeY r zoom py) 0%Z) as (n & E & Hn);
    [lia|lia|].
  unfold fractalBlock.
  rewrite (juliaLoop_fuel _ _ _ _ _ _ _ _ E fuel Hfuel).
  apply yields_ret. cbn. repeat split; [exact E|lia|lia].
Qed.

Lemma renderFractal_yields (fuel : nat) (I : Intensities) (r : FlowFieldRenderer)
  (cap : nat) :
  countBelow (maxIterOf I) = Some cap -> (cap <= fuel)%nat ->
  yields (renderFractal fuel I r)
    (fun out =>
       fst out = animateFractal I r
       /\ escapeImage (fst out) (maxIterOf I)
            (Math_pow 1.5 (fractalZoom (fst out))) cap (snd out)).
Proof.
  intros Hcap Hfuel. unfold renderFractal.
  eapply yields_bind.
  - apply yields_forEach. intros py _.
    apply yields_forEach. intros px _.
    apply (fractalBlock_yields fuel I _ _ _ py px cap Hcap Hfuel).
  - intros image Himage. apply yields_ret. split; [reflexivity|exact Himage].
Qed.

Lemma animateFractal_frame (I : Intensities) (r : FlowFieldRenderer) :
  globals (animateFractal I r) = globals r
  /\ scheduler (animateFractal I r) = scheduler r
  /\ particles (animateFractal I r) = particles r.
Proof. destruct r. repeat split. Qed.

(** *** Dispatch *)

(** No renderer assigns a global or a scheduler field, and every renderer
    returns when the fuel covers the iteration cap. *)
Lemma renderPattern_yields (fuel : nat) (pattern : Pattern.t) (I : Intensities)
  (r : FlowFieldRenderer) (cap : nat) :
  countBelow (maxIterOf I) = Some cap -> (cap <= fuel)%nat ->
  yields (renderPattern fuel pattern I r)
    (fun r' => globals r' = globals r /\ scheduler r' = scheduler r).
Proof.
  intros Hcap Hfuel. destruct pattern; cbn [renderPattern];
    try (apply yields_ret; split; reflexivity).
  - eapply yields_bind; [apply (renderFractal_yields fuel I r cap Hcap Hfuel)|].
    intros [r' image] [Hr' _]. cbn [fst] in Hr'. apply yields_ret. subst r'.
    destruct (animateFractal_frame I r) as (H1 & H2 & _). split; assumption.
  - eapply yields_weaken; [apply renderBubbles_yields|].
    intros r' (pool & updated & _ & _ & ->). destruct r. split; reflexivity.
  - apply yields_ret. destruct r. split; reflexivity.
  - apply yields_ret. destruct r. split; reflexivity.
Qed.

(** *** One frame *)

Lemma scheduler_set_globals (t : Z) (h : num) (r : FlowFieldRenderer) :
  scheduler (set_hueBase h (set_time t r)) = scheduler r.
Proof. destruct r. reflexivity. Qed.

(** [render] returns; it advances [time] by one and [hueBase] by
    [0.3 + bassIntensity * 1.5] modulo 360, and moves the scheduler by one
    [updatePatternTransition] on the audio intensity. *)
Lemma render_yields (fuel : nat) (dataArray : Uint8Array) (bufferLength : Z)
  (r : FlowFieldRenderer) :
  (100 <= fuel)%nat ->
  yields (render fuel dataArray bufferLength r)
    (fun r' =>
       let I := audioMetrics dataArray bufferLength in
       time r' = (time r + 1)%Z
       /\ hueBase r' = ((hueBase r + 0.3 + bassIntensity I * 1.5) %% 360)%num
       /\ scheduler r' = scheduler (updatePatternTransition (audioIntensity I) r)
       /\ width r' = width r /\ height r' = height r).
Proof.
  intros Hfuel. unfold render.
  set (I := audioMetrics dataArray bufferLength).
  destruct (maxIter_cap (audioIntensity I) (audioIntensity_capped _ _))
    as (cap & Hcap & Hle).
  change (countBelow (maxIterOf I) = Some cap) in Hcap.
  assert (Hf : (cap <= fuel)%nat) by lia.
  set (r0 := set_hueBase _ (set_time _ r)).
  set (r1 := updatePatternTransition (audioIntensity I) r0).
  assert (Hg : globals r1 = globals r0)
    by apply (updatePatternTransition_frame (audioIntensity I) r0).
  assert (Hs : scheduler r1 = scheduler (updatePatternTransition (audioIntensity I) r)).
  { apply updatePatternTransition_scheduler. apply scheduler_set_globals. }
  assert (Hfin : forall r', globals r' = globals r1 -> scheduler r' = scheduler r1 ->
            time r' = (time r + 1)%Z
            /\ hueBase r' = ((hueBase r + 0.3 + bassIntensity I * 1.5) %% 360)%num
            /\ scheduler r' = scheduler (updatePatternTransition (audioIntensity I) r)
            /\ width r' = width r /\ height r' = height r).
  { intros r' Hg' Hs'. rewrite Hs', Hs. rewrite Hg in Hg'. clear - Hg'.
    subst r0. destruct r, r'. cbn in *. injection Hg' as -> -> -> -> -> -> -> -> -> ->.
    repeat split; reflexivity. }
  destruct (isTransitioning r1).
  - eapply yields_bind; [apply (renderPattern_yields fuel _ I r1 cap Hcap Hf)|].
    intros r2 [Hg2 Hs2].
    eapply yields_weaken; [apply (renderPattern_yields fuel _ I r2 cap Hcap Hf)|].
    intros r3 [Hg3 Hs3]. apply Hfin; congruence.
  - eapply yields_weaken; [apply (renderPattern_yields fuel _ I r1 cap Hcap Hf)|].
    intros r2 [Hg2 Hs2]. apply Hfin; assumption.
Qed.

End Frame.

(** ** The entity pools *)

Lemma min_1200_count (z : Z) :
  countBelow (JS.min 1200 (of_Z z)) = Some (Z.to_nat (Z.min 1200 z)).
Proof.
  unfold JS.min, of_Z, JS.lt. destruct (Qltb (inject_Z z) 1200) eqn:E; cbn [countBelow].
  - apply Qltb_lt in E. change 1200 with (inject_Z 1200) in E.
    rewrite <- Zlt_Qlt in E. rewrite Qceiling_Z, Z.min_r by lia. reflexivity.
  - apply Qltb_ge in E. change 1200 with (inject_Z 1200) in E.
    rewrite <- Zle_Qle in E. change 1200 with (inject_Z 1200).
    rewrite Qceiling_Z, Z.min_l by lia. reflexivity.
Qed.

Lemma floor_area (w h : Z) :
  JS.floor (of_Z w * of_Z h / 800) = of_Z (w * h / 800).
Proof.
  unfold of_Z. cbn [JS.mul JS.div]. rewrite (Qeq_bool_false 800 0) by lra.
  cbn [JS.floor]. unfold of_Z. do 2 f_equal.
  rewrite Zdiv_Qdiv. apply Qfloor_comp. rewrite inject_Z_mult. reflexivity.
Qed.

Section Pools.

Variable random : nat -> Q.
Variables Math_sin Math_cos : num -> num.
Variable Math_PI : num.

Local Abbreviation createParticle := (createParticle random Math_sin Math_cos Math_PI).
Local Abbreviation initializeParticles :=
  (initializeParticles random Math_sin Math_cos Math_PI).
Local Abbreviation initializeBubbles := (initializeBubbles random).
Local Abbreviation initializeVoronoiSeeds := (initializeVoronoiSeeds random).
Local Abbreviation resize := (resize random Math_sin Math_cos Math_PI).
Local Abbreviation constructor := (constructor random Math_sin Math_cos Math_PI).

Lemma createParticle_yields (r : FlowFieldRenderer) :
  yields (createParticle r) (fun _ => True).
Proof.
  intros k. unfold createParticle, bind, Math_random, ret. cbv beta iota zeta.
  eexists _, _. split; [reflexivity|exact Logic.I].
Qed.

Lemma initializeParticles_yields (r : FlowFieldRenderer) :
  yields (initializeParticles r)
    (fun r' => exists ps,
       r' = set_particles ps r
       /\ length ps = Z.to_nat (Z.min 1200 (width r * height r / 800))).
Proof.
  unfold initializeParticles, forCount. rewrite floor_area, min_1200_count.
  apply yields_bind_ret.
  eapply yields_bind; [apply yields_pushN, createParticle_yields|].
  intros ps [Hlen _]. apply yields_ret. exists ps.
  destruct r. cbn. split; [reflexivity|exact Hlen].
Qed.

Lemma createBubble_newborn (r : FlowFieldRenderer) :
  yields (createBubble random r) newborn.
Proof.
  intros k. unfold createBubble, bind, Math_random, ret. cbv beta iota zeta.
  eexists _, _. split; [reflexivity|]. repeat split.
Qed.

Lemma count_offset (base : Z) (q scale : Q) :
  countBelow (inject_Z base + JS.floor (Fin q * scale))%num
  = Some (Z.to_nat (base + Qfloor (q * scale))).
Proof.
  cbn [JS.mul JS.floor JS.add countBelow of_Z]. do 2 f_equal.
  rewrite <- inject_Z_plus. apply Qceiling_Z.
Qed.

Lemma initializeBubbles_returns (r : FlowFieldRenderer) (k : nat) :
  exists bs k',
    initializeBubbles r k = Returned (set_bubbles bs r) k'
    /\ length bs = Z.to_nat (30 + Qfloor (random k * 20))
    /\ Forall newborn bs.
Proof.
  unfold initializeBubbles, forCount, bind at 1, Math_random at 1.
  change (Fin 30) with (Fin (inject_Z 30)). rewrite count_offset.
  destruct (yields_pushN (Z.to_nat (30 + Qfloor (random k * 20)))
              (createBubble random (set_bubbles [] r)) newborn
              (createBubble_newborn _) (S k)) as (bs & k' & E & Hlen & Hnew).
  unfold bind, ret. rewrite E. exists bs, k'.
  rewrite set_bubbles_twice. auto.
Qed.

Lemma createSeed_yields (r : FlowFieldRenderer) :
  yields (createSeed random r) (fun _ => True).
Proof.
  intros k. unfold createSeed, bind, Math_random, ret. cbv beta iota zeta.
  eexists _, _. split; [reflexivity|exact Logic.I].
Qed.

Lemma initializeVoronoiSeeds_returns (r : FlowFieldRenderer) (k : nat) :
  exists vs k',
    initializeVoronoiSeeds r k = Returned (set_voronoiSeeds vs r) k'
    /\ length vs = Z.to_nat (15 + Qfloor (random k * 10)).
Proof.
  unfold initializeVoronoiSeeds, forCount, bind at 1, Math_random at 1.
  change (Fin 15) with (Fin (inject_Z 15)). rewrite count_offset.
  destruct (yields_pushN (Z.to_nat (15 + Qfloor (random k * 10)))
              (createSeed random (set_voronoiSeeds [] r)) (fun _ => True)
              (createSeed_yields _) (S k)) as (vs & k' & E & Hlen & _).
  unfold bind, ret. rewrite E. exists vs, k'.
  destruct r. cbn. split; [reflexivity|exact Hlen].
Qed.

(** The three pools are created one after the other; nothing else is
    assigned. *)
Lemma initializePools_returns (r : FlowFieldRenderer) (k : nat) :
  exists ps bs vs k' i j,
    (let* r := initializeParticles r in
     let* r := initializeBubbles r in
     initializeVoronoiSeeds r) k
    = Returned (set_voronoiSeeds vs (set_bubbles bs (set_particles ps r))) k'
    /\ length ps = Z.to_nat (Z.min 1200 (width r * height r / 800))
    /\ length bs = Z.to_nat (30 + Qfloor (random i * 20))
    /\ Forall newborn bs
    /\ length vs = Z.to_nat (15 + Qfloor (random j * 10)).
Proof.
  destruct (initializeParticles_yields r k) as (r1 & k1 & E1 & ps & -> & Hp).
  destruct (initializeBubbles_returns (set_particles ps r) k1)
    as (bs & k2 & E2 & Hb & Hn).
  destruct (initializeVoronoiSeeds_returns (set_bubbles bs (set_particles ps r)) k2)
    as (vs & k3 & E3 & Hv).
  exists ps, bs, vs, k3, k1, k2. unfold bind. rewrite E1, E2, E3. auto.
Qed.

(** *** resize and the constructor *)

Lemma resize_returns (w h : Z) (r : FlowFieldRenderer) (k : nat) :
  exists ps bs vs k' i j,
    resize w h r k
    = Returned
        (set_voronoiSeeds vs
           (set_bubbles bs
              (set_particles ps
                 (set_canvas w h
                    (set_center (of_Z w / 2)%num (of_Z h / 2)%num
                       (set_size w h r)))))) k'
    /\ length ps = Z.to_nat (Z.min 1200 (w * h / 800))
    /\ length bs = Z.to_nat (30 + Qfloor (random i * 20))
    /\ Forall newborn bs
    /\ length vs = Z.to_nat (15 + Qfloor (random j * 10)).
Proof.
  unfold resize.
  destruct (initializePools_returns
              (set_canvas w h (set_center (of_Z w / 2)%num (of_Z h / 2)%num
                                 (set_size w h r))) k)
    as (ps & bs & vs & k' & i & j & E & Hp & Hrest).
  exists ps, bs, vs, k', i, j. split; [exact E|].
  split; [|exact Hrest]. rewrite Hp. destruct r. reflexivity.
Qed.

Lemma constructor_returns (w h : Z) (k : nat) :
  exists r' k',
    constructor w h true k = Returned r' k'
    /\ scheduler r' = scheduler (fieldInitializers w h)
    /\ hueBase r' = 0 /\ time r' = 0%Z
    /\ width r' = w /\ height r' = h
    /\ Forall newborn (bubbles r').
Proof.
  unfold constructor. cbn [negb].
  match goal with
  | |- context [initializeParticles ?r0] =>
      destruct (initializePools_returns r0 k)
        as (ps & bs & vs & k' & i & j & E & _ & _ & Hn & _)
  end.
  eexists _, k'. split; [exact E|]. repeat split. exact Hn.
Qed.

(** C9: [resize] returns; it assigns the surface size and center (and the
    canvas size), creates the three pools anew without reading the old ones,
    and leaves the scheduler fields, [time], [hueBase] and the fractal
    parameters as they were. *)
Theorem resize_keeps_scheduler_and_globals (w h : Z) (r : FlowFieldRenderer) (k : nat) :
  exists r' k' i j,
    resize w h r k = Returned r' k'
    /\ (currentPattern r' = currentPattern r /\ nextPattern r' = nextPattern r
        /\ patternIndex r' = patternIndex r /\ patternTimer r' = patternTimer r
        /\ transitionProgress r' = transitionProgress r
        /\ isTransitioning r' = isTransitioning r
        /\ patternDuration r' = patternDuration r
        /\ transitionSpeed r' = transitionSpeed r)
    /\ (time r' = time r /\ hueBase r' = hueBase r
        /\ fractalZoom r' = fractalZoom r
        /\ fractalOffsetX r' = fractalOffsetX r
        /\ fractalOffsetY r' = fractalOffsetY r
        /\ juliaC_re r' = juliaC_re r /\ juliaC_im r' = juliaC_im r)
    /\ (width r' = w /\ height r' = h
        /\ centerX r' = (of_Z w / 2)%num /\ centerY r' = (of_Z h / 2)%num
        /\ canvas_width r' = w /\ canvas_height r' = h)
    /\ (length (particles r') = Z.to_nat (Z.min 1200 (w * h / 800))
        /\ length (bubbles r') = Z.to_nat (30 + Qfloor (random i * 20))
        /\ Forall newborn (bubbles r')
        /\ length (voronoiSeeds r') = Z.to_nat (15 + Qfloor (random j * 10)))
    /\ (forall ps bs vs,
          resize w h (set_particles ps (set_bubbles bs (set_voronoiSeeds vs r))) k
          = resize w h r k).
Proof.
  destruct (resize_returns w h r k) as (ps & bs & vs & k' & i & j & E & Hp & Hb & Hn & Hv).
  eexists _, k', i, j. split; [exact E|].
  split; [|split; [|split; [|split]]].
  - destruct r. repeat split.
  - destruct r. repeat split.
  - destruct r. repeat split.
  - destruct r. cbn. repeat split; assumption.
  - intros ps' bs' vs'. destruct r.
    unfold resize, initializeParticles, initializeBubbles, initializeVoronoiSeeds,
      createParticle, createBubble, createSeed.
    cbn [set_particles set_bubbles set_voronoiSeeds set_size set_center set_canvas
         width height centerX centerY].
    unfold forCount, noResult, Math_random, bind, ret.
    repeat (match goal with
            | |- context [match countBelow ?c with _ => _ end] =>
                destruct (countBelow c); [|reflexivity]
            | |- context [match pushN ?n ?m ?k with _ => _ end] =>
                destruct (pushN n m k); [|reflexivity|reflexivity]
            end;
            cbv beta iota;
            cbn [set_particles set_bubbles set_voronoiSeeds width height]).
    reflexivity.
Qed.

End Pools.

(** ** Runs of the scheduler *)

Lemma runScheduler_app (l1 l2 : list num) (r : FlowFieldRenderer) :
  runScheduler (l1 ++ l2) r = runScheduler l2 (runScheduler l1 r).
Proof. revert r. induction l1 as [|a l1 IH]; intros r; cbn; [reflexivity|apply IH]. Qed.

Lemma runScheduler_scheduler (l : list num) (r1 r2 : FlowFieldRenderer) :
  scheduler r1 = scheduler r2 ->
  scheduler (runScheduler l r1) = scheduler (runScheduler l r2).
Proof.
  revert r1 r2. induction l as [|a l IH]; intros r1 r2 H; cbn; [exact H|].
  apply IH, updatePatternTransition_scheduler, H.
Qed.

Lemma dynamicDuration_default_loud : dynamicDuration 600 1 = Fin 400.
Proof. reflexivity. Qed.

(** With the default duration and a saturated intensity nothing but the
    timer moves while the incremented timer is at most 400. *)
Lemma steady_step (r : FlowFieldRenderer) :
  isTransitioning r = false -> patternDuration r = 600 ->
  (patternTimer r + 1 <= 400)%Z ->
  updatePatternTransition 1 r = set_patternTimer (patternTimer r + 1) r.
Proof.
  destruct r. fields. intros -> -> Ht. unfold updatePatternTransition. fields.
  rewrite dynamicDuration_default_loud. unfold JS.gt, JS.lt, of_Z.
  assert (E : Qltb 400 (inject_Z (patternTimer0 + 1)) = false).
  { apply Qltb_ge. change 400 with (inject_Z 400). rewrite <- Zle_Qle. exact Ht. }
  rewrite E. reflexivity.
Qed.

Lemma steady_frames (k : nat) :
  forall r,
    isTransitioning r = false -> patternDuration r = 600 ->
    (patternTimer r + Z.of_nat k <= 400)%Z ->
    runScheduler (repeat (Fin 1) k) r
    = set_patternTimer (patternTimer r + Z.of_nat k) r.
Proof.
  induction k as [|k IH]; intros r Hs Hd Ht.
  - cbn. rewrite Z.add_0_r. destruct r. reflexivity.
  - cbn [repeat runScheduler]. rewrite steady_step by (assumption || lia).
    rewrite IH.
    + destruct r. cbn. f_equal. lia.
    + destruct r. exact Hs.
    + destruct r. exact Hd.
    + destruct r. cbn in *. lia.
Qed.

(** The call that takes the timer to 401 begins the transition. *)
Lemma steady_end (r : FlowFieldRenderer) :
  isTransitioning r = false -> patternDuration r = 600 -> patternTimer r = 400%Z ->
  let r' := updatePatternTransition 1 r in
  isTransitioning r' = true /\ transitionProgress r' = 0
  /\ patternTimer r' = 401%Z /\ currentPattern r' = currentPattern r.
Proof.
  destruct r. cbn. intros -> -> ->. repeat split.
Qed.

(** *** The cycle of patterns *)

Lemma nth_Z_patternSequence (n : nat) :
  (n < 10)%nat ->
  nth_Z patternSequence (Z.of_nat n) = Some (nth n patternSequence Pattern.rays).
Proof.
  intros H. unfold nth_Z.
  destruct (Z.of_nat n <? 0)%Z eqn:E; [lia|]. rewrite Nat2Z.id.
  do 10 (destruct n as [|n]; [reflexivity|]). lia.
Qed.

Lemma next_index (c : nat) :
  Z.rem (Z.of_nat (c mod 10) + 1) 10 = Z.of_nat (S c mod 10).
Proof.
  pose proof (Nat.mod_upper_bound c 10 ltac:(lia)) as Hc.
  rewrite Z.rem_mod_nonneg by lia.
  pose proof (Nat.mod_upper_bound (S c) 10 ltac:(lia)) as Hs.
  pose proof (Nat.div_mod_eq c 10) as E1.
  pose proof (Nat.div_mod_eq (S c) 10) as E2.
  symmetry.
  apply Z.mod_unique_pos with (q := (Z.of_nat (S c / 10) - Z.of_nat (c / 10))%Z); lia.
Qed.

(** What one call does to the pattern fields, by the state it is made in
    and by whether it leaves that state. *)
Lemma updatePatternTransition_patterns (a : num) (r : FlowFieldRenderer) :
  let r' := updatePatternTransition a r in
  match isTransitioning r, isTransitioning r' with
  | true, false =>
      currentPattern r' = nextPattern r /\ patternIndex r' = patternIndex r
  | true, true =>
      currentPattern r' = currentPattern r /\ nextPattern r' = nextPattern r
      /\ patternIndex r' = patternIndex r
  | false, true =>
      currentPattern r' = currentPattern r
      /\ patternIndex r' = Z.rem (patternIndex r + 1) 10
      /\ nextPattern r' = match nth_Z patternSequence (patternIndex r') with
                          | Some p => p
                          | None => Pattern.rays
                          end
  | false, false =>
      currentPattern r' = currentPattern r /\ patternIndex r' = patternIndex r
  end.
Proof.
  destruct r. unfold updatePatternTransition. fields.
  destruct isTransitioning0; fields; abstract_comparisons;
    match goal with c : bool |- _ => destruct c end;
    fields; repeat split.
Qed.

Lemma cycle_step (a : num) (c : nat) (r : FlowFieldRenderer) :
  cycle_inv c r ->
  let r' := updatePatternTransition a r in
  cycle_inv (c + (if isTransitioning r && negb (isTransitioning r') then 1 else 0)) r'.
Proof.
  intros [Hcur Hidx] r'. subst r'.
  pose proof (updatePatternTransition_patterns a r) as H. cbv zeta in H.
  destruct (isTransitioning r) eqn:Ht,
           (isTransitioning (updatePatternTransition a r)) eqn:Ht';
    cbn [andb negb].
  - destruct H as (H1 & H2 & H3). destruct Hidx as [Hidx Hnext].
    rewrite Nat.add_0_r. split; [congruence|]. rewrite Ht'. split; congruence.
  - destruct H as (H1 & H3). destruct Hidx as [Hidx Hnext].
    rewrite Nat.add_1_r. split; [congruence|]. rewrite Ht'. congruence.
  - destruct H as (H1 & H3 & H4). rewrite Nat.add_0_r.
    split; [congruence|]. rewrite Ht'.
    assert (Hi : patternIndex (updatePatternTransition a r) = Z.of_nat (S c mod 10)).
    { rewrite H3, Hidx. apply next_index. }
    split; [exact Hi|]. rewrite H4, Hi, nth_Z_patternSequence.
    + reflexivity.
    + apply Nat.mod_upper_bound. lia.
  - destruct H as (H1 & H3). rewrite Nat.add_0_r.
    split; [congruence|]. rewrite Ht'. congruence.
Qed.

Lemma cycle_run (intensities : list num) :
  forall c r,
    cycle_inv c r ->
    cycle_inv (c + completedTransitions intensities r) (runScheduler intensities r).
Proof.
  induction intensities as [|a l IH]; intros c r H; cbn [completedTransitions runScheduler].
  - rewrite Nat.add_0_r. exact H.
  - rewrite Nat.add_assoc. apply IH. apply (cycle_step a c r H).
Qed.

Lemma patternAfter_period (n : nat) : patternAfter (n + 10) = patternAfter n.
Proof.
  unfold patternAfter. f_equal.
  rewrite <- (Nat.Div0.add_mod_idemp_r n 10 10). change (10 mod 10)%nat with 0%nat.
  rewrite Nat.add_0_r. reflexivity.
Qed.

(** ** Saturated input *)

Lemma reduce_sum_255 (d : Uint8Array) :
  all255 d -> reduce_sum d = (255 * Z.of_nat (length d))%Z.
Proof.
  intros H. unfold reduce_sum.
  assert (G : forall acc, fold_left Z.add d acc = (acc + 255 * Z.of_nat (length d))%Z).
  { induction H as [|v d -> _ IH]; intros acc; cbn [fold_left length].
    - lia.
    - rewrite IH. lia. }
  rewrite G. lia.
Qed.

Lemma at_or_0_255 (d : Uint8Array) (i : Z) :
  all255 d -> (0 <= i < Z.of_nat (length d))%Z -> at_or_0 d i = 255%Z.
Proof.
  intros H Hi. unfold at_or_0, nth_Z.
  destruct (i <? 0)%Z eqn:E; [lia|].
  destruct (d !! Z.to_nat i) as [v|] eqn:El.
  - unfold all255 in H. rewrite Forall_forall in H. apply H.
    eapply list_elem_of_lookup_2; eauto.
  - apply lookup_ge_None in El. lia.
Qed.

Lemma sumLoop_255 (d : Uint8Array) (n : nat) :
  all255 d ->
  forall i acc,
    (0 <= i)%Z -> (i + Z.of_nat n <= Z.of_nat (length d))%Z ->
    sumLoop d i n acc = (acc + 255 * Z.of_nat n)%Z.
Proof.
  intros H. induction n as [|n IH]; intros i acc Hi Hn; cbn [sumLoop].
  - lia.
  - rewrite IH by lia. rewrite at_or_0_255 by (assumption || lia). lia.
Qed.

Lemma mean_255_saturates (n : Z) :
  (0 < n)%Z -> JS.min 1 (of_Z (255 * n) / of_Z n / 128) = 1.
Proof.
  intros Hn. unfold of_Z. cbn [JS.div].
  assert (Hq : 0 < inject_Z n) by (rewrite Zlt_Qlt in Hn; exact Hn).
  rewrite (Qeq_bool_false (inject_Z n) 0) by lra.
  cbn [JS.div]. rewrite (Qeq_bool_false 128 0) by lra.
  apply min_one_saturates.
  apply Qle_shift_div_l; [lra|]. apply Qle_shift_div_l; [lra|].
  rewrite inject_Z_mult. change (inject_Z 255) with 255. lra.
Qed.

Lemma band_255 (d : Uint8Array) (N : Z) (s e : Q) :
  all255 d ->
  (0 <= ratioIndex N s < ratioIndex N e)%Z ->
  (ratioIndex N e <= Z.of_nat (length d))%Z ->
  getFrequencyBandIntensity d N s e = 1.
Proof.
  intros H Hse He. unfold getFrequencyBandIntensity.
  rewrite sumLoop_255 by (assumption || lia).
  rewrite Z2Nat.id by lia. rewrite Z.add_0_l.
  apply mean_255_saturates. lia.
Qed.

(** All four scalars of a saturated valid frame are 1. *)
Lemma audioMetrics_255 (d : Uint8Array) (N : Z) :
  validFrame N d -> all255 d -> audioMetrics d N = mkIntensities 1 1 1 1.
Proof.
  intros (_ & Hlen & HN) H. unfold audioMetrics.
  rewrite reduce_sum_255 by assumption. rewrite Hlen.
  rewrite mean_255_saturates by lia.
  rewrite !band_255; try assumption; try reflexivity;
    rewrite ?ratioIndex_div, ?Hlen;
    change 0.15 with (15 # 100); change 0.5 with (5 # 10); change 1.0 with (10 # 10);
    rewrite ?ratioIndex_div; Z.to_euclidean_division_equations; lia.
Qed.

(** ** The hue base *)

Lemma rem_360_range (x : Q) : 0 <= x -> hue_ok (Fin x %% 360).
Proof.
  intros Hx. unfold JS.rem. rewrite (Qeq_bool_false 360 0) by lra.
  eexists. split; [reflexivity|].
  assert (Hy : 0 <= x / 360) by (apply Qle_shift_div_l; lra).
  unfold Qtrunc. destruct (Qle_bool 0 (x / 360)) eqn:E.
  - pose proof (Qfloor_le (x / 360)) as H1.
    pose proof (Qlt_floor (x / 360)) as H2.
    rewrite inject_Z_plus in H2. change (inject_Z 1) with 1 in H2.
    set (f := inject_Z (Qfloor (x / 360))) in *.
    assert (Hx' : x == x / 360 * 360) by (field).
    set (y := x / 360) in *. lra.
  - apply Qle_bool_iff in Hy. congruence.
Qed.

Lemma hue_step (h b : num) :
  hue_ok h -> in_unit b -> hue_ok ((h + 0.3 + b * 1.5) %% 360).
Proof.
  intros (x & -> & Hx) (y & -> & Hy). cbn [JS.add JS.mul].
  apply rem_360_range. lra.
Qed.

Lemma validFrame_bass (d : Uint8Array) (N : Z) :
  validFrame N d -> in_unit (bassIntensity (audioMetrics d N)).
Proof.
  intros (Hd & _ & HN). cbn [audioMetrics bassIntensity]. apply band_in_unit; [exact Hd|].
  change 0.15 with (15 # 100). change (0 : Q) with (0 # 1). rewrite !ratioIndex_div.
  Z.to_euclidean_division_equations; lia.
Qed.

(** ** Sessions: a renderer, then a sequence of frames *)

Lemma yields_and {A : Type} (m : M A) (P Q : A -> Prop) :
  yields m P -> yields m Q -> yields m (fun a => P a /\ Q a).
Proof.
  intros HP HQ k. destruct (HP k) as (a & k' & E & Ha).
  destruct (HQ k) as (a' & k'' & E' & Ha').
  rewrite E in E'. injection E' as <- <-. exists a, k'. auto.
Qed.

Section Sessions.

Variable random : nat -> Q.
Variables Math_sin Math_cos : num -> num.
Variable Math_pow : num -> num -> num.
Variable Math_PI : num.
Variable flock : Intensities -> FlowFieldRenderer -> list Particle.t.

Local Abbreviation render := (render random Math_sin Math_cos Math_pow flock).
Local Abbreviation renderAll := (renderAll random Math_sin Math_cos Math_pow flock).
Local Abbreviation renderFractal := (renderFractal Math_sin Math_cos Math_pow).
Local Abbreviation resize := (resize random Math_sin Math_cos Math_PI).
Local Abbreviation constructor := (constructor random Math_sin Math_cos Math_PI).

(** The scheduler state after a session is the one the scheduler alone
    reaches on the audio intensities of the frames. *)
Lemma renderAll_yields (fuel : nat) (frames : list Uint8Array) (N : Z) :
  (100 <= fuel)%nat ->
  forall r,
    yields (renderAll fuel frames N r)
      (fun r' =>
         scheduler r' = scheduler (runScheduler (intensitiesOf frames N) r)
         /\ time r' = (time r + Z.of_nat (length frames))%Z
         /\ width r' = width r /\ height r' = height r).
Proof.
  intros Hfuel. induction frames as [|d frames IH]; intros r; cbn [renderAll].
  - apply yields_ret. cbn. repeat split. lia.
  - eapply yields_bind; [apply (render_yields random Math_sin Math_cos Math_pow flock fuel d N r Hfuel)|].
    intros r1 (Ht & _ & Hs & Hw & Hh).
    eapply yields_weaken; [apply IH|].
    intros r' (Hs' & Ht' & Hw' & Hh'). cbn [intensitiesOf map runScheduler length].
    split; [|split; [lia|split; congruence]].
    rewrite Hs'. apply runScheduler_scheduler. exact Hs.
Qed.

Lemma renderAll_hue (fuel : nat) (frames : list Uint8Array) (N : Z) :
  (100 <= fuel)%nat -> Forall (validFrame N) frames ->
  forall r, hue_ok (hueBase r) ->
    yields (renderAll fuel frames N r) (fun r' => hue_ok (hueBase r')).
Proof.
  intros Hfuel Hv. induction Hv as [|d frames Hd _ IH]; intros r Hr; cbn [renderAll].
  - apply yields_ret. exact Hr.
  - eapply yields_bind; [apply (render_yields random Math_sin Math_cos Math_pow flock fuel d N r Hfuel)|].
    intros r1 (_ & Hh & _). apply IH. rewrite Hh.
    apply hue_step; [exact Hr|apply validFrame_bass, Hd].
Qed.

(** *** Freshness of the bubble pool along a session *)

Lemma newborn_fresh (b : Bubble.t) : newborn b -> fresh b.
Proof. intros (_ & _ & H) _. exact H. Qed.

Lemma renderPattern_fresh (fuel : nat) (pattern : Pattern.t) (I : Intensities)
  (r : FlowFieldRenderer) (cap : nat) :
  countBelow (maxIterOf I) = Some cap -> (cap <= fuel)%nat ->
  Forall fresh (bubbles r) ->
  yields (renderPattern random Math_sin Math_cos Math_pow flock fuel pattern I r)
    (fun r' => Forall fresh (bubbles r')).
Proof.
  intros Hcap Hfuel Hf. destruct pattern; cbn [renderPattern];
    try (apply yields_ret; exact Hf).
  - eapply yields_bind;
      [apply (renderFractal_yields Math_sin Math_cos Math_pow fuel I r cap Hcap Hfuel)|].
    intros [r' image] [Hr' _]. cbn [fst] in Hr'. apply yields_ret. subst r'.
    destruct r. exact Hf.
  - apply renderBubbles_fresh. exact Hf.
  - apply yields_ret. destruct r. exact Hf.
  - apply yields_ret. destruct r. exact Hf.
Qed.

Lemma render_fresh (fuel : nat) (d : Uint8Array) (N : Z) (r : FlowFieldRenderer) :
  (100 <= fuel)%nat -> Forall fresh (bubbles r) ->
  yields (render fuel d N r) (fun r' => Forall fresh (bubbles r')).
Proof.
  intros Hfuel Hf. unfold render.
  set (I := audioMetrics d N).
  destruct (maxIter_cap (audioIntensity I) (audioIntensity_capped _ _))
    as (cap & Hcap & Hle).
  change (countBelow (maxIterOf I) = Some cap) in Hcap.
  assert (Hc : (cap <= fuel)%nat) by lia.
  set (r1 := updatePatternTransition (audioIntensity I) _).
  assert (Hf1 : Forall fresh (bubbles r1)).
  { subst r1.
    match goal with
    | |- context [updatePatternTransition ?a ?x] =>
        destruct (updatePatternTransition_frame a x) as (_ & _ & -> & _)
    end.
    destruct r. exact Hf. }
  destruct (isTransitioning r1).
  - eapply yields_bind; [apply (renderPattern_fresh fuel _ I r1 cap Hcap Hc Hf1)|].
    intros r2 Hf2. apply (renderPattern_fresh fuel _ I r2 cap Hcap Hc Hf2).
  - apply (renderPattern_fresh fuel _ I r1 cap Hcap Hc Hf1).
Qed.

(** Every pool a session reaches is fresh: the hypothesis of the statement
    about the update pass holds of the pools of the engine. *)
Lemma session_pool_fresh (fuel : nat) (canvasWidth canvasHeight : Z)
  (frames : list Uint8Array) (N : Z) (k : nat) :
  (100 <= fuel)%nat ->
  exists r0 k0 r' k',
    constructor canvasWidth canvasHeight true k = Returned r0 k0
    /\ renderAll fuel frames N r0 k0 = Returned r' k'
    /\ Forall fresh (bubbles r').
Proof.
  intros Hfuel.
  destruct (constructor_returns random Math_sin Math_cos Math_PI canvasWidth canvasHeight k)
    as (r0 & k0 & E0 & _ & _ & _ & _ & _ & Hn).
  assert (H0 : Forall fresh (bubbles r0))
    by (eapply Forall_impl; [exact Hn|exact newborn_fresh]).
  assert (G : forall r, Forall fresh (bubbles r) ->
            yields (renderAll fuel frames N r) (fun r' => Forall fresh (bubbles r'))).
  { induction frames as [|d frames IH]; intros r Hr; cbn [renderAll].
    - apply yields_ret. exact Hr.
    - eapply yields_bind; [apply (render_fresh fuel d N r Hfuel Hr)|]. exact IH. }
  destruct (G r0 H0 k0) as (r' & k' & E & Hr').
  exists r0, k0, r', k'. auto.
Qed.

(** C4: from the constructor on, after any number of [render] calls on
    valid frames [hueBase] is a finite number in [0, 360); each call
    advances it by [0.3 + bassIntensity * 1.5] modulo 360, from 0. *)
Theorem hueBase_in_range (fuel : nat) (canvasWidth canvasHeight : Z)
  (frames : list Uint8Array) (N : Z) (k : nat) :
  (100 <= fuel)%nat -> Forall (validFrame N) frames ->
  exists r0 k0 r' k',
    constructor canvasWidth canvasHeight true k = Returned r0 k0
    /\ hueBase r0 = 0
    /\ renderAll fuel frames N r0 k0 = Returned r' k'
    /\ hue_ok (hueBase r')
    /\ (forall d r1 k1, exists r2 k2,
          render fuel d N r1 k1 = Returned r2 k2
          /\ hueBase r2
             = ((hueBase r1 + 0.3 + bassIntensity (audioMetrics d N) * 1.5) %% 360)%num).
Proof.
  intros Hfuel Hv.
  destruct (constructor_returns random Math_sin Math_cos Math_PI canvasWidth canvasHeight k)
    as (r0 & k0 & E0 & _ & Hh0 & _).
  assert (H0 : hue_ok (hueBase r0)).
  { rewrite Hh0. exists 0. split; [reflexivity|lra]. }
  destruct (renderAll_hue fuel frames N Hfuel Hv r0 H0 k0) as (r' & k' & E & Hr').
  exists r0, k0, r', k'. repeat split; try assumption.
  intros d r1 k1.
  destruct (render_yields random Math_sin Math_cos Math_pow flock fuel d N r1 Hfuel k1) as (r2 & k2 & E2 & _ & H2 & _).
  exists r2, k2. split; assumption.
Qed.


Lemma intensitiesOf_255 (frames : list Uint8Array) (N : Z) :
  Forall (fun d => validFrame N d /\ all255 d) frames ->
  intensitiesOf frames N = repeat (Fin 1) (length frames).
Proof.
  unfold intensitiesOf.
  induction 1 as [|d frames [Hv Ha] _ IH]; cbn [map length repeat]; [reflexivity|].
  rewrite IH, (audioMetrics_255 d N Hv Ha). reflexivity.
Qed.

(** C3 (as the code has it): a saturated valid frame makes all four
    intensities 1; with the default duration of 600 the dynamic duration is
    then [max(300, 600 - 200) = 400], above the floor of 300, and a steady
    phase that starts with the timer at 0 lasts 400 frames: the transition
    begins on frame 401. *)
Theorem saturated_input_steady_phase (fuel : nat) (frames : list Uint8Array) (N : Z)
  (r : FlowFieldRenderer) (k : nat) :
  (100 <= fuel)%nat ->
  Forall (fun d => validFrame N d /\ all255 d) frames ->
  isTransitioning r = false -> patternTimer r = 0%Z -> patternDuration r = 600 ->
  (forall d, In d frames -> audioMetrics d N = mkIntensities 1 1 1 1)
  /\ dynamicDuration (patternDuration r) 1 = 400
  /\ exists r' k',
       renderAll fuel frames N r k = Returned r' k'
       /\ ((length frames <= 400)%nat ->
           isTransitioning r' = false
           /\ patternTimer r' = Z.of_nat (length frames)
           /\ currentPattern r' = currentPattern r)
       /\ (length frames = 401%nat ->
           isTransitioning r' = true /\ transitionProgress r' = 0
           /\ currentPattern r' = currentPattern r).
Proof.
  intros Hfuel Hframes Hs Ht Hd. split; [|split].
  - intros d Hin. rewrite Forall_forall in Hframes.
    destruct (Hframes d) as [Hv Ha]; [apply list_elem_of_In, Hin|].
    apply audioMetrics_255; assumption.
  - rewrite Hd. reflexivity.
  - destruct (renderAll_yields fuel frames N Hfuel r k) as (r' & k' & E & Hsch & _).
    exists r', k'. split; [exact E|].
    rewrite (intensitiesOf_255 frames N Hframes) in Hsch.
    split.
    + intros Hlen.
      assert (X : (patternTimer r + Z.of_nat (length frames) <= 400)%Z) by lia.
      rewrite (steady_frames (length frames) r Hs Hd X) in Hsch.
      rewrite Ht, Z.add_0_l in Hsch. clear - Hsch Hs. destruct r, r'.
      unfold scheduler in Hsch. fields. injection Hsch as -> _ _ -> _ -> _ _.
      repeat split. exact Hs.
    + intros Hlen. rewrite Hlen in Hsch.
      change 401%nat with (400 + 1)%nat in Hsch.
      rewrite repeat_app, runScheduler_app in Hsch.
      assert (X : (patternTimer r + Z.of_nat 400 <= 400)%Z) by lia.
      rewrite (steady_frames 400 r Hs Hd X) in Hsch.
      rewrite Ht in Hsch. cbn [repeat runScheduler] in Hsch.
      destruct (steady_end (set_patternTimer (0 + Z.of_nat 400) r))
        as (H1 & H2 & _ & H4).
      * destruct r. exact Hs.
      * destruct r. exact Hd.
      * destruct r. reflexivity.
      * set (r2 := updatePatternTransition 1 _) in *.
        assert (Hc : currentPattern r2 = currentPattern r)
          by (rewrite H4; destruct r; reflexivity).
        clearbody r2. clear - Hsch H1 H2 Hc. destruct r2, r'.
        unfold scheduler in Hsch. fields. injection Hsch as -> _ _ _ -> -> _ _.
        repeat split; assumption.
Qed.


(** C8: whatever value the zoom was set to, [renderFractal] returns: for
    an audio intensity as [render] computes it the iteration cap
    [maxIter = 50 + floor(audioIntensity * 50)] allows at most 100
    iterations, and the escape-time loop of every block ends within the
    iterations the cap allows. *)
Theorem fractal_ends_for_every_zoom (fuel : nat) (zoom : num)
  (dataArray : Uint8Array) (bufferLength : Z) (r : FlowFieldRenderer) (k : nat) :
  (100 <= fuel)%nat ->
  let I := audioMetrics dataArray bufferLength in
  exists cap r' image k',
    countBelow (50 + JS.floor (audioIntensity I * 50))%num = Some cap
    /\ (cap <= 100)%nat
    /\ renderFractal fuel I (setFractalZoom zoom r) k = Returned (r', image) k'
    /\ fractalZoom r'
       = (zoom + (0.02 + audioIntensity I * 0.05)
                 * (1 + Math_sin (of_Z (time r) * 0.002) * 0.5))%num
    /\ escapeImage r' (maxIterOf I) (Math_pow 1.5 (fractalZoom r')) cap image.
Proof.
  intros Hfuel I.
  destruct (maxIter_cap (audioIntensity I) (audioIntensity_capped _ _))
    as (cap & Hcap & Hle).
  destruct (renderFractal_yields Math_sin Math_cos Math_pow fuel I
              (setFractalZoom zoom r) cap Hcap ltac:(lia) k)
    as ([r' image] & k' & E & Hr' & Himage).
  cbn [fst snd] in *.
  exists cap, r', image, k'. split; [exact Hcap|]. split; [exact Hle|].
  split; [exact E|]. split; [|exact Himage].
  rewrite Hr'. destruct r. reflexivity.
Qed.

End Sessions.

(** ** The statements at concrete inputs *)

Lemma validFrame_quiet : validFrame 8 Demo.quiet.
Proof.
  split; [|split; [reflexivity|lia]].
  unfold uint8, Demo.quiet. repeat (constructor; [lia|]). constructor.
Qed.

Lemma validFrame_loud : validFrame 8 Demo.loud /\ all255 Demo.loud.
Proof.
  split; [split; [|split; [reflexivity|lia]]|].
  - unfold uint8, Demo.loud. repeat (constructor; [lia|]). constructor.
  - unfold all255, Demo.loud. repeat (constructor; [reflexivity|]). constructor.
Qed.

Lemma hueBase_in_range_witness :
  (100 <= 100)%nat
  /\ Forall (validFrame 8) [Demo.quiet; Demo.loud]
  /\ exists r0 k0 r' k',
       Demo.constructor 16 16 true 0%nat = Returned r0 k0
       /\ hueBase r0 = 0
       /\ Demo.renderAll 100 [Demo.quiet; Demo.loud] 8 r0 k0 = Returned r' k'
       /\ hue_ok (hueBase r').
Proof.
  assert (H1 : (100 <= 100)%nat) by lia.
  assert (H2 : Forall (validFrame 8) [Demo.quiet; Demo.loud]).
  { constructor; [exact validFrame_quiet|].
    constructor; [exact (proj1 validFrame_loud)|constructor]. }
  split; [exact H1|]. split; [exact H2|].
  destruct (hueBase_in_range Demo.random Demo.Math_sin Demo.Math_cos Demo.Math_pow
              Demo.Math_PI Demo.flock 100 16 16 [Demo.quiet; Demo.loud] 8 0%nat H1 H2)
    as (r0 & k0 & r' & k' & E0 & Hh & E & Hr' & _).
  exists r0, k0, r', k'. auto.
Defined.


(** Ten transitions do complete: on saturated input a cycle takes 401
    steady frames and 34 frames of transition, and after 4350 frames the
    scheduler is back at the first pattern. *)
Example ten_transitions_on_saturated_input :
  completedTransitions (repeat (Fin 1) 4350) (fieldInitializers 0 0) = 10%nat
  /\ currentPattern (runScheduler (repeat (Fin 1) 4350) (fieldInitializers 0 0))
     = Pattern.rays
  /\ isTransitioning (runScheduler (repeat (Fin 1) 4350) (fieldInitializers 0 0))
     = false.
Proof. vm_compute. repeat split. Qed.

Lemma saturated_input_steady_phase_witness :
  let r := fieldInitializers 16 16 in
  (100 <= 100)%nat
  /\ Forall (fun d => validFrame 8 d /\ all255 d) (repeat Demo.loud 401)
  /\ isTransitioning r = false /\ patternTimer r = 0%Z /\ patternDuration r = 600
  /\ exists r' k',
       Demo.renderAll 100 (repeat Demo.loud 401) 8 r 0%nat = Returned r' k'
       /\ isTransitioning r' = true /\ transitionProgress r' = 0.
Proof.
  intros r.
  assert (H1 : (100 <= 100)%nat) by lia.
  assert (H2 : Forall (fun d => validFrame 8 d /\ all255 d) (repeat Demo.loud 401)).
  { apply Forall_forall. intros d Hd. apply list_elem_of_In, repeat_spec in Hd.
    subst d. exact validFrame_loud. }
  split; [exact H1|]. split; [exact H2|]. do 3 (split; [reflexivity|]).
  destruct (saturated_input_steady_phase Demo.random Demo.Math_sin Demo.Math_cos
              Demo.Math_pow Demo.flock 100 (repeat Demo.loud 401) 8 r 0%nat
              H1 H2 eq_refl eq_refl eq_refl)
    as (_ & _ & r' & k' & E & _ & H401).
  exists r', k'. split; [exact E|].
  destruct (H401 (repeat_length Demo.loud 401)) as (Ht & Hp & _). auto.
Defined.

(** C3, as stated, fails: on saturated input and with the default duration
    the dynamic duration is 400, not the floor 300, and 301 frames into a
    steady phase no transition has begun. *)
Lemma default_duration_stays_above_floor :
  audioMetrics Demo.loud 8 = mkIntensities 1 1 1 1
  /\ dynamicDuration (patternDuration (fieldInitializers 16 16))
       (audioIntensity (audioMetrics Demo.loud 8)) = 400
  /\ (400 : num) <> 300
  /\ isTransitioning
       (runScheduler (intensitiesOf (repeat Demo.loud 301) 8) (fieldInitializers 16 16))
     = false.
Proof.
  split; [reflexivity|]. split; [reflexivity|]. split; [discriminate|].
  rewrite (intensitiesOf_255 (repeat Demo.loud 301) 8).
  - rewrite repeat_length, steady_frames; [reflexivity..|cbn; lia].
  - apply Forall_forall. intros d Hd. apply list_elem_of_In, repeat_spec in Hd.
    subst d. exact validFrame_loud.
Qed.



Lemma fractal_ends_for_every_zoom_witness :
  (100 <= 100)%nat
  /\ exists cap r' image k',
       countBelow (50 + JS.floor (audioIntensity (audioMetrics Demo.quiet 8) * 50))%num
       = Some cap
       /\ (cap <= 100)%nat
       /\ Demo.renderFractal 100 (audioMetrics Demo.quiet 8)
            (setFractalZoom (-3)%Q (fieldInitializers 16 16)) 0%nat
          = Returned (r', image) k'.
Proof.
  assert (H1 : (100 <= 100)%nat) by lia.
  split; [exact H1|].
  destruct (fractal_ends_for_every_zoom Demo.Math_sin Demo.Math_cos Demo.Math_pow
              100 (-3)%Q Demo.quiet 8 (fieldInitializers 16 16) 0%nat H1)
    as (cap & r' & image & k' & Hcap & Hle & E & _).
  exists cap, r', image, k'. auto.
Defined.

(** ** Runs at concrete inputs *)

(** A canvas without a drawing context: the constructor throws. *)
Example constructor_without_context :
  Demo.constructor 80 60 false 0%nat = Threw "Could not get canvas context".
Proof. reflexivity. Qed.

(** An 80 x 60 canvas: 6 particles, and with every random draw at 0.5, 40
    bubbles and 20 seeds. *)
Example constructor_pools :
  match Demo.constructor 80 60 true 0%nat with
  | Returned r _ =>
      (length (particles r), length (bubbles r), length (voronoiSeeds r))
      = (6%nat, 40%nat, 20%nat)
      /\ (width r, height r) = (80%Z, 60%Z)
  | _ => False
  end.
Proof. vm_compute. split; reflexivity. Qed.

(** One pass over a pool of three: the popping bubble at 0.95 is spliced,
    the one at 0.5 stays, the rising one (outside a surface of width 0)
    turns to popping; the visits run from index 2 down to index 0. *)
Example bubble_pass_on_three_bubbles :
  let rising := Bubble.mk 10 20 0 (-1)%Q 5 0 0 300 false 0 in
  let nearly := Bubble.mk 10 20 0 (-1)%Q 5 0 7 300 true 0.95 in
  let halfway := Bubble.mk 10 20 0 (-1)%Q 5 0 7 300 true 0.5 in
  match bubbleLoop Demo.random Demo.Math_sin 3 (mkIntensities 0 0 0 0)
          (fieldInitializers 16 16) [nearly; rising; halfway] [] 0%nat with
  | Returned (pool, visited) calls =>
      map Bubble.popping pool = [true; true]
      /\ map Bubble.age pool = [Fin (0 + 1); Fin 7]
      /\ visited = [(2%nat, halfway); (1%nat, rising); (0%nat, nearly)]
      /\ calls = 1%nat
  | _ => False
  end.
Proof. vm_compute. repeat split. Qed.

(** A zoom so negative that [Math.pow(1.5, zoom)] underflows to 0: every
    pixel is mapped to an infinity or to [NaN], the guard of the loop is
    false at once, and every block has iteration count 0. *)
Example fractal_with_underflowing_zoom :
  match renderFractal Demo.Math_sin Demo.Math_cos (fun _ _ => 0) 100
          (audioMetrics Demo.quiet 8)
          (setFractalZoom (-2000)%Q (set_size 4 4 (fieldInitializers 4 4))) 0%nat with
  | Returned (_, image) _ => map (map block_iter) image = [[0; 0]; [0; 0]]%Z
  | _ => False
  end.
Proof. vm_compute. reflexivity. Qed.

(** Outside the valid frames: after one [render] of the empty array the hue
    base is [NaN] (the bass intensity is [0 / 0]). *)
Example hueBase_after_empty_array :
  match Demo.render 100 [] 0 (fieldInitializers 16 16) 0%nat with
  | Returned r _ => hueBase r = NaN /\ time r = 1%Z
  | _ => False
  end.
Proof. vm_compute. split; reflexivity. Qed.

(** * Further properties of the renderer *)

(** ** The spectrum bands *)

Lemma fold_add_acc (d : Uint8Array) :
  forall acc, fold_left Z.add d acc = (acc + reduce_sum d)%Z.
Proof.
  unfold reduce_sum. induction d as [|v d IH]; intros acc; cbn [fold_left].
  - lia.
  - rewrite IH, (IH (0 + v)%Z). lia.
Qed.

Lemma reduce_sum_range (d : Uint8Array) (lo hi : Z) :
  Forall (fun v => (lo <= v <= hi)%Z) d ->
  (lo * Z.of_nat (length d) <= reduce_sum d <= hi * Z.of_nat (length d))%Z.
Proof.
  induction 1 as [|v d Hv _ IH].
  - cbn. lia.
  - unfold reduce_sum in *. cbn [fold_left length]. rewrite fold_add_acc.
    unfold reduce_sum. lia.
Qed.

Lemma at_or_0_range (d : Uint8Array) (lo hi i : Z) :
  Forall (fun v => (lo <= v <= hi)%Z) d ->
  (0 <= i < Z.of_nat (length d))%Z -> (lo <= at_or_0 d i <= hi)%Z.
Proof.
  intros Hd Hi. unfold at_or_0, nth_Z.
  destruct (i <? 0)%Z eqn:E; [lia|].
  destruct (d !! Z.to_nat i) as [v|] eqn:El.
  - rewrite Forall_forall in Hd. apply Hd. eapply list_elem_of_lookup_2; eauto.
  - apply lookup_ge_None in El. lia.
Qed.

Lemma sumLoop_range (d : Uint8Array) (lo hi : Z) (n : nat) :
  Forall (fun v => (lo <= v <= hi)%Z) d ->
  forall i acc,
    (0 <= i)%Z -> (i + Z.of_nat n <= Z.of_nat (length d))%Z ->
    (acc + lo * Z.of_nat n <= sumLoop d i n acc <= acc + hi * Z.of_nat n)%Z.
Proof.
  intros Hd. induction n as [|n IH]; intros i acc Hi Hn; cbn [sumLoop].
  - lia.
  - specialize (IH (i + 1)%Z (acc + at_or_0 d i)%Z ltac:(lia) ltac:(lia)).
    pose proof (at_or_0_range d lo hi i Hd ltac:(lia)). lia.
Qed.

(** The mean of [n] values between [lo] and [hi], scaled by 128 and capped
    at 1. *)
Lemma mean_between (sum n lo hi : Z) :
  (0 < n)%Z -> (lo * n <= sum <= hi * n)%Z ->
  (JS.min 1 (of_Z lo / 128) <=? JS.min 1 (of_Z sum / of_Z n / 128))%num = true
  /\ (JS.min 1 (of_Z sum / of_Z n / 128) <=? JS.min 1 (of_Z hi / 128))%num = true.
Proof.
  intros Hn [Hlo Hhi]. unfold of_Z. cbn [JS.div].
  assert (Hq : 0 < inject_Z n) by (rewrite Zlt_Qlt in Hn; exact Hn).
  rewrite (Qeq_bool_false (inject_Z n) 0) by lra.
  cbn [JS.div]. rewrite (Qeq_bool_false 128 0) by lra.
  assert (H1 : inject_Z lo / 128 <= inject_Z sum / inject_Z n / 128).
  { apply Qle_shift_div_l; [lra|]. apply Qle_shift_div_l; [lra|].
    rewrite Zle_Qle, inject_Z_mult in Hlo.
    assert (E : inject_Z lo / 128 * 128 * inject_Z n == inject_Z lo * inject_Z n)
      by field.
    rewrite E. exact Hlo. }
  assert (H2 : inject_Z sum / inject_Z n / 128 <= inject_Z hi / 128).
  { apply Qle_shift_div_r; [lra|]. apply Qle_shift_div_r; [lra|].
    rewrite Zle_Qle, inject_Z_mult in Hhi.
    assert (E : inject_Z hi / 128 * 128 * inject_Z n == inject_Z hi * inject_Z n)
      by field.
    rewrite E. exact Hhi. }
  set (a := inject_Z lo / 128) in *. set (b := inject_Z sum / inject_Z n / 128) in *.
  set (c := inject_Z hi / 128) in *.
  unfold JS.min, JS.lt, JS.le.
  destruct (Qltb a 1) eqn:Ea, (Qltb b 1) eqn:Eb, (Qltb c 1) eqn:Ec;
    rewrite ?Qltb_lt, ?Qltb_ge in *;
    split; apply Qle_bool_iff; lra.
Qed.

Lemma band_bounds (N : Z) :
  (7 <= N)%Z ->
  ratioIndex N 0 = 0%Z /\ ratioIndex N 1.0 = N
  /\ (0 < ratioIndex N 0.15 < ratioIndex N 0.5)%Z
  /\ (ratioIndex N 0.5 < N)%Z.
Proof.
  intros HN.
  change 0.15 with (15 # 100). change 0.5 with (5 # 10). change 1.0 with (10 # 10).
  change (0 : Q) with (0 # 1). rewrite !ratioIndex_div.
  repeat split; Z.to_euclidean_division_equations; lia.
Qed.

Lemma band_between (d : Uint8Array) (N : Z) (s e : Q) (lo hi : Z) :
  Forall (fun v => (lo <= v <= hi)%Z) d ->
  (0 <= ratioIndex N s < ratioIndex N e)%Z ->
  (ratioIndex N e <= Z.of_nat (length d))%Z ->
  (JS.min 1 (of_Z lo / 128) <=? getFrequencyBandIntensity d N s e)%num = true
  /\ (getFrequencyBandIntensity d N s e <=? JS.min 1 (of_Z hi / 128))%num = true.
Proof.
  intros Hd Hse He. unfold getFrequencyBandIntensity.
  apply mean_between; [lia|].
  pose proof (sumLoop_range d lo hi (Z.to_nat (ratioIndex N e - ratioIndex N s)) Hd
                (ratioIndex N s) 0%Z ltac:(lia) ltac:(lia)) as H.
  rewrite Z2Nat.id in H by lia. lia.
Qed.

Lemma audioMetrics_between (d : Uint8Array) (N lo hi : Z) :
  validFrame N d ->
  Forall (fun v => (lo <= v <= hi)%Z) d ->
  let I := audioMetrics d N in
  let below := JS.min 1 (of_Z lo / 128) in
  let above := JS.min 1 (of_Z hi / 128) in
  ((below <=? audioIntensity I)%num = true /\ (audioIntensity I <=? above)%num = true)
  /\ ((below <=? bassIntensity I)%num = true /\ (bassIntensity I <=? above)%num = true)
  /\ ((below <=? midIntensity I)%num = true /\ (midIntensity I <=? above)%num = true)
  /\ ((below <=? trebleIntensity I)%num = true /\ (trebleIntensity I <=? above)%num = true).
Proof.
  intros (_ & Hlen & HN) Hd. cbn zeta.
  destruct (band_bounds N HN) as (H0 & H1 & H15 & H5).
  cbn [audioMetrics audioIntensity bassIntensity midIntensity trebleIntensity].
  split; [|split; [|split]].
  1: apply mean_between; [lia|];
     pose proof (reduce_sum_range d lo hi Hd) as H; rewrite Hlen in H; lia.
  all: apply band_between; try exact Hd; rewrite ?H0, ?H1, ?Hlen; lia.
Qed.

Lemma between_in_unit (a : num) :
  (JS.min 1 (of_Z 0 / 128) <=? a)%num = true ->
  (a <=? JS.min 1 (of_Z 255 / 128))%num = true -> in_unit a.
Proof.
  destruct a as [| |q]; vm_compute JS.min;
    try discriminate; try (destruct negative; discriminate).
  cbn [JS.le]. intros H0 H1. apply Qle_bool_iff in H0, H1.
  exists q. split; [reflexivity|lra].
Qed.

Lemma audioMetrics_in_unit (d : Uint8Array) (N : Z) :
  validFrame N d ->
  let I := audioMetrics d N in
  in_unit (audioIntensity I) /\ in_unit (bassIntensity I)
  /\ in_unit (midIntensity I) /\ in_unit (trebleIntensity I).
Proof.
  intros Hv. pose proof Hv as (Hd & _).
  pose proof (audioMetrics_between d N 0 255 Hv Hd) as H. cbn zeta in *.
  destruct H as ((? & ?) & (? & ?) & (? & ?) & (? & ?)).
  repeat split; apply between_in_unit; assumption.
Qed.

(** X1. For a valid frame whose entries all lie between [lo] and [hi], each
    of the four intensities [render] computes lies between
    [Math.min(1, lo / 128)] and [Math.min(1, hi / 128)]: silence gives 0, a
    frame with no entry below 128 saturates all four at 1, and every valid
    frame gives finite values in [0, 1]. *)
Theorem intensities_between_extremes (d : Uint8Array) (N lo hi : Z) :
  validFrame N d ->
  Forall (fun v => (lo <= v <= hi)%Z) d ->
  let I := audioMetrics d N in
  let below := JS.min 1 (of_Z lo / 128) in
  let above := JS.min 1 (of_Z hi / 128) in
  ((below <=? audioIntensity I)%num = true /\ (audioIntensity I <=? above)%num = true)
  /\ ((below <=? bassIntensity I)%num = true /\ (bassIntensity I <=? above)%num = true)
  /\ ((below <=? midIntensity I)%num = true /\ (midIntensity I <=? above)%num = true)
  /\ ((below <=? trebleIntensity I)%num = true /\ (trebleIntensity I <=? above)%num = true).
Proof. exact (audioMetrics_between d N lo hi). Qed.

(** The bands read [dataArray[i] ?? 0] at the indices of their range only. *)
Lemma sumLoop_ext (d d' : Uint8Array) (n : nat) :
  forall i acc,
    (forall j, (i <= j < i + Z.of_nat n)%Z -> at_or_0 d j = at_or_0 d' j) ->
    sumLoop d i n acc = sumLoop d' i n acc.
Proof.
  induction n as [|n IH]; intros i acc H; cbn [sumLoop]; [reflexivity|].
  rewrite (H i) by lia. apply IH. intros j Hj. apply H. lia.
Qed.

Lemma at_or_0_padded (d : Uint8Array) (k : nat) (i : Z) :
  at_or_0 (d ++ repeat 0%Z k) i = at_or_0 d i.
Proof.
  unfold at_or_0, nth_Z. destruct (i <? 0)%Z; [reflexivity|].
  destruct (decide (Z.to_nat i < length d)%nat) as [Hlt|Hge].
  - rewrite lookup_app_l by exact Hlt. reflexivity.
  - rewrite lookup_app_r by lia.
    rewrite (proj2 (lookup_ge_None d (Z.to_nat i))) by lia.
    destruct (repeat 0%Z k !! (Z.to_nat i - length d)%nat) as [v|] eqn:E; [|reflexivity].
    apply list_elem_of_lookup_2, list_elem_of_In, repeat_spec in E. exact E.
Qed.

(** X2. A band intensity depends on the array only through the entries at
    the indices of the band, an index outside the array reading 0: an array
    shorter than [bufferLength] gives the intensities of the same array
    padded with zeros. *)
Theorem band_reads_its_range_only :
  (forall d d' N s e,
     (forall i, (ratioIndex N s <= i < ratioIndex N e)%Z -> at_or_0 d i = at_or_0 d' i) ->
     getFrequencyBandIntensity d N s e = getFrequencyBandIntensity d' N s e)
  /\ (forall d k N s e,
        getFrequencyBandIntensity (d ++ repeat 0%Z k) N s e
        = getFrequencyBandIntensity d N s e).
Proof.
  assert (H : forall d d' N s e,
     (forall i, (ratioIndex N s <= i < ratioIndex N e)%Z -> at_or_0 d i = at_or_0 d' i) ->
     getFrequencyBandIntensity d N s e = getFrequencyBandIntensity d' N s e).
  { intros d d' N s e H. unfold getFrequencyBandIntensity.
    rewrite (sumLoop_ext d d'); [reflexivity|].
    intros j Hj. apply H. lia. }
  split; [exact H|].
  intros d k N s e. apply H. intros i _. apply at_or_0_padded.
Qed.

Lemma band_reads_its_range_only_witness :
  getFrequencyBandIntensity [1; 2; 3; 4; 200; 100; 7; 8]%Z 8 0.5 1.0
  = getFrequencyBandIntensity [0; 0; 0; 0; 200; 100; 7; 8; 9]%Z 8 0.5 1.0.
Proof.
  apply (proj1 band_reads_its_range_only).
  change 0.5 with (5 # 10). change 1.0 with (10 # 10). rewrite !ratioIndex_div.
  intros i Hi. change (8 * 5 / 10)%Z with 4%Z in Hi. change (8 * 10 / 10)%Z with 8%Z in Hi.
  assert (E : i = 4%Z \/ i = 5%Z \/ i = 6%Z \/ i = 7%Z) by lia.
  destruct E as [->|[->|[->| ->]]]; reflexivity.
Defined.

Lemma intensities_between_extremes_witness :
  let I := audioMetrics Demo.quiet 8 in
  validFrame 8 Demo.quiet
  /\ Forall (fun v => (10 <= v <= 80)%Z) Demo.quiet
  /\ (JS.min 1 (of_Z 10 / 128) <=? trebleIntensity I)%num = true
  /\ (trebleIntensity I <=? JS.min 1 (of_Z 80 / 128))%num = true.
Proof.
  assert (Hr : Forall (fun v => (10 <= v <= 80)%Z) Demo.quiet)
    by (repeat constructor; lia).
  split; [exact validFrame_quiet|]. split; [exact Hr|].
  exact (proj2 (proj2 (proj2
           (intensities_between_extremes Demo.quiet 8 10 80 validFrame_quiet Hr)))).
Defined.

(** The three bands of [render] are adjacent and cover the array. *)
Lemma sumLoop_acc (d : Uint8Array) (n : nat) :
  forall i acc, sumLoop d i n acc = (acc + sumLoop d i n 0)%Z.
Proof.
  induction n as [|n IH]; intros i acc; cbn [sumLoop]; [lia|].
  rewrite IH, (IH _ (0 + at_or_0 d i)%Z). lia.
Qed.

Lemma sumLoop_split (d : Uint8Array) (n m : nat) :
  forall i acc,
    sumLoop d i (n + m) acc = sumLoop d (i + Z.of_nat n) m (sumLoop d i n acc).
Proof.
  induction n as [|n IH]; intros i acc.
  - cbn [sumLoop Nat.add]. f_equal. cbn. lia.
  - cbn [sumLoop Nat.add]. rewrite IH. f_equal. lia.
Qed.

Lemma sumLoop_suffix (d : Uint8Array) :
  forall pre acc,
    sumLoop (pre ++ d) (Z.of_nat (length pre)) (length d) acc = fold_left Z.add d acc.
Proof.
  induction d as [|v d IH]; intros pre acc; cbn [sumLoop length fold_left].
  - reflexivity.
  - assert (E : at_or_0 (pre ++ v :: d) (Z.of_nat (length pre)) = v).
    { unfold at_or_0, nth_Z.
      destruct (Z.of_nat (length pre) <? 0)%Z eqn:El; [apply Z.ltb_lt in El; lia|].
      rewrite Nat2Z.id. rewrite lookup_app_r by reflexivity.
      rewrite Nat.sub_diag. reflexivity. }
    rewrite E.
    replace (pre ++ v :: d) with ((pre ++ [v]) ++ d) by (rewrite <- app_assoc; reflexivity).
    replace (Z.of_nat (length pre) + 1)%Z with (Z.of_nat (length (pre ++ [v])))
      by (rewrite length_app; cbn; lia).
    apply IH.
Qed.

Lemma sumLoop_whole (d : Uint8Array) :
  sumLoop d 0 (length d) 0 = reduce_sum d.
Proof. exact (sumLoop_suffix d [] 0%Z). Qed.

(** X3. The three bands of [render] tile the array: bass starts at index 0,
    treble ends at [bufferLength], each band starts where the one before
    ends, and for an array of [bufferLength] entries the three band sums add
    up to the sum [render] averages for the overall intensity. *)
Theorem bands_tile_the_array (d : Uint8Array) (N : Z) :
  Z.of_nat (length d) = N ->
  let bound := ratioIndex N in
  let bandSum s e := sumLoop d (bound s) (Z.to_nat (bound e - bound s)) 0 in
  let bass := bandSum 0 0.15 in
  let mid := bandSum 0.15 0.5 in
  let treble := bandSum 0.5 1.0 in
  bound 0 = 0%Z /\ bound 1.0 = N
  /\ (0 <= bound 0.15%Q)%Z /\ (bound 0.15%Q <= bound 0.5%Q)%Z
  /\ (bound 0.5%Q <= N)%Z
  /\ (bass + mid + treble)%Z = reduce_sum d.
Proof.
  intros Hlen bound bandSum bass mid treble.
  assert (HN : (0 <= N)%Z) by lia.
  assert (H0 : bound 0 = 0%Z)
    by (unfold bound; change (0 : Q) with (0 # 1); rewrite ratioIndex_div;
        Z.to_euclidean_division_equations; lia).
  assert (H1 : bound 1.0 = N).
  { unfold bound. change 1.0 with (10 # 10). rewrite ratioIndex_div.
    Z.to_euclidean_division_equations; lia. }
  assert (Ha : (0 <= bound 0.15%Q <= bound 0.5%Q)%Z).
  { unfold bound. change 0.15 with (15 # 100). change 0.5 with (5 # 10).
    rewrite !ratioIndex_div. Z.to_euclidean_division_equations; lia. }
  assert (Hb : (bound 0.5%Q <= N)%Z).
  { unfold bound. change 0.5 with (5 # 10).
    rewrite !ratioIndex_div. Z.to_euclidean_division_equations; lia. }
  repeat split; try lia.
  rewrite <- sumLoop_whole. unfold bass, mid, treble, bandSum. rewrite H0, H1.
  set (a := bound 0.15) in *. set (b := bound 0.5) in *.
  replace (length d) with (Z.to_nat (a - 0) + (Z.to_nat (b - a) + Z.to_nat (N - b)))%nat
    by lia.
  rewrite !sumLoop_split.
  replace (0 + Z.of_nat (Z.to_nat (a - 0)))%Z with a by lia.
  replace (a + Z.of_nat (Z.to_nat (b - a)))%Z with b by lia.
  rewrite (sumLoop_acc d (Z.to_nat (N - b)) b (sumLoop _ _ _ _)).
  rewrite (sumLoop_acc d (Z.to_nat (b - a)) a (sumLoop _ _ _ _)).
  lia.
Qed.

Lemma bands_tile_the_array_witness :
  Z.of_nat (length Demo.quiet) = 8%Z
  /\ (sumLoop Demo.quiet (ratioIndex 8 0) (Z.to_nat (ratioIndex 8 0.15 - ratioIndex 8 0)) 0
      + sumLoop Demo.quiet (ratioIndex 8 0.15)
          (Z.to_nat (ratioIndex 8 0.5 - ratioIndex 8 0.15)) 0
      + sumLoop Demo.quiet (ratioIndex 8 0.5)
          (Z.to_nat (ratioIndex 8 1.0 - ratioIndex 8 0.5)) 0)%Z
     = reduce_sum Demo.quiet.
Proof.
  split; [reflexivity|].
  exact (proj2 (proj2 (proj2 (proj2 (proj2
           (bands_tile_the_array Demo.quiet 8 eq_refl)))))).
Defined.

(** ** The timing of the scheduler *)

(** One call in the steady state, and one call during a transition. *)
Lemma updatePatternTransition_steady (a : num) (r : FlowFieldRenderer) :
  isTransitioning r = false ->
  let r' := updatePatternTransition a r in
  let begins :=
    (of_Z (patternTimer r + 1) >? dynamicDuration (patternDuration r) a)%num in
  isTransitioning r' = begins
  /\ patternTimer r' = (patternTimer r + 1)%Z
  /\ currentPattern r' = currentPattern r
  /\ transitionProgress r' = (if begins then Fin 0 else transitionProgress r)
  /\ patternDuration r' = patternDuration r
  /\ transitionSpeed r' = transitionSpeed r.
Proof.
  destruct r. fields. intros ->. unfold updatePatternTransition. fields.
  abstract_comparisons. destruct c; fields; repeat split.
Qed.

Lemma updatePatternTransition_blending (a : num) (r : FlowFieldRenderer) :
  isTransitioning r = true ->
  let r' := updatePatternTransition a r in
  let progress := (transitionProgress r + transitionSpeed r * (1 + a * 0.5))%num in
  let commits := (progress >=? 1)%num in
  isTransitioning r' = negb commits
  /\ transitionProgress r' = (if commits then Fin 0 else progress)
  /\ currentPattern r' = (if commits then nextPattern r else currentPattern r)
  /\ nextPattern r' = nextPattern r
  /\ patternTimer r' = (if commits then 0 else patternTimer r + 1)%Z
  /\ patternDuration r' = patternDuration r
  /\ transitionSpeed r' = transitionSpeed r.
Proof.
  destruct r. fields. intros ->. unfold updatePatternTransition. fields.
  abstract_comparisons. destruct c; fields; repeat split.
Qed.

(** With the default duration and an intensity in [0, 1] the dynamic
    duration lies between 400 and 600 frames. *)
Lemma begins_between (a : num) (t : Z) :
  in_unit a ->
  ((t <= 400)%Z -> (of_Z t >? dynamicDuration 600 a)%num = false)
  /\ ((600 < t)%Z -> (of_Z t >? dynamicDuration 600 a)%num = true).
Proof.
  intros (q & -> & Hq). unfold dynamicDuration, of_Z.
  cbn [JS.mul JS.sub JS.add JS.neg JS.max JS.lt JS.gt].
  assert (E : Qltb 300 (600 + - (q * 200)) = true) by (apply Qltb_lt; lra).
  rewrite E. cbn [JS.lt]. split; intros Ht.
  - apply Qltb_ge. rewrite Zle_Qle in Ht. change (inject_Z 400) with 400 in Ht. lra.
  - apply Qltb_lt. rewrite Zlt_Qlt in Ht. change (inject_Z 600) with 600 in Ht. lra.
Qed.

(** From the steady state, with the default duration and intensities in
    [0, 1]: the transition begins at the [n]-th call for some [n] with
    [401 <= patternTimer + n <= 601]. *)
Lemma steady_phase (intensities : list num) :
  Forall in_unit intensities ->
  forall r,
    isTransitioning r = false -> patternDuration r = 600 ->
    (0 <= patternTimer r <= 600)%Z ->
    (601 - patternTimer r <= Z.of_nat (length intensities))%Z ->
    exists n,
      (401 <= patternTimer r + Z.of_nat n <= 601)%Z
      /\ (forall m, (m < n)%nat ->
            let r' := runScheduler (take m intensities) r in
            isTransitioning r' = false /\ currentPattern r' = currentPattern r
            /\ patternTimer r' = (patternTimer r + Z.of_nat m)%Z)
      /\ (let r' := runScheduler (take n intensities) r in
          isTransitioning r' = true /\ transitionProgress r' = 0
          /\ currentPattern r' = currentPattern r
          /\ patternTimer r' = (patternTimer r + Z.of_nat n)%Z
          /\ transitionSpeed r' = transitionSpeed r).
Proof.
  induction 1 as [|a rest Ha _ IH]; intros r Hs Hd Ht Hlen.
  - cbn in Hlen. lia.
  - pose proof (updatePatternTransition_steady a r Hs) as H. cbv zeta in H.
    rewrite Hd in H.
    destruct (begins_between a (patternTimer r + 1) Ha) as [Hlo Hhi].
    destruct (of_Z (patternTimer r + 1) >? dynamicDuration 600 a)%num eqn:E.
    + destruct H as (H1 & H2 & H3 & H4 & H5 & H6).
      exists 1%nat. split; [|split].
      * destruct (Z_le_gt_dec (patternTimer r + 1) 400) as [Hle|Hgt];
          [specialize (Hlo Hle); congruence|lia].
      * intros m Hm. assert (m = 0%nat) as -> by lia. cbn.
        repeat split; [exact Hs|lia].
      * cbn [take runScheduler]. repeat split; try assumption; lia.
    + destruct H as (H1 & H2 & H3 & H4 & H5 & H6).
      assert (Hle : (patternTimer r + 1 <= 600)%Z).
      { destruct (Z_le_gt_dec (patternTimer r + 1) 600) as [Hle|Hgt];
          [exact Hle|specialize (Hhi ltac:(lia)); congruence]. }
      destruct (IH (updatePatternTransition a r)) as (n & Hn & Hbefore & Hat).
      * exact H1.
      * exact H5.
      * rewrite H2. lia.
      * rewrite H2. cbn [length] in Hlen. lia.
      * exists (S n). split; [rewrite H2 in Hn; lia|]. split.
        -- intros [|m] Hm.
           ++ cbn. repeat split; [exact Hs|lia].
           ++ cbn [take runScheduler].
              destruct (Hbefore m ltac:(lia)) as (B1 & B2 & B3).
              repeat split; [exact B1|congruence|rewrite B3, H2; lia].
        -- cbn [take runScheduler]. destruct Hat as (A1 & A2 & A3 & A4 & A5).
           repeat split; [exact A1|exact A2|congruence|rewrite A4, H2; lia|congruence].
Qed.

Lemma inject_Z_S (n : nat) :
  inject_Z (Z.of_nat (S n)) == inject_Z (Z.of_nat n) + 1.
Proof. rewrite Nat2Z.inj_succ. unfold Z.succ. rewrite inject_Z_plus. reflexivity. Qed.

(** During a transition, with the default speed and intensities in [0, 1]:
    the progress grows by between 0.02 and 0.03 per call, and the call that
    takes it to 1 commits the next pattern. *)
Lemma blend_phase (K : nat) :
  forall intensities r p,
    Forall in_unit intensities ->
    isTransitioning r = true -> transitionProgress r = Fin p ->
    transitionSpeed r = 0.02 ->
    0 <= p < 1 -> 1 - p <= 0.02 * inject_Z (Z.of_nat K) ->
    (K <= length intensities)%nat ->
    exists n,
      (1 <= n <= K)%nat /\ 1 - p <= 0.03 * inject_Z (Z.of_nat n)
      /\ (forall m, (m < n)%nat ->
            let r' := runScheduler (take m intensities) r in
            isTransitioning r' = true /\ currentPattern r' = currentPattern r
            /\ nextPattern r' = nextPattern r
            /\ exists p', transitionProgress r' = Fin p' /\ p <= p' < 1)
      /\ (let r' := runScheduler (take n intensities) r in
          isTransitioning r' = false /\ transitionProgress r' = 0
          /\ currentPattern r' = nextPattern r /\ patternTimer r' = 0%Z).
Proof.
  induction K as [|K IH]; intros intensities r p Hin Ht Hp Hs Hp01 HK Hlen.
  - change (inject_Z (Z.of_nat 0)) with 0 in HK. lra.
  - destruct Hin as [|a rest Ha Hrest]; [cbn in Hlen; lia|].
    destruct Ha as (q & -> & Hq).
    pose proof (updatePatternTransition_blending (Fin q) r Ht) as H. cbv zeta in H.
    rewrite Hp, Hs in H. cbn [JS.add JS.mul JS.ge JS.le] in H.
    set (p1 := p + 0.02 * (1 + q * 0.5)) in *.
    assert (Hp1 : p + 0.02 <= p1 <= p + 0.03) by (unfold p1; lra).
    rewrite inject_Z_S in HK.
    destruct H as (H1 & H2 & H3 & H4 & H5 & H6 & H7).
    destruct (Qle_bool 1 p1) eqn:E; cbn [negb] in *.
    + apply Qle_bool_iff in E. exists 1%nat. split; [lia|]. split.
      { change (inject_Z (Z.of_nat 1)) with 1. lra. }
      split.
      * intros m Hm. assert (m = 0%nat) as -> by lia. cbn.
        repeat split; try assumption. exists p. split; [exact Hp|lra].
      * cbn [take runScheduler]. repeat split; assumption.
    + assert (E' : p1 < 1) by (apply Qltb_lt; unfold Qltb; rewrite E; reflexivity).
      destruct (IH rest (updatePatternTransition (Fin q) r) p1)
        as (n & Hn & Hn3 & Hbefore & Hat); try assumption.
      * lra.
      * lra.
      * cbn [length] in Hlen. lia.
      * exists (S n). split; [lia|]. split; [rewrite inject_Z_S; lra|]. split.
        -- intros [|m] Hm.
           ++ cbn. repeat split; try assumption. exists p. split; [exact Hp|lra].
           ++ cbn [take runScheduler].
              destruct (Hbefore m ltac:(lia)) as (B1 & B2 & B3 & p' & B4 & B5).
              repeat split; [exact B1|congruence|congruence|].
              exists p'. split; [exact B4|lra].
        -- cbn [take runScheduler]. destruct Hat as (A1 & A2 & A3 & A4).
           repeat split; [exact A1|exact A2|congruence|exact A4].
Qed.

Lemma scheduler_fields (r1 r2 : FlowFieldRenderer) :
  scheduler r1 = scheduler r2 ->
  currentPattern r1 = currentPattern r2 /\ nextPattern r1 = nextPattern r2
  /\ patternIndex r1 = patternIndex r2 /\ patternTimer r1 = patternTimer r2
  /\ transitionProgress r1 = transitionProgress r2
  /\ isTransitioning r1 = isTransitioning r2
  /\ patternDuration r1 = patternDuration r2
  /\ transitionSpeed r1 = transitionSpeed r2.
Proof.
  unfold scheduler. intros H. injection H as -> -> -> -> -> -> -> ->. repeat split.
Qed.

Lemma intensitiesOf_take (m : nat) (frames : list Uint8Array) (N : Z) :
  intensitiesOf (take m frames) N = take m (intensitiesOf frames N).
Proof. unfold intensitiesOf. symmetry. apply firstn_map. Qed.

Lemma intensitiesOf_in_unit (frames : list Uint8Array) (N : Z) :
  Forall (validFrame N) frames -> Forall in_unit (intensitiesOf frames N).
Proof.
  induction 1 as [|d frames Hd _ IH]; cbn [intensitiesOf map]; constructor.
  - exact (proj1 (audioMetrics_in_unit d N Hd)).
  - exact IH.
Qed.

Lemma intensitiesOf_length (frames : list Uint8Array) (N : Z) :
  length (intensitiesOf frames N) = length frames.
Proof. unfold intensitiesOf. apply length_map. Qed.

Section Timing.

Variable random : nat -> Q.
Variables Math_sin Math_cos : num -> num.
Variable Math_pow : num -> num -> num.
Variable flock : Intensities -> FlowFieldRenderer -> list Particle.t.

Local Abbreviation renderAll := (renderAll random Math_sin Math_cos Math_pow flock).

(** The scheduler fields after the first [m] frames of a session. *)
Lemma renderAll_take (fuel : nat) (frames : list Uint8Array) (N : Z)
  (r : FlowFieldRenderer) (k m : nat) :
  (100 <= fuel)%nat ->
  exists r' k',
    renderAll fuel (take m frames) N r k = Returned r' k'
    /\ scheduler r' = scheduler (runScheduler (take m (intensitiesOf frames N)) r).
Proof.
  intros Hfuel.
  destruct (renderAll_yields random Math_sin Math_cos Math_pow flock fuel
              (take m frames) N Hfuel r k) as (r' & k' & E & Hs & _).
  exists r', k'. split; [exact E|]. rewrite Hs, intensitiesOf_take. reflexivity.
Qed.

(** X4. With the default duration of 600 frames and valid input, a pattern
    is shown on its own for between 400 and 600 frames: counted from the
    frame that set the timer to 0, the transition to the next pattern begins
    at frame [n] for some [n] between 401 and 601, whatever the audio. *)
Theorem steady_phase_of_valid_input (fuel : nat) (frames : list Uint8Array) (N : Z)
  (r : FlowFieldRenderer) (k : nat) :
  (100 <= fuel)%nat -> Forall (validFrame N) frames ->
  isTransitioning r = false -> patternTimer r = 0%Z -> patternDuration r = 600 ->
  (601 <= length frames)%nat ->
  exists n,
    (401 <= n <= 601)%nat
    /\ (forall m, (m < n)%nat ->
          exists r' k',
            renderAll fuel (take m frames) N r k = Returned r' k'
            /\ isTransitioning r' = false /\ currentPattern r' = currentPattern r)
    /\ exists r' k',
         renderAll fuel (take n frames) N r k = Returned r' k'
         /\ isTransitioning r' = true /\ transitionProgress r' = 0
         /\ currentPattern r' = currentPattern r.
Proof.
  intros Hfuel Hv Hs Ht Hd Hlen.
  destruct (steady_phase (intensitiesOf frames N) (intensitiesOf_in_unit frames N Hv)
              r Hs Hd ltac:(lia)) as (n & Hn & Hbefore & Hat).
  { rewrite intensitiesOf_length. lia. }
  exists n. split; [lia|]. split.
  - intros m Hm. destruct (renderAll_take fuel frames N r k m Hfuel) as (r' & k' & E & Hsch).
    exists r', k'. split; [exact E|].
    apply scheduler_fields in Hsch. destruct Hsch as (C1 & _ & _ & _ & _ & C6 & _).
    destruct (Hbefore m Hm) as (B1 & B2 & _). split; congruence.
  - destruct (renderAll_take fuel frames N r k n Hfuel) as (r' & k' & E & Hsch).
    exists r', k'. split; [exact E|].
    apply scheduler_fields in Hsch. destruct Hsch as (C1 & _ & _ & _ & C5 & C6 & _).
    destruct Hat as (A1 & A2 & A3 & _). repeat split; congruence.
Qed.

(** X5. With the default speed and valid input a transition lasts between
    34 and 50 frames: until the frame that commits it the renderer keeps
    blending the same two patterns with a progress in [0, 1), and the
    committing frame makes the next pattern the current one and resets the
    timer and the progress. *)
Theorem transition_of_valid_input (fuel : nat) (frames : list Uint8Array) (N : Z)
  (r : FlowFieldRenderer) (k : nat) :
  (100 <= fuel)%nat -> Forall (validFrame N) frames ->
  isTransitioning r = true -> transitionProgress r = 0 -> transitionSpeed r = 0.02 ->
  (50 <= length frames)%nat ->
  exists n,
    (34 <= n <= 50)%nat
    /\ (forall m, (m < n)%nat ->
          exists r' k',
            renderAll fuel (take m frames) N r k = Returned r' k'
            /\ isTransitioning r' = true
            /\ currentPattern r' = currentPattern r /\ nextPattern r' = nextPattern r
            /\ exists p, transitionProgress r' = Fin p /\ 0 <= p < 1)
    /\ exists r' k',
         renderAll fuel (take n frames) N r k = Returned r' k'
         /\ isTransitioning r' = false /\ currentPattern r' = nextPattern r
         /\ patternTimer r' = 0%Z /\ transitionProgress r' = 0.
Proof.
  intros Hfuel Hv Ht Hp Hs Hlen.
  destruct (blend_phase 50 (intensitiesOf frames N) r 0
              (intensitiesOf_in_unit frames N Hv) Ht Hp Hs)
    as (n & Hn & Hn3 & Hbefore & Hat).
  { lra. }
  { change (inject_Z (Z.of_nat 50)) with 50. lra. }
  { rewrite intensitiesOf_length. exact Hlen. }
  exists n. split; [|split].
  - split; [|lia]. destruct (le_lt_dec 34 n) as [Hle|Hlt]; [exact Hle|].
    assert (H : (Z.of_nat n <= 33)%Z) by lia.
    rewrite Zle_Qle in H. change (inject_Z 33) with 33 in H. lra.
  - intros m Hm. destruct (renderAll_take fuel frames N r k m Hfuel) as (r' & k' & E & Hsch).
    exists r', k'. split; [exact E|].
    apply scheduler_fields in Hsch. destruct Hsch as (C1 & C2 & _ & _ & C5 & C6 & _).
    destruct (Hbefore m Hm) as (B1 & B2 & B3 & p & B4 & B5).
    repeat split; try congruence. exists p. split; [congruence|exact B5].
  - destruct (renderAll_take fuel frames N r k n Hfuel) as (r' & k' & E & Hsch).
    exists r', k'. split; [exact E|].
    apply scheduler_fields in Hsch. destruct Hsch as (C1 & _ & _ & C4 & C5 & C6 & _).
    destruct Hat as (A1 & A2 & A3 & A4). repeat split; congruence.
Qed.

End Timing.

Lemma steady_phase_of_valid_input_witness :
  let r := fieldInitializers 16 16 in
  let frames := repeat Demo.quiet 601 in
  (100 <= 100)%nat /\ Forall (validFrame 8) frames
  /\ isTransitioning r = false /\ patternTimer r = 0%Z /\ patternDuration r = 600
  /\ (601 <= length frames)%nat
  /\ exists n,
       (401 <= n <= 601)%nat
       /\ exists r' k',
            Demo.renderAll 100 (take n frames) 8 r 0%nat = Returned r' k'
            /\ isTransitioning r' = true /\ transitionProgress r' = 0.
Proof.
  intros r frames.
  assert (H1 : (100 <= 100)%nat) by lia.
  assert (H2 : Forall (validFrame 8) frames).
  { apply Forall_forall. intros d Hd. apply list_elem_of_In, repeat_spec in Hd.
    subst d. exact validFrame_quiet. }
  assert (H3 : (601 <= length frames)%nat) by (unfold frames; rewrite repeat_length; lia).
  split; [exact H1|]. split; [exact H2|]. do 3 (split; [reflexivity|]).
  split; [exact H3|].
  destruct (steady_phase_of_valid_input Demo.random Demo.Math_sin Demo.Math_cos
              Demo.Math_pow Demo.flock 100 frames 8 r 0%nat
              H1 H2 eq_refl eq_refl eq_refl H3)
    as (n & Hn & _ & r' & k' & E & Ht & Hp & _).
  exists n. split; [exact Hn|]. exists r', k'. auto.
Defined.

Lemma transition_of_valid_input_witness :
  let r := set_isTransitioning true (fieldInitializers 16 16) in
  let frames := repeat Demo.quiet 50 in
  (100 <= 100)%nat /\ Forall (validFrame 8) frames
  /\ isTransitioning r = true /\ transitionProgress r = 0 /\ transitionSpeed r = 0.02
  /\ (50 <= length frames)%nat
  /\ exists n,
       (34 <= n <= 50)%nat
       /\ exists r' k',
            Demo.renderAll 100 (take n frames) 8 r 0%nat = Returned r' k'
            /\ isTransitioning r' = false /\ currentPattern r' = nextPattern r.
Proof.
  intros r frames.
  assert (H1 : (100 <= 100)%nat) by lia.
  assert (H2 : Forall (validFrame 8) frames).
  { apply Forall_forall. intros d Hd. apply list_elem_of_In, repeat_spec in Hd.
    subst d. exact validFrame_quiet. }
  assert (H3 : (50 <= length frames)%nat) by (unfold frames; rewrite repeat_length; lia).
  split; [exact H1|]. split; [exact H2|]. do 3 (split; [reflexivity|]).
  split; [exact H3|].
  destruct (transition_of_valid_input Demo.random Demo.Math_sin Demo.Math_cos
              Demo.Math_pow Demo.flock 100 frames 8 r 0%nat
              H1 H2 eq_refl eq_refl eq_refl H3)
    as (n & Hn & _ & r' & k' & E & Ht & Hc & _).
  exists n. split; [exact Hn|]. exists r', k'. auto.
Defined.

(** ** What the scheduler keeps, whatever the input *)

Lemma updatePatternTransition_bounds (a : num) (r : FlowFieldRenderer) :
  (0 <= patternTimer r)%Z ->
  (isTransitioning r = false -> transitionProgress r = 0) ->
  let r' := updatePatternTransition a r in
  (0 <= patternTimer r' <= patternTimer r + 1)%Z
  /\ (isTransitioning r' = false -> transitionProgress r' = 0)
  /\ patternDuration r' = patternDuration r
  /\ transitionSpeed r' = transitionSpeed r.
Proof.
  intros Ht Hp. cbv zeta. destruct (isTransitioning r) eqn:E.
  - pose proof (updatePatternTransition_blending a r E) as H. cbv zeta in H.
    destruct H as (H1 & H2 & _ & _ & H5 & H6 & H7).
    destruct (_ >=? 1)%num; cbn [negb] in *.
    + split; [lia|]. split; [intros _; exact H2|]. split; assumption.
    + split; [lia|]. split; [congruence|]. split; assumption.
  - pose proof (updatePatternTransition_steady a r E) as H. cbv zeta in H.
    destruct H as (H1 & H2 & _ & H4 & H5 & H6).
    destruct (_ >? _)%num.
    + split; [lia|]. split; [congruence|]. split; assumption.
    + split; [lia|]. split; [intros _; rewrite H4; auto|]. split; assumption.
Qed.

Lemma runScheduler_bounds (intensities : list num) :
  forall r,
    (0 <= patternTimer r)%Z ->
    (isTransitioning r = false -> transitionProgress r = 0) ->
    let r' := runScheduler intensities r in
    (0 <= patternTimer r' <= patternTimer r + Z.of_nat (length intensities))%Z
    /\ (isTransitioning r' = false -> transitionProgress r' = 0)
    /\ patternDuration r' = patternDuration r
    /\ transitionSpeed r' = transitionSpeed r.
Proof.
  induction intensities as [|a rest IH]; intros r Ht Hp; cbn [runScheduler length].
  - split; [lia|]. split; [exact Hp|]. split; reflexivity.
  - destruct (updatePatternTransition_bounds a r Ht Hp) as (H1 & H2 & H3 & H4).
    destruct (IH (updatePatternTransition a r) ltac:(lia) H2) as (I1 & I2 & I3 & I4).
    split; [lia|]. split; [exact I2|]. split; congruence.
Qed.

(** Consecutive patterns of the sequence differ. *)
Lemma patternAfter_next (c : nat) : patternAfter (S c) <> patternAfter c.
Proof.
  unfold patternAfter.
  replace (S c mod 10)%nat with ((c mod 10 + 1) mod 10)%nat
    by (rewrite Nat.Div0.add_mod_idemp_l; f_equal; lia).
  pose proof (Nat.mod_upper_bound c 10 ltac:(lia)) as H.
  set (m := (c mod 10)%nat) in *. clearbody m.
  do 10 (destruct m as [|m]; [cbn; discriminate|]). lia.
Qed.

(** Without a finite dynamic duration the steady state is never left. *)
Lemma updatePatternTransition_NaN (r : FlowFieldRenderer) :
  isTransitioning r = false ->
  updatePatternTransition NaN r = set_patternTimer (patternTimer r + 1) r.
Proof.
  destruct r. fields. intros ->. unfold updatePatternTransition. fields.
  assert (E : dynamicDuration patternDuration0 NaN = NaN)
    by (unfold dynamicDuration; destruct patternDuration0; reflexivity).
  rewrite E. reflexivity.
Qed.

Lemma runScheduler_NaN (n : nat) :
  forall r,
    isTransitioning r = false ->
    runScheduler (repeat NaN n) r = set_patternTimer (patternTimer r + Z.of_nat n) r.
Proof.
  induction n as [|n IH]; intros r Hs.
  - cbn. rewrite Z.add_0_r. destruct r. reflexivity.
  - cbn [repeat runScheduler]. rewrite updatePatternTransition_NaN by exact Hs.
    rewrite IH by (destruct r; exact Hs).
    destruct r. cbn. f_equal. lia.
Qed.

(** With [bufferLength = 0] an array that sums to 0, the empty one in
    particular, has no average: [0 / 0]. *)
Lemma audioIntensity_no_bins (d : Uint8Array) :
  reduce_sum d = 0%Z -> audioIntensity (audioMetrics d 0) = NaN.
Proof. intros H. cbn [audioMetrics audioIntensity]. rewrite H. reflexivity. Qed.

Lemma intensitiesOf_no_bins (frames : list Uint8Array) :
  Forall (fun d => reduce_sum d = 0%Z) frames ->
  intensitiesOf frames 0 = repeat NaN (length frames).
Proof.
  induction 1 as [|d frames Hd _ IH]; cbn [intensitiesOf map length repeat].
  - reflexivity.
  - rewrite audioIntensity_no_bins by exact Hd. f_equal. exact IH.
Qed.

Section Invariants.

Variable random : nat -> Q.
Variables Math_sin Math_cos : num -> num.
Variable Math_pow : num -> num -> num.
Variable Math_PI : num.
Variable flock : Intensities -> FlowFieldRenderer -> list Particle.t.

Local Abbreviation renderAll := (renderAll random Math_sin Math_cos Math_pow flock).
Local Abbreviation constructor := (constructor random Math_sin Math_cos Math_PI).

(** X6. Whatever arrays a new renderer is fed, valid or not: the duration
    and the speed keep their defaults; [patternIndex] stays within the
    sequence and points at the pattern shown in the steady state and at the
    pattern blended in during a transition, so the fallback to [rays] for a
    missing entry is never taken; the two patterns of a transition differ;
    the timer is at least 0 and at most the number of frames; the progress
    is 0 outside a transition. *)
Theorem scheduler_invariants (fuel : nat) (canvasWidth canvasHeight : Z)
  (frames : list Uint8Array) (N : Z) (k : nat) :
  (100 <= fuel)%nat ->
  exists r0 k0 r' k',
    constructor canvasWidth canvasHeight true k = Returned r0 k0
    /\ renderAll fuel frames N r0 k0 = Returned r' k'
    /\ patternDuration r' = 600 /\ transitionSpeed r' = 0.02
    /\ (0 <= patternIndex r' < 10)%Z
    /\ nth_Z patternSequence (patternIndex r')
       = Some (if isTransitioning r' then nextPattern r' else currentPattern r')
    /\ (isTransitioning r' = true -> nextPattern r' <> currentPattern r')
    /\ (0 <= patternTimer r' <= Z.of_nat (length frames))%Z
    /\ (isTransitioning r' = false -> transitionProgress r' = 0).
Proof.
  intros Hfuel.
  destruct (constructor_returns random Math_sin Math_cos Math_PI canvasWidth canvasHeight k)
    as (r0 & k0 & E0 & Hs0 & _).
  destruct (renderAll_yields random Math_sin Math_cos Math_pow flock fuel frames N Hfuel r0 k0)
    as (r' & k' & E & Hs & _).
  exists r0, k0, r', k'. split; [exact E0|]. split; [exact E|].
  apply scheduler_fields in Hs0. cbn in Hs0.
  destruct Hs0 as (I1 & I2 & I3 & I4 & I5 & I6 & I7 & I8).
  set (ints := intensitiesOf frames N) in *.
  apply scheduler_fields in Hs.
  destruct Hs as (C1 & C2 & C3 & C4 & C5 & C6 & C7 & C8).
  rewrite C1, C2, C3, C4, C5, C6, C7, C8.
  destruct (runScheduler_bounds ints r0) as (B1 & B2 & B3 & B4).
  { lia. }
  { intros _. exact I5. }
  assert (Hinv : cycle_inv 0 r0).
  { unfold cycle_inv. rewrite I1, I6, I3. split; reflexivity. }
  pose proof (cycle_run ints 0 r0 Hinv) as [Hcur Hidx]. cbn [Nat.add] in *.
  set (c := completedTransitions ints r0) in *.
  set (r1 := runScheduler ints r0) in *.
  assert (Hc : (c mod 10 < 10)%nat) by (apply Nat.mod_upper_bound; lia).
  assert (Hc' : (S c mod 10 < 10)%nat) by (apply Nat.mod_upper_bound; lia).
  split; [congruence|]. split; [congruence|].
  destruct (isTransitioning r1) eqn:Et.
  - destruct Hidx as [Hidx Hnext]. rewrite Hidx.
    split; [lia|]. split.
    { rewrite nth_Z_patternSequence by exact Hc'. rewrite Hnext. reflexivity. }
    split.
    { intros _. rewrite Hnext, Hcur. apply patternAfter_next. }
    split; [|exact B2].
    unfold ints in B1. rewrite intensitiesOf_length in B1. lia.
  - rewrite Hidx. split; [lia|]. split.
    { rewrite nth_Z_patternSequence by exact Hc. rewrite Hcur. reflexivity. }
    split; [discriminate|]. split; [|exact B2].
    unfold ints in B1. rewrite intensitiesOf_length in B1. lia.
Qed.

(** X7. With [bufferLength = 0] and arrays that sum to 0 (empty arrays in
    particular) the audio intensity is [NaN], no timer value exceeds the
    dynamic duration, and a renderer in the steady state shows the same
    pattern for ever: the timer just counts the frames. *)
Theorem no_bins_freeze_the_pattern (fuel : nat) (frames : list Uint8Array)
  (r : FlowFieldRenderer) (k : nat) :
  (100 <= fuel)%nat ->
  Forall (fun d => reduce_sum d = 0%Z) frames ->
  isTransitioning r = false ->
  exists r' k',
    renderAll fuel frames 0 r k = Returned r' k'
    /\ isTransitioning r' = false /\ currentPattern r' = currentPattern r
    /\ nextPattern r' = nextPattern r /\ patternIndex r' = patternIndex r
    /\ patternTimer r' = (patternTimer r + Z.of_nat (length frames))%Z.
Proof.
  intros Hfuel Hd Hs.
  destruct (renderAll_yields random Math_sin Math_cos Math_pow flock fuel frames 0 Hfuel r k)
    as (r' & k' & E & Hsch & _).
  exists r', k'. split; [exact E|].
  rewrite intensitiesOf_no_bins, runScheduler_NaN in Hsch by assumption.
  apply scheduler_fields in Hsch.
  destruct Hsch as (C1 & C2 & C3 & C4 & _ & C6 & _).
  destruct r. cbn in *. repeat split; congruence.
Qed.

End Invariants.

Lemma scheduler_invariants_witness :
  (100 <= 100)%nat
  /\ exists r0 k0 r' k',
       Demo.constructor 16 16 true 0%nat = Returned r0 k0
       /\ Demo.renderAll 100 [Demo.quiet; []; Demo.loud] 8 r0 k0 = Returned r' k'
       /\ (0 <= patternIndex r' < 10)%Z
       /\ (0 <= patternTimer r' <= 3)%Z.
Proof.
  assert (H1 : (100 <= 100)%nat) by lia. split; [exact H1|].
  destruct (scheduler_invariants Demo.random Demo.Math_sin Demo.Math_cos Demo.Math_pow
              Demo.Math_PI Demo.flock 100 16 16 [Demo.quiet; []; Demo.loud] 8 0%nat H1)
    as (r0 & k0 & r' & k' & E0 & E & _ & _ & Hi & _ & _ & Ht & _).
  exists r0, k0, r', k'. auto.
Defined.

Lemma no_bins_freeze_the_pattern_witness :
  let r := fieldInitializers 16 16 in
  let frames := repeat ([] : list Z) 1000 in
  (100 <= 100)%nat /\ Forall (fun d => reduce_sum d = 0%Z) frames
  /\ isTransitioning r = false
  /\ exists r' k',
       Demo.renderAll 100 frames 0 r 0%nat = Returned r' k'
       /\ isTransitioning r' = false /\ currentPattern r' = Pattern.rays.
Proof.
  intros r frames.
  assert (H1 : (100 <= 100)%nat) by lia.
  assert (H2 : Forall (fun d => reduce_sum d = 0%Z) frames).
  { apply Forall_forall. intros d Hd. apply list_elem_of_In, repeat_spec in Hd.
    subst d. reflexivity. }
  split; [exact H1|]. split; [exact H2|]. split; [reflexivity|].
  destruct (no_bins_freeze_the_pattern Demo.random Demo.Math_sin Demo.Math_cos
              Demo.Math_pow Demo.flock 100 frames r 0%nat H1 H2 eq_refl)
    as (r' & k' & E & Ht & Hc & _).
  exists r', k'. auto.
Defined.

(** ** The colour model *)

Lemma round_channel (v : Q) : 0 <= v <= 1 -> channel (JS.round (Fin v * 255)).
Proof.
  intros Hv. cbn [JS.mul JS.round]. eexists. split; [reflexivity|].
  split.
  - change 0%Z with (Qfloor (1 # 2)). apply Qfloor_resp_le. lra.
  - assert (H : (Qfloor (v * 255 + (1 # 2)) <= Qfloor (255 + (1 # 2)))%Z)
      by (apply Qfloor_resp_le; lra).
    exact H.
Qed.

Lemma scaled_between (p q u : Q) :
  p <= q -> 0 <= u <= 1 -> p <= p + (q - p) * u <= q.
Proof.
  intros Hpq Hu.
  assert (H0 : 0 <= (q - p) * u) by (apply Qmult_le_0_compat; lra).
  assert (H1 : 0 <= (q - p) * (1 - u)) by (apply Qmult_le_0_compat; lra).
  assert (E : (q - p) * (1 - u) == (q - p) - (q - p) * u) by ring.
  rewrite E in H1. lra.
Qed.

(** The constants of [hue2rgb]. *)
Lemma one_sixth : (1 / 6)%num = Fin (1 # 6).
Proof. reflexivity. Qed.

Lemma one_half : (1 / 2)%num = Fin (1 # 2).
Proof. reflexivity. Qed.

Lemma two_thirds : (2 / 3)%num = Fin (2 # 3).
Proof. reflexivity. Qed.

Lemma one_third : (1 / 3)%num = Fin (1 # 3).
Proof. reflexivity. Qed.

(** [hue2rgb] interpolates between [p] and [q]; a [t] that is off by one
    turn is wrapped. *)
Lemma hue2rgb_branches (p q u : Q) :
  p <= q -> 0 <= u <= 1 ->
  exists v,
    (if (Fin u <? Fin (1 # 6))%num then (Fin p + (Fin q - Fin p) * 6 * Fin u)%num
     else if (Fin u <? Fin (1 # 2))%num then Fin q
     else if (Fin u <? Fin (2 # 3))%num
          then (Fin p + (Fin q - Fin p) * (Fin (2 # 3) - Fin u) * 6)%num
          else Fin p) = Fin v
    /\ p <= v <= q.
Proof.
  intros Hpq Hu. cbn [JS.lt JS.add JS.sub JS.neg JS.mul].
  destruct (Qltb u (1 # 6)) eqn:E2.
  - apply Qltb_lt in E2. eexists. split; [reflexivity|].
    pose proof (scaled_between p q (6 * u) Hpq ltac:(lra)) as H.
    assert (E : (q + - p) * 6 * u == (q - p) * (6 * u)) by ring.
    rewrite E. exact H.
  - apply Qltb_ge in E2. destruct (Qltb u (1 # 2)) eqn:E3.
    + exists q. split; [reflexivity|lra].
    + apply Qltb_ge in E3. destruct (Qltb u (2 # 3)) eqn:E4.
      * apply Qltb_lt in E4. eexists. split; [reflexivity|].
        pose proof (scaled_between p q (6 * ((2 # 3) - u)) Hpq ltac:(lra)) as H.
        assert (E : (q + - p) * ((2 # 3) + - u) * 6 == (q - p) * (6 * ((2 # 3) - u)))
          by ring.
        rewrite E. exact H.
      * exists p. split; [reflexivity|lra].
Qed.

Lemma hue2rgb_between (p q t : Q) :
  p <= q -> - (1) <= t <= 2 ->
  exists v, hue2rgb (Fin p) (Fin q) (Fin t) = Fin v /\ p <= v <= q.
Proof.
  intros Hpq Ht. unfold hue2rgb. rewrite one_sixth, one_half, two_thirds.
  cbn [JS.lt JS.gt].
  destruct (Qltb t 0) eqn:E0.
  - apply Qltb_lt in E0. cbn [JS.add JS.lt].
    assert (E1 : Qltb 1 (t + 1) = false) by (apply Qltb_ge; lra).
    rewrite E1. exact (hue2rgb_branches p q (t + 1) Hpq ltac:(lra)).
  - apply Qltb_ge in E0. cbn [JS.lt]. destruct (Qltb 1 t) eqn:E1.
    + apply Qltb_lt in E1. cbn [JS.sub JS.add JS.neg].
      exact (hue2rgb_branches p q (t + - (1)) Hpq ltac:(lra)).
    + apply Qltb_ge in E1. exact (hue2rgb_branches p q t Hpq ltac:(lra)).
Qed.

(** The channels before rounding: each lies within [s * min(l, 1 - l)] of
    the lightness. *)
Lemma hslToRgb_values (h s l : Q) :
  - (2 # 3) <= h <= 5 # 3 -> 0 <= s <= 1 -> 0 <= l <= 1 ->
  exists vr vg vb,
    hslToRgb (Fin h) (Fin s) (Fin l)
    = (JS.round (Fin vr * 255), JS.round (Fin vg * 255), JS.round (Fin vb * 255))
    /\ Forall (fun v => l - s * l <= v <= l + s * l
                        /\ l - s * (1 - l) <= v <= l + s * (1 - l))
         [vr; vg; vb].
Proof.
  intros Hh Hs Hl. unfold hslToRgb. rewrite one_third. cbn [JS.eq].
  assert (H0 : 0 <= s * l) by (apply Qmult_le_0_compat; lra).
  assert (H1 : 0 <= s * (1 - l)) by (apply Qmult_le_0_compat; lra).
  assert (E1 : s * (1 - l) == s - s * l) by ring.
  destruct (Qeq_bool s 0) eqn:Es.
  { exists l, l, l. split; [reflexivity|]. repeat constructor; lra. }
  cbn [JS.lt JS.add JS.sub JS.neg JS.mul].
  destruct (Qltb l 0.5) eqn:E; cbn [JS.lt JS.add JS.sub JS.neg JS.mul];
    [apply Qltb_lt in E|apply Qltb_ge in E].
  - set (q := l * (1 + s)). set (p := 2 * l + - q).
    assert (Eq : q == l + s * l) by (unfold q; ring).
    assert (H2 : 0 <= s * (1 - 2 * l)) by (apply Qmult_le_0_compat; lra).
    assert (Hpq : p <= q) by (unfold p; lra).
    destruct (hue2rgb_between p q (h + (1 # 3)) Hpq ltac:(lra)) as (vr & -> & Hr).
    destruct (hue2rgb_between p q h Hpq ltac:(lra)) as (vg & -> & Hg).
    destruct (hue2rgb_between p q (h + - (1 # 3)) Hpq ltac:(lra)) as (vb & -> & Hb).
    exists vr, vg, vb. split; [reflexivity|]. unfold p in *.
    repeat constructor; lra.
  - set (q := l + s + - (l * s)). set (p := 2 * l + - q).
    assert (Eq : q == l + s - s * l) by (unfold q; ring).
    assert (H2 : 0 <= s * (2 * l - 1)) by (apply Qmult_le_0_compat; lra).
    assert (Hpq : p <= q) by (unfold p; lra).
    destruct (hue2rgb_between p q (h + (1 # 3)) Hpq ltac:(lra)) as (vr & -> & Hr).
    destruct (hue2rgb_between p q h Hpq ltac:(lra)) as (vg & -> & Hg).
    destruct (hue2rgb_between p q (h + - (1 # 3)) Hpq ltac:(lra)) as (vb & -> & Hb).
    exists vr, vg, vb. split; [reflexivity|]. unfold p in *.
    repeat constructor; lra.
Qed.

Lemma hslToRgb_channels (h s l : Q) :
  - (2 # 3) <= h <= 5 # 3 -> 0 <= s <= 1 -> 0 <= l <= 1 ->
  rgb_ok (hslToRgb (Fin h) (Fin s) (Fin l)).
Proof.
  intros Hh Hs Hl.
  destruct (hslToRgb_values h s l Hh Hs Hl) as (vr & vg & vb & -> & Hv).
  assert (H0 : 0 <= l * (1 - s)) by (apply Qmult_le_0_compat; lra).
  assert (H1 : 0 <= (1 - l) * (1 - s)) by (apply Qmult_le_0_compat; lra).
  inversion Hv as [|? ? Hr Hv1]; subst. inversion Hv1 as [|? ? Hg Hv2]; subst.
  inversion Hv2 as [|? ? Hb _]; subst.
  repeat split; apply round_channel; lra.
Qed.

Lemma round_255 (v : Q) : v == 0 \/ v == 1 ->
  JS.round (Fin v * 255) = of_Z (if Qeq_bool v 0 then 0 else 255).
Proof.
  intros H. cbn [JS.round JS.mul]. f_equal.
  destruct H as [H|H].
  - rewrite (proj2 (Qeq_bool_iff v 0) H).
    transitivity (Qfloor (0 * 255 + (1 # 2))); [|reflexivity].
    apply Qfloor_comp. rewrite H. reflexivity.
  - rewrite Qeq_bool_false by lra.
    transitivity (Qfloor (1 * 255 + (1 # 2))); [|reflexivity].
    apply Qfloor_comp. rewrite H. reflexivity.
Qed.

Lemma hslToRgb_cases (h s l : Q) :
  - (2 # 3) <= h <= 5 # 3 -> 0 <= s <= 1 -> 0 <= l <= 1 ->
  rgb_ok (hslToRgb (Fin h) (Fin s) (Fin l))
  /\ (l == 0 -> hslToRgb (Fin h) (Fin s) (Fin l) = (of_Z 0, of_Z 0, of_Z 0))
  /\ (l == 1 -> hslToRgb (Fin h) (Fin s) (Fin l) = (of_Z 255, of_Z 255, of_Z 255))
  /\ (s == 0 -> exists v, hslToRgb (Fin h) (Fin s) (Fin l) = (v, v, v)).
Proof.
  intros Hh Hs Hl. split; [apply hslToRgb_channels; assumption|].
  destruct (hslToRgb_values h s l Hh Hs Hl) as (vr & vg & vb & E & Hv).
  inversion Hv as [|? ? Hr Hv1]; subst. inversion Hv1 as [|? ? Hg Hv2]; subst.
  inversion Hv2 as [|? ? Hb _]; subst. clear Hv Hv1 Hv2.
  split; [|split].
  - intros H0. rewrite H0 in Hr, Hg, Hb.
    assert (vr == 0 /\ vg == 0 /\ vb == 0) as (Er & Eg & Eb) by (repeat split; lra).
    rewrite E, !round_255 by auto.
    rewrite (proj2 (Qeq_bool_iff vr 0) Er), (proj2 (Qeq_bool_iff vg 0) Eg),
      (proj2 (Qeq_bool_iff vb 0) Eb). reflexivity.
  - intros H1. rewrite H1 in Hr, Hg, Hb.
    assert (vr == 1 /\ vg == 1 /\ vb == 1) as (Er & Eg & Eb) by (repeat split; lra).
    rewrite E, !round_255 by auto.
    rewrite !Qeq_bool_false by lra. reflexivity.
  - intros H0. unfold hslToRgb. cbn [JS.eq].
    rewrite (proj2 (Qeq_bool_iff s 0) H0). eexists. reflexivity.
Qed.

(** X8. For a saturation and a lightness in [0, 1] and a hue that is a
    fraction of a turn from -2/3 to 5/3 (the hue is wrapped by one turn, so
    the interval [0, 1] is more than covered), [hslToRgb] returns three
    integer channels between 0 and 255; the colour is black at lightness 0
    and white at lightness 1 whatever the hue and the saturation, and a grey
    at saturation 0. *)
Theorem hslToRgb_gamut (h s l : Q) :
  - (2 # 3) <= h <= 5 # 3 -> 0 <= s <= 1 -> 0 <= l <= 1 ->
  rgb_ok (hslToRgb (Fin h) (Fin s) (Fin l))
  /\ (l == 0 -> hslToRgb (Fin h) (Fin s) (Fin l) = (of_Z 0, of_Z 0, of_Z 0))
  /\ (l == 1 -> hslToRgb (Fin h) (Fin s) (Fin l) = (of_Z 255, of_Z 255, of_Z 255))
  /\ (s == 0 -> exists v, hslToRgb (Fin h) (Fin s) (Fin l) = (v, v, v)).
Proof. exact (hslToRgb_cases h s l). Qed.

Lemma hslToRgb_gamut_witness :
  - (2 # 3) <= 0.5 <= 5 # 3 /\ 0 <= 0.8 <= 1 /\ 0 <= 0.4 <= 1
  /\ rgb_ok (hslToRgb 0.5 0.8 0.4).
Proof.
  assert (H1 : - (2 # 3) <= 0.5 <= 5 # 3) by lra.
  assert (H2 : 0 <= 0.8 <= 1) by lra.
  assert (H3 : 0 <= 0.4 <= 1) by lra.
  repeat (split; [assumption|]).
  exact (proj1 (hslToRgb_gamut 0.5 0.8 0.4 H1 H2 H3)).
Defined.

(** ** The colours of the pixel loops *)

Lemma div_const (x c : Q) : ~ c == 0 -> (Fin x / Fin c)%num = Fin (x / c).
Proof. intros H. cbn [JS.div]. rewrite Qeq_bool_false by exact H. reflexivity. Qed.

Lemma Qdiv_between (x c lo hi : Q) :
  0 < c -> lo * c <= x <= hi * c -> lo <= x / c <= hi.
Proof.
  intros Hc [H1 H2]. split.
  - apply Qle_shift_div_l; assumption.
  - apply Qle_shift_div_r; assumption.
Qed.

Lemma Forall2_right {A B : Type} (P : B -> Prop) (l : list A) (k : list B) :
  Forall2 (fun _ b => P b) l k -> Forall P k.
Proof. induction 1; constructor; assumption. Qed.

Lemma maxIterOf_valid (I : Intensities) :
  in_unit (audioIntensity I) ->
  exists z, maxIterOf I = of_Z z /\ (50 <= z <= 100)%Z.
Proof.
  intros (a & Ea & Ha). unfold maxIterOf. rewrite Ea.
  cbn [JS.mul JS.floor JS.add]. exists (50 + Qfloor (a * 50))%Z. split.
  - unfold of_Z, inject_Z, Qplus. cbn [Qnum Qden]. f_equal. f_equal. lia.
  - assert (H0 : (Qfloor 0 <= Qfloor (a * 50))%Z) by (apply Qfloor_resp_le; lra).
    assert (H1 : (Qfloor (a * 50) <= Qfloor 50)%Z) by (apply Qfloor_resp_le; lra).
    change (Qfloor 0) with 0%Z in H0. change (Qfloor 50) with 50%Z in H1. lia.
Qed.

Lemma countBelow_of_Z (z : Z) : countBelow (of_Z z) = Some (Z.to_nat z).
Proof. unfold countBelow, of_Z. rewrite Qceiling_Z. reflexivity. Qed.

Lemma fractalBlock_colour (fuel : nat) (I : Intensities) (r : FlowFieldRenderer)
  (z : Z) (zoom : num) (py px : Z) :
  in_unit (audioIntensity I) -> in_unit (bassIntensity I) -> hue_ok (hueBase r) ->
  (50 <= z)%Z -> (Z.to_nat z <= fuel)%nat ->
  yields (fractalBlock fuel I r (of_Z z) zoom py px)
    (fun b =>
       rgb_ok (block_rgb b)
       /\ ((of_Z (block_iter b) <? of_Z z)%num = false ->
           block_rgb b = (of_Z 0, of_Z 0, of_Z 0))).
Proof.
  intros (a & Ea & Ha) (b & Eb & Hb) (hb & Eh & Hh) Hz Hfuel.
  unfold fractalBlock.
  destruct (juliaLoop_terminates (juliaC_re r) (juliaC_im r) (of_Z z) (Z.to_nat z)
              (countBelow_of_Z z) fuel (planeX r zoom px) (planeY r zoom py) 0%Z)
    as (n & En & Hn); [lia|lia|].
  rewrite En. apply yields_ret. cbn [block_rgb block_iter].
  rewrite Ea, Eb, Eh.
  assert (Hzq : 0 < inject_Z z)
    by (change 0 with (inject_Z 0); rewrite <- Zlt_Qlt; lia).
  assert (Hnq : 0 <= inject_Z n <= inject_Z z).
  { split; [change 0 with (inject_Z 0)|]; rewrite <- Zle_Qle; lia. }
  unfold of_Z. rewrite (div_const (inject_Z n) (inject_Z z)) by lra.
  set (t := inject_Z n / inject_Z z).
  assert (Ht : 0 <= t <= 1) by (apply Qdiv_between; lra).
  cbn [JS.add JS.mul JS.lt].
  destruct (rem_360_range (hb + t * 360 + b * 60) ltac:(lra)) as (hue & -> & Hhue).
  rewrite !div_const by lra.
  assert (Hh1 : 0 <= hue / 360 <= 1) by (apply Qdiv_between; lra).
  assert (Hs1 : 0 <= (70 + a * 30) / 100 <= 1) by (apply Qdiv_between; lra).
  destruct (Qltb (inject_Z n) (inject_Z z)) eqn:E.
  - cbn [JS.mul]. rewrite div_const by lra.
    assert (Hl1 : 0 <= t * 60 / 100 <= 1) by (apply Qdiv_between; lra).
    split; [|discriminate]. apply hslToRgb_channels; [lra|assumption|assumption].
  - rewrite div_const by lra.
    assert (Hl1 : 0 <= 0 / 100 <= 1) by (apply Qdiv_between; lra).
    destruct (hslToRgb_cases (hue / 360) ((70 + a * 30) / 100) (0 / 100)
                ltac:(lra) Hs1 Hl1)
      as (Hok & Hblack & _).
    split; [exact Hok|]. intros _. apply Hblack. reflexivity.
Qed.

Section FractalColours.

Variables Math_sin Math_cos : num -> num.
Variable Math_pow : num -> num -> num.

Local Abbreviation renderFractal := (renderFractal Math_sin Math_cos Math_pow).

(** X9. On a valid frame and with the hue base in range, every block of the
    fractal gets three integer channels between 0 and 255, and a point whose
    loop ran the full [maxIter] iterations without escaping is painted
    black. *)
Theorem fractal_colours (fuel : nat) (d : Uint8Array) (N : Z)
  (r : FlowFieldRenderer) (k : nat) :
  (100 <= fuel)%nat -> validFrame N d -> hue_ok (hueBase r) ->
  let I := audioMetrics d N in
  exists r' image k',
    renderFractal fuel I r k = Returned (r', image) k'
    /\ Forall
         (Forall (fun b =>
            rgb_ok (block_rgb b)
            /\ ((of_Z (block_iter b) <? maxIterOf I)%num = false ->
                block_rgb b = (of_Z 0, of_Z 0, of_Z 0))))
         image.
Proof.
  intros Hfuel Hv Hh I.
  destruct (audioMetrics_in_unit d N Hv) as (Ha & Hb & _). fold I in Ha, Hb.
  destruct (maxIterOf_valid I Ha) as (z & Ez & Hz).
  assert (Hy : yields (renderFractal fuel I r)
    (fun out => Forall
         (Forall (fun b =>
            rgb_ok (block_rgb b)
            /\ ((of_Z (block_iter b) <? maxIterOf I)%num = false ->
                block_rgb b = (of_Z 0, of_Z 0, of_Z 0))))
         (snd out))).
  { unfold renderFractal. rewrite Ez.
    eapply yields_bind.
    - apply yields_forEach with
        (Q := fun (_ : Z) row => Forall (fun b =>
            rgb_ok (block_rgb b)
            /\ ((of_Z (block_iter b) <? of_Z z)%num = false ->
                block_rgb b = (of_Z 0, of_Z 0, of_Z 0))) row).
      intros py _. eapply yields_weaken.
      + apply yields_forEach with
          (Q := fun (_ : Z) b =>
            rgb_ok (block_rgb b)
            /\ ((of_Z (block_iter b) <? of_Z z)%num = false ->
                block_rgb b = (of_Z 0, of_Z 0, of_Z 0))).
        intros px _. apply fractalBlock_colour; try assumption; try lia.
        destruct (animateFractal_frame Math_sin Math_cos I r) as (Hg & _).
        unfold globals in Hg. injection Hg as _ _ _ _ _ _ _ Hg _ _.
        rewrite Hg. exact Hh.
      + intros row Hrow. exact (Forall2_right _ _ _ Hrow).
    - intros image Himage. apply yields_ret. cbn [snd].
      exact (Forall2_right _ _ _ Himage). }
  destruct (Hy k) as ([r' image] & k' & E & H).
  exists r', image, k'. split; [exact E|exact H].
Qed.

End FractalColours.

Lemma fractal_colours_witness :
  let r := fieldInitializers 16 16 in
  let I := audioMetrics Demo.quiet 8 in
  (100 <= 100)%nat /\ validFrame 8 Demo.quiet /\ hue_ok (hueBase r)
  /\ exists r' image k',
       Demo.renderFractal 100 I r 0%nat = Returned (r', image) k'
       /\ Forall (Forall (fun b => rgb_ok (block_rgb b))) image.
Proof.
  intros r I.
  assert (H1 : (100 <= 100)%nat) by lia.
  assert (H2 : hue_ok (hueBase r)) by (exists 0; split; [reflexivity|lra]).
  split; [exact H1|]. split; [exact validFrame_quiet|]. split; [exact H2|].
  destruct (fractal_colours Demo.Math_sin Demo.Math_cos Demo.Math_pow 100 Demo.quiet 8
              r 0%nat H1 validFrame_quiet H2) as (r' & image & k' & E & H).
  exists r', image, k'. split; [exact E|].
  eapply Forall_impl; [exact H|]. intros row Hrow.
  eapply Forall_impl; [exact Hrow|]. intros b [Hb _]. exact Hb.
Defined.

(** ** The Voronoi diagram *)

(** The order of the comparisons [<] and [<=] on numbers. *)
Ltac num_order :=
  unfold JS.lt, JS.le, Qltb;
  repeat match goal with
         | a : num |- _ => destruct a as [|[|]|?]
         end;
  cbn [andb orb negb]; try discriminate; try reflexivity;
  rewrite ?negb_true_iff, ?negb_false_iff, <- ?not_true_iff_false, ?Qle_bool_iff;
  try (intros; lra).

Lemma lt_not_le (a b : num) : (b <? a)%num = true -> (a <=? b)%num = false.
Proof. num_order. Qed.

Lemma le_lt_trans (a b c : num) :
  (a <=? b)%num = true -> (b <? c)%num = true -> (a <? c)%num = true.
Proof. num_order. Qed.

Lemma lt_le (a b : num) : (a <? b)%num = true -> (a <=? b)%num = true.
Proof. num_order. Qed.

Lemma not_lt_Infinity (a : num) :
  (a <? Inf false)%num = false -> a = NaN \/ a = Inf false.
Proof. destruct a as [|[|]|?]; cbn; intros H; auto; discriminate. Qed.

Lemma lt_below_Infinity (a b : num) :
  (a <? b)%num = true -> (a <? Inf false)%num = true.
Proof. num_order. Qed.

Lemma Infinity_not_le (a b : num) :
  (a <? Inf false)%num = false -> (b <? Inf false)%num = true ->
  (a <=? b)%num = false.
Proof.
  intros H. destruct (not_lt_Infinity a H) as [-> | ->]; [reflexivity|].
  destruct b as [|[|]|?]; cbn; try discriminate; reflexivity.
Qed.

Section Voronoi.

Variable Math_sqrt : num -> num.

Local Abbreviation seedDistance := (seedDistance Math_sqrt).
Local Abbreviation findClosest := (findClosest Math_sqrt).
Local Abbreviation closestStep := (closestStep Math_sqrt).
Local Abbreviation voronoiBlock := (voronoiBlock Math_sqrt).

Lemma findClosest_snoc (seeds : list Seed.t) (seed : Seed.t) (x y : Z) :
  findClosest (seeds ++ [seed]) x y = closestStep x y (findClosest seeds x y) seed.
Proof. unfold findClosest. rewrite fold_left_app. reflexivity. Qed.

Lemma findClosest_nearest (seeds : list Seed.t) (x y : Z) :
  nearest (seedDistance x y) seeds (findClosest seeds x y).
Proof.
  induction seeds as [|new seeds IH] using rev_ind.
  - cbn. split; [reflexivity|]. intros s [].
  - rewrite findClosest_snoc.
    destruct (findClosest seeds x y) as [minDist [seed|]];
      cbn [nearest closestStep] in *.
    + destruct IH as (-> & Hfin & before & after & -> & Hb & Ha).
      destruct (seedDistance x y new <? seedDistance x y seed)%num eqn:E.
      * split; [reflexivity|]. split; [exact (lt_below_Infinity _ _ E)|].
        exists (before ++ seed :: after), []. split; [reflexivity|].
        split; [|intros s []].
        intros s Hs. apply in_app_or in Hs.
        destruct (seedDistance x y s <=? seedDistance x y new)%num eqn:El;
          [|reflexivity].
        destruct Hs as [Hs|[<-|Hs]].
        -- pose proof (le_lt_trans _ _ _ El E) as Hlt.
           apply lt_le in Hlt. rewrite (Hb s Hs) in Hlt. discriminate.
        -- apply lt_not_le in E. congruence.
        -- pose proof (le_lt_trans _ _ _ El E) as Hlt.
           rewrite (Ha s Hs) in Hlt. discriminate.
      * split; [reflexivity|]. split; [exact Hfin|].
        exists before, (after ++ [new]). split; [rewrite <- app_assoc; reflexivity|].
        split; [exact Hb|].
        intros s Hs. apply in_app_or in Hs. destruct Hs as [Hs|[<-|[]]].
        -- exact (Ha s Hs).
        -- exact E.
    + destruct IH as (-> & Hall).
      destruct (seedDistance x y new <? Inf false)%num eqn:E.
      * split; [reflexivity|]. split; [exact E|].
        exists seeds, []. split; [reflexivity|].
        split; [|intros s []].
        intros s Hs. apply Infinity_not_le; [|exact E].
        destruct (Hall s Hs) as [-> | ->]; reflexivity.
      * split; [reflexivity|]. intros s Hs. apply in_app_or in Hs.
        destruct Hs as [Hs|[<-|[]]]; [exact (Hall s Hs)|].
        apply not_lt_Infinity. exact E.
Qed.

(** X10. The seed search of the Voronoi pattern returns the first seed at
    the least distance from the pixel: no earlier seed is as close and no
    later seed is closer. It finds no seed exactly when every distance is
    [NaN] or [+Infinity], with an empty seed list in particular, and then
    the block is not painted. *)
Theorem closest_seed_is_nearest (I : Intensities) (seeds : list Seed.t) (x y : Z) :
  nearest (seedDistance x y) seeds (findClosest seeds x y)
  /\ (voronoiBlock I seeds y x = None
      <-> forall s, In s seeds ->
            seedDistance x y s = NaN \/ seedDistance x y s = Inf false)
  /\ voronoiBlock I [] y x = None.
Proof.
  pose proof (findClosest_nearest seeds x y) as H.
  split; [exact H|]. split; [|reflexivity].
  unfold voronoiBlock.
  destruct (findClosest seeds x y) as [minDist [seed|]];
    cbn [nearest] in H.
  - split; [discriminate|]. intros Hall. exfalso.
    destruct H as (-> & Hfin & before & after & -> & _).
    destruct (Hall seed) as [E|E].
    { apply in_or_app. right. left. reflexivity. }
    all: rewrite E in Hfin; discriminate.
  - split; [|reflexivity]. intros _. exact (proj2 H).
Qed.

End Voronoi.

(** ** The particle swarm *)

Lemma wrap_within (bound : Z) (v : num) : (0 <= bound)%Z -> within bound (wrap bound v).
Proof.
  intros Hb. assert (Hq : 0 <= inject_Z bound)
    by (change 0 with (inject_Z 0); rewrite <- Zle_Qle; exact Hb).
  unfold wrap, within, of_Z.
  destruct v as [|[|]|q]; cbn [JS.lt JS.gt].
  - left. reflexivity.
  - right. rewrite (proj2 (Qltb_ge (inject_Z bound) (inject_Z bound))) by lra.
    exists (inject_Z bound). split; [reflexivity|lra].
  - right. exists 0. split; [reflexivity|lra].
  - right. destruct (Qltb q 0) eqn:E0; cbn [JS.lt].
    + rewrite (proj2 (Qltb_ge (inject_Z bound) (inject_Z bound))) by lra.
      exists (inject_Z bound). split; [reflexivity|lra].
    + apply Qltb_ge in E0. destruct (Qltb (inject_Z bound) q) eqn:E1.
      * exists 0. split; [reflexivity|lra].
      * apply Qltb_ge in E1. exists q. split; [reflexivity|lra].
Qed.

Lemma pushTrail_length (trail : list (num * num * num)) (point : num * num * num) :
  (length trail <= 20)%nat ->
  length (pushTrail trail point) = Nat.min (S (length trail)) 20.
Proof.
  intros H. unfold pushTrail. rewrite length_app. cbn [length].
  destruct (20 <? length trail + 1)%nat eqn:E.
  - apply Nat.ltb_lt in E. destruct trail as [|t trail]; cbn in *; [lia|].
    rewrite length_app. cbn. lia.
  - apply Nat.ltb_ge in E. rewrite length_app. cbn. lia.
Qed.

Lemma pushTrail_last (trail : list (num * num * num)) (point : num * num * num) :
  last (pushTrail trail point) = Some point.
Proof.
  unfold pushTrail. destruct (20 <? length (trail ++ [point]))%nat eqn:E.
  - destruct trail as [|t trail].
    + cbn in E. discriminate.
    + cbn [app tl]. apply last_snoc.
  - apply last_snoc.
Qed.

Section Swarm.

Variable Math_sqrt : num -> num.

Local Abbreviation flockParticle := (flockParticle Math_sqrt).
Local Abbreviation swarmStep := (swarmStep Math_sqrt).
Local Abbreviation swarmPool := (swarmPool Math_sqrt).
Local Abbreviation renderSwarm := (renderSwarm Math_sqrt).

Lemma flockParticle_flocked (I : Intensities) (r : FlowFieldRenderer)
  (pool : list Particle.t) (i : nat) (p : Particle.t) :
  (0 <= width r)%Z -> (0 <= height r)%Z ->
  flocked r p (flockParticle I r pool i p).
Proof.
  intros Hw Hh. unfold flocked, flockParticle.
  cbn [Particle.size Particle.hue Particle.life Particle.maxLife Particle.angle
       Particle.angularVelocity Particle.x Particle.y Particle.trail].
  repeat split; try reflexivity; apply wrap_within; assumption.
Qed.

(** The loop over the pool: the particles before index [i] are updated,
    the others are as they were. [R] is any relation between a particle and
    its update. *)
Lemma swarm_fold (R : Particle.t -> Particle.t -> Prop) (I : Intensities)
  (r : FlowFieldRenderer) :
  (forall pool i p, R p (flockParticle I r pool i p)) ->
  forall rest original done,
    Forall2 R original done ->
    Forall2 R (original ++ rest)
      (fold_left (swarmStep I r) (seq (length done) (length rest)) (done ++ rest)).
Proof.
  intros HR. induction rest as [|p rest IH]; intros original done Hd.
  - cbn. rewrite !app_nil_r. exact Hd.
  - cbn [length seq fold_left]. unfold swarmStep at 2.
    rewrite lookup_app_r, Nat.sub_diag by lia. cbn [lookup list_lookup].
    rewrite insert_app_r_alt, Nat.sub_diag by lia. cbn [insert list_insert].
    set (p' := flockParticle _ _ _ _ _).
    replace (original ++ p :: rest) with ((original ++ [p]) ++ rest)
      by (rewrite <- app_assoc; reflexivity).
    replace (done ++ p' :: rest) with ((done ++ [p']) ++ rest)
      by (rewrite <- app_assoc; reflexivity).
    replace (S (length done)) with (length (done ++ [p']))
      by (rewrite length_app; cbn; lia).
    apply IH. apply Forall2_app; [exact Hd|].
    constructor; [|constructor]. apply HR.
Qed.

Lemma swarmPool_each (R : Particle.t -> Particle.t -> Prop) (I : Intensities)
  (r : FlowFieldRenderer) :
  (forall pool i p, R p (flockParticle I r pool i p)) ->
  Forall2 R (particles r) (swarmPool I r).
Proof.
  intros HR. exact (swarm_fold R I r HR (particles r) [] [] ltac:(constructor)).
Qed.

(** [NaN] is absorbing: the attraction to the centre is computed from the
    position. *)
Lemma add_NaN_r (a : num) : (a + NaN)%num = NaN.
Proof. destruct a; reflexivity. Qed.

Lemma sub_NaN_r (a : num) : (a - NaN)%num = NaN.
Proof. destruct a; reflexivity. Qed.

Lemma wrap_NaN (bound : Z) : wrap bound NaN = NaN.
Proof. reflexivity. Qed.

Lemma flockParticle_NaN_x (I : Intensities) (r : FlowFieldRenderer)
  (pool : list Particle.t) (i : nat) (p : Particle.t) :
  Particle.x p = NaN ->
  Particle.x (flockParticle I r pool i p) = NaN
  /\ Particle.vx (flockParticle I r pool i p) = NaN.
Proof.
  intros H. unfold flockParticle.
  cbn [Particle.x Particle.vx]. rewrite H, sub_NaN_r.
  cbn [JS.div JS.mul]. rewrite !add_NaN_r.
  destruct (_ >? _)%num; cbn [JS.div JS.mul JS.add]; split; reflexivity.
Qed.

Lemma flockParticle_NaN_y (I : Intensities) (r : FlowFieldRenderer)
  (pool : list Particle.t) (i : nat) (p : Particle.t) :
  Particle.y p = NaN ->
  Particle.y (flockParticle I r pool i p) = NaN
  /\ Particle.vy (flockParticle I r pool i p) = NaN.
Proof.
  intros H. unfold flockParticle.
  cbn [Particle.y Particle.vy]. rewrite H, sub_NaN_r.
  cbn [JS.div JS.mul]. rewrite !add_NaN_r.
  destruct (_ >? _)%num; cbn [JS.div JS.mul JS.add]; split; reflexivity.
Qed.

Lemma flockParticle_centre (I : Intensities) (r : FlowFieldRenderer)
  (pool : list Particle.t) (i : nat) (p : Particle.t) :
  sqrt_of_zero Math_sqrt -> atCentre r p -> lost (flockParticle I r pool i p).
Proof.
  intros Hsqrt (cx & cy & px & py & Ecx & Ecy & Epx & Epy & Hx & Hy).
  unfold lost, flockParticle.
  cbn [Particle.x Particle.y Particle.vx Particle.vy].
  rewrite Ecx, Ecy, Epx, Epy. cbn [JS.sub JS.add JS.neg JS.mul].
  destruct (Hsqrt ((cx + - px) * (cx + - px) + (cy + - py) * (cy + - py)))
    as (z & -> & Hz).
  { rewrite Hx, Hy. ring. }
  cbn [JS.div]. rewrite (proj2 (Qeq_bool_iff z 0) Hz).
  assert (E1 : Qeq_bool (cx + - px) 0 = true)
    by (apply Qeq_bool_iff; rewrite Hx; ring).
  assert (E2 : Qeq_bool (cy + - py) 0 = true)
    by (apply Qeq_bool_iff; rewrite Hy; ring).
  rewrite E1, E2. cbn [JS.mul]. rewrite !add_NaN_r.
  destruct (_ >? _)%num; cbn [JS.div JS.mul JS.add]; repeat split; reflexivity.
Qed.

Lemma lost_stays_lost (I : Intensities) (r : FlowFieldRenderer)
  (pool : list Particle.t) (i : nat) (p : Particle.t) :
  lost p -> lost (flockParticle I r pool i p).
Proof.
  intros (Hx & _ & Hy & _).
  destruct (flockParticle_NaN_x I r pool i p Hx) as [H1 H2].
  destruct (flockParticle_NaN_y I r pool i p Hy) as [H3 H4].
  repeat split; assumption.
Qed.

(** X11. One pass of the swarm keeps every particle: the pool has the same
    particles in the same order, each with its size, hue, life and angles
    unchanged, a position that is [NaN] or wrapped into the surface, and a
    trail that got the new position as its last point; a trail of at most
    20 points stays one. *)
Theorem swarm_pass_keeps_the_particles (I : Intensities) (r : FlowFieldRenderer) :
  (0 <= width r)%Z -> (0 <= height r)%Z ->
  Forall2 (flocked r) (particles r) (particles (renderSwarm I r))
  /\ length (particles (renderSwarm I r)) = length (particles r)
  /\ (Forall short (particles r) ->
      Forall (fun p => short p
                       /\ last (Particle.trail p)
                          = Some (Particle.x p, Particle.y p, Fin 1))
        (particles (renderSwarm I r))).
Proof.
  intros Hw Hh.
  assert (H : Forall2 (flocked r) (particles r) (particles (renderSwarm I r))).
  { unfold renderSwarm.
    replace (particles (set_particles _ r)) with (swarmPool I r) by (destruct r; reflexivity).
    apply swarmPool_each. intros pool i p. apply flockParticle_flocked; assumption. }
  split; [exact H|]. split; [symmetry; exact (Forall2_length _ _ _ H)|].
  intros Hs. revert Hs. induction H as [|p p' ps ps' Hp _ IH]; intros Hs.
  - constructor.
  - inversion Hs as [|? ? Hs1 Hs2]; subst. constructor; [|exact (IH Hs2)].
    destruct Hp as (_ & _ & _ & _ & _ & _ & _ & _ & Ht). unfold short in *.
    rewrite Ht. split; [|apply pushTrail_last].
    rewrite pushTrail_length by exact Hs1. lia.
Qed.

(** X12. A particle whose position is [NaN] keeps it for ever, and a
    particle exactly at the centre of the surface loses its position in the
    pass: the attraction to the centre divides a zero offset by a zero
    distance. *)
Theorem swarm_loses_the_particle_at_the_centre (I : Intensities)
  (r : FlowFieldRenderer) :
  sqrt_of_zero Math_sqrt ->
  Forall2 (fun p p' => (lost p -> lost p') /\ (atCentre r p -> lost p'))
    (particles r) (particles (renderSwarm I r)).
Proof.
  intros Hsqrt. unfold renderSwarm.
  replace (particles (set_particles _ r)) with (swarmPool I r) by (destruct r; reflexivity).
  apply swarmPool_each. intros pool i p. split.
  - apply lost_stays_lost.
  - apply flockParticle_centre. exact Hsqrt.
Qed.

End Swarm.

Lemma sqrt_ceil_of_zero : sqrt_of_zero sqrt_ceil.
Proof.
  intros q Hq. unfold sqrt_ceil.
  assert (E : Qle_bool 0 q = true) by (apply Qle_bool_iff; rewrite Hq; lra).
  rewrite E. exists (inject_Z (Z.sqrt_up (Qceiling q))). split; [reflexivity|].
  rewrite (Qceiling_comp q 0 Hq). reflexivity.
Qed.

Lemma swarm_pass_keeps_the_particles_witness :
  let p := Particle.mk 1 2 0.5 0 1 30 200 200 0 0 [] in
  let r := set_particles [p; p] (set_size 10 10 (fieldInitializers 10 10)) in
  let I := mkIntensities 0 0 0 0 in
  (0 <= width r)%Z /\ (0 <= height r)%Z
  /\ length (particles (renderSwarm sqrt_ceil I r)) = 2%nat
  /\ Forall2 (flocked r) (particles r) (particles (renderSwarm sqrt_ceil I r)).
Proof.
  intros p r I.
  assert (Hw : (0 <= width r)%Z) by (cbn; lia).
  assert (Hh : (0 <= height r)%Z) by (cbn; lia).
  split; [exact Hw|]. split; [exact Hh|].
  destruct (swarm_pass_keeps_the_particles sqrt_ceil I r Hw Hh) as (H1 & H2 & _).
  split; [exact H2|exact H1].
Defined.

Lemma swarm_loses_the_particle_at_the_centre_witness :
  let p := Particle.mk 5 5 0.5 0 1 30 200 200 0 0 [] in
  let r := set_particles [p] (set_center 5 5 (set_size 10 10 (fieldInitializers 10 10))) in
  let I := mkIntensities 0 0 0 0 in
  sqrt_of_zero sqrt_ceil /\ atCentre r p
  /\ Forall lost (particles (renderSwarm sqrt_ceil I r)).
Proof.
  intros p r I.
  assert (Hc : atCentre r p).
  { exists 5, 5, 5, 5. repeat split; reflexivity. }
  split; [exact sqrt_ceil_of_zero|]. split; [exact Hc|].
  pose proof (swarm_loses_the_particle_at_the_centre sqrt_ceil I r sqrt_ceil_of_zero) as H.
  change (particles r) with [p] in H.
  inversion H as [|? p' ? ps' [_ Hp] Hrest E1 E2]; subst.
  inversion Hrest; subst. constructor; [exact (Hp Hc)|constructor].
Defined.

(** ** What the pools are made of *)

Lemma scaled_within (u : Q) (w : Z) :
  0 <= u < 1 -> (0 <= w)%Z ->
  0 <= u * inject_Z w <= inject_Z w.
Proof.
  intros Hu Hw.
  assert (Hq : 0 <= inject_Z w)
    by (change 0 with (inject_Z 0); rewrite <- Zle_Qle; exact Hw).
  assert (H0 : 0 <= u * inject_Z w) by (apply Qmult_le_0_compat; lra).
  assert (H1 : 0 <= (1 - u) * inject_Z w) by (apply Qmult_le_0_compat; lra).
  lra.
Qed.

Lemma floor_scaled (u : Q) (n : Z) :
  0 <= u < 1 -> (0 < n)%Z -> (0 <= Qfloor (u * inject_Z n) <= n - 1)%Z.
Proof.
  intros Hu Hn.
  assert (Hq : 0 < inject_Z n)
    by (change 0 with (inject_Z 0); rewrite <- Zlt_Qlt; exact Hn).
  assert (H0 : 0 <= u * inject_Z n) by (apply Qmult_le_0_compat; lra).
  assert (H1 : u * inject_Z n < inject_Z n).
  { assert (H : 0 < (1 - u) * inject_Z n) by (apply Qmult_lt_0_compat; lra). lra. }
  split.
  - change 0%Z with (Qfloor 0). apply Qfloor_resp_le. exact H0.
  - assert (H : (Qfloor (u * inject_Z n) < n)%Z).
    { rewrite Zlt_Qlt. eapply Qle_lt_trans; [apply Qfloor_le|exact H1]. }
    lia.
Qed.

Section Creation.

Variable random : nat -> Q.
Variables Math_sin Math_cos : num -> num.
Variable Math_PI : num.
Hypothesis random_unit : unit_random random.

Local Abbreviation createParticle := (createParticle random Math_sin Math_cos Math_PI).
Local Abbreviation initializeParticles :=
  (initializeParticles random Math_sin Math_cos Math_PI).
Local Abbreviation createBubble := (createBubble random).
Local Abbreviation initializeBubbles := (initializeBubbles random).
Local Abbreviation createSeed := (createSeed random).
Local Abbreviation initializeVoronoiSeeds := (initializeVoronoiSeeds random).
Local Abbreviation resize := (resize random Math_sin Math_cos Math_PI).

Ltac draw :=
  match goal with
  | |- context [random ?k] =>
      let H := fresh "H" in
      pose proof (random_unit k) as H;
      let u := fresh "u" in set (u := random k) in *; clearbody u
  end.

Lemma createBubble_spawned (r : FlowFieldRenderer) :
  yields (createBubble r) (spawned (width r) (height r)).
Proof.
  intros k. unfold createBubble, bind, Math_random, ret.
  cbv beta iota zeta. eexists _, _. split; [reflexivity|].
  unfold spawned, newborn, between, hue_ok, of_Z.
  cbn [Bubble.x Bubble.y Bubble.vx Bubble.vy Bubble.radius Bubble.hue Bubble.age
       Bubble.maxAge Bubble.popping Bubble.popProgress JS.add JS.sub JS.mul JS.neg].
  repeat draw.
  split; [repeat split|].
  repeat (split; [eexists; split; [reflexivity|lra]|]).
  intros Hw. eexists. split; [reflexivity|]. apply scaled_within; assumption.
Qed.

Lemma createSeed_sown (r : FlowFieldRenderer) :
  yields (createSeed r) (sown (width r) (height r)).
Proof.
  intros k. unfold createSeed, bind, Math_random, ret.
  cbv beta iota zeta. eexists _, _. split; [reflexivity|].
  unfold sown, hue_ok, of_Z. cbn [Seed.x Seed.y Seed.hue JS.mul].
  repeat draw.
  split; [eexists; split; [reflexivity|lra]|].
  split; intros Hw; eexists; (split; [reflexivity|]); apply scaled_within; assumption.
Qed.

Lemma createParticle_scattered (r : FlowFieldRenderer) :
  yields (createParticle r) scattered.
Proof.
  intros k. unfold createParticle, bind, Math_random, ret.
  cbv beta iota zeta. eexists _, _. split; [reflexivity|].
  unfold scattered, between.
  cbn [Particle.trail Particle.life Particle.maxLife Particle.vx Particle.vy
       Particle.size Particle.hue Particle.angularVelocity
       JS.add JS.sub JS.mul JS.neg].
  split; [reflexivity|]. split; [reflexivity|].
  repeat draw.
  repeat split; eexists; (split; [reflexivity|lra]).
Qed.

End Creation.

Section Resized.

Variable random : nat -> Q.
Variables Math_sin Math_cos : num -> num.
Variable Math_PI : num.
Hypothesis random_unit : unit_random random.

Local Abbreviation initializeParticles :=
  (initializeParticles random Math_sin Math_cos Math_PI).
Local Abbreviation initializeBubbles := (initializeBubbles random).
Local Abbreviation initializeVoronoiSeeds := (initializeVoronoiSeeds random).
Local Abbreviation resize := (resize random Math_sin Math_cos Math_PI).

Lemma initializeParticles_scattered (r : FlowFieldRenderer) (k : nat) :
  exists ps k',
    initializeParticles r k = Returned (set_particles ps r) k'
    /\ length ps = Z.to_nat (Z.min 1200 (width r * height r / 800))
    /\ Forall scattered ps.
Proof.
  unfold initializeParticles, forCount.
  rewrite floor_area, min_1200_count.
  destruct (yields_pushN (Z.to_nat (Z.min 1200 (width r * height r / 800)))
              (createParticle random Math_sin Math_cos Math_PI (set_particles [] r))
              scattered
              (createParticle_scattered random Math_sin Math_cos Math_PI random_unit _) k)
    as (ps & k' & E & Hlen & Hps).
  unfold bind, ret. rewrite E. exists ps, k'.
  split; [destruct r; reflexivity|]. split; assumption.
Qed.

Lemma initializeBubbles_spawned (r : FlowFieldRenderer) (k : nat) :
  exists bs k',
    initializeBubbles r k = Returned (set_bubbles bs r) k'
    /\ (30 <= length bs <= 49)%nat
    /\ Forall (spawned (width r) (height r)) bs.
Proof.
  unfold initializeBubbles, forCount, bind at 1,
    Math_random at 1.
  change (Fin 30) with (Fin (inject_Z 30)). rewrite count_offset.
  destruct (yields_pushN (Z.to_nat (30 + Qfloor (random k * 20)))
              (createBubble random (set_bubbles [] r))
              (spawned (width r) (height r))) with (k := S k)
    as (bs & k' & E & Hlen & Hbs).
  { replace (width r) with (width (set_bubbles [] r)) by (destruct r; reflexivity).
    replace (height r) with (height (set_bubbles [] r)) by (destruct r; reflexivity).
    apply createBubble_spawned. exact random_unit. }
  unfold bind, ret. rewrite E. exists bs, k'.
  rewrite set_bubbles_twice. split; [reflexivity|]. split; [|exact Hbs].
  pose proof (floor_scaled (random k) 20 (random_unit k) ltac:(lia)) as H.
  change (inject_Z 20) with 20 in H. lia.
Qed.

Lemma initializeVoronoiSeeds_sown (r : FlowFieldRenderer) (k : nat) :
  exists vs k',
    initializeVoronoiSeeds r k = Returned (set_voronoiSeeds vs r) k'
    /\ (15 <= length vs <= 24)%nat
    /\ Forall (sown (width r) (height r)) vs.
Proof.
  unfold initializeVoronoiSeeds, forCount, bind at 1,
    Math_random at 1.
  change (Fin 15) with (Fin (inject_Z 15)). rewrite count_offset.
  destruct (yields_pushN (Z.to_nat (15 + Qfloor (random k * 10)))
              (createSeed random (set_voronoiSeeds [] r))
              (sown (width r) (height r))) with (k := S k)
    as (vs & k' & E & Hlen & Hvs).
  { replace (width r) with (width (set_voronoiSeeds [] r)) by (destruct r; reflexivity).
    replace (height r) with (height (set_voronoiSeeds [] r)) by (destruct r; reflexivity).
    apply createSeed_sown. exact random_unit. }
  unfold bind, ret. rewrite E. exists vs, k'.
  split; [destruct r; reflexivity|]. split; [|exact Hvs].
  pose proof (floor_scaled (random k) 10 (random_unit k) ltac:(lia)) as H.
  change (inject_Z 10) with 10 in H. lia.
Qed.

Lemma resize_pools (w h : Z) (r : FlowFieldRenderer) (k : nat) :
  exists r' k',
    resize w h r k = Returned r' k'
    /\ width r' = w /\ height r' = h
    /\ scheduler r' = scheduler r /\ hueBase r' = hueBase r /\ time r' = time r
    /\ length (particles r') = Z.to_nat (Z.min 1200 (w * h / 800))
    /\ Forall scattered (particles r')
    /\ (30 <= length (bubbles r') <= 49)%nat
    /\ Forall (spawned w h) (bubbles r')
    /\ (15 <= length (voronoiSeeds r') <= 24)%nat
    /\ Forall (sown w h) (voronoiSeeds r').
Proof.
  unfold resize.
  set (r0 := set_canvas w h (set_center (of_Z w / 2)%num (of_Z h / 2)%num
                               (set_size w h r))).
  assert (Hw : width r0 = w) by (destruct r; reflexivity).
  assert (Hh : height r0 = h) by (destruct r; reflexivity).
  destruct (initializeParticles_scattered r0 k) as (ps & k1 & E1 & Hp & Hps).
  destruct (initializeBubbles_spawned (set_particles ps r0) k1)
    as (bs & k2 & E2 & Hb & Hbs).
  destruct (initializeVoronoiSeeds_sown (set_bubbles bs (set_particles ps r0)) k2)
    as (vs & k3 & E3 & Hv & Hvs).
  eexists _, k3. unfold bind. rewrite E1, E2, E3. split; [reflexivity|].
  replace (width (set_particles ps r0)) with w in Hbs by (destruct r; reflexivity).
  replace (height (set_particles ps r0)) with h in Hbs by (destruct r; reflexivity).
  replace (width (set_bubbles bs (set_particles ps r0))) with w in Hvs
    by (destruct r; reflexivity).
  replace (height (set_bubbles bs (set_particles ps r0))) with h in Hvs
    by (destruct r; reflexivity).
  rewrite Hw, Hh in Hp.
  destruct r; cbn in *. repeat split; assumption || lia.
Qed.

End Resized.

(** ** The pools along a session *)

Lemma animateSeed_hue (Math_sin Math_cos : num -> num) (I : Intensities)
  (r : FlowFieldRenderer) (i : nat) (seed : Seed.t) :
  in_unit (midIntensity I) -> hue_ok (Seed.hue seed) ->
  hue_ok (Seed.hue (animateSeed Math_sin Math_cos I r i seed)).
Proof.
  intros (m & Em & Hm) (q & Eq & Hq). unfold animateSeed. cbn [Seed.hue].
  rewrite Em, Eq. cbn [JS.add]. apply rem_360_range. lra.
Qed.

Lemma renderVoronoi_pools (Math_sin Math_cos : num -> num) (I : Intensities)
  (r : FlowFieldRenderer) (hues : bool) (n m : nat) :
  (hues = true -> in_unit (midIntensity I)) ->
  pools hues n m r -> pools hues n m (renderVoronoi Math_sin Math_cos I r).
Proof.
  intros Hmid (H1 & H2 & H3 & H4). unfold pools, renderVoronoi.
  destruct r; cbn in *. split; [exact H1|]. split; [exact H2|].
  split; [rewrite length_imap; exact H3|].
  intros Hh. specialize (H4 Hh). specialize (Hmid Hh).
  apply Forall_lookup. intros i s Hs. rewrite list_lookup_imap in Hs.
  destruct (voronoiSeeds0 !! i) as [s0|] eqn:E; [|discriminate].
  cbn in Hs. injection Hs as <-.
  apply animateSeed_hue; [exact Hmid|].
  rewrite Forall_lookup in H4. exact (H4 i s0 E).
Qed.

Lemma swarmPool_pools (Math_sqrt : num -> num) (I : Intensities)
  (r : FlowFieldRenderer) (hues : bool) (n m : nat) :
  pools hues n m r -> pools hues n m (renderSwarm Math_sqrt I r).
Proof.
  intros (H1 & H2 & H3 & H4).
  assert (H : Forall2 (fun p p' => short p -> short p') (particles r)
                (swarmPool Math_sqrt I r)).
  { apply swarmPool_each. intros pool i p Hp. unfold short, flockParticle in *.
    cbn [Particle.trail]. rewrite pushTrail_length by exact Hp. lia. }
  unfold pools, renderSwarm. destruct r; cbn in *.
  split; [rewrite <- (Forall2_length _ _ _ H); exact H1|]. split; [|split; assumption].
  clear H1. induction H as [|p p' ps ps' Hp _ IH]; [constructor|].
  inversion H2; subst. constructor; auto.
Qed.

Section PoolsSession.

Variable random : nat -> Q.
Variables Math_sin Math_cos Math_sqrt : num -> num.
Variable Math_pow : num -> num -> num.
Variable Math_PI : num.

Local Abbreviation renderPattern :=
  (renderPattern random Math_sin Math_cos Math_pow (swarmPool Math_sqrt)).
Local Abbreviation render :=
  (render random Math_sin Math_cos Math_pow (swarmPool Math_sqrt)).
Local Abbreviation renderAll :=
  (renderAll random Math_sin Math_cos Math_pow (swarmPool Math_sqrt)).
Local Abbreviation resize := (resize random Math_sin Math_cos Math_PI).

Lemma renderPattern_pools (fuel : nat) (pattern : Pattern.t) (I : Intensities)
  (r : FlowFieldRenderer) (cap : nat) (hues : bool) (n m : nat) :
  countBelow (maxIterOf I) = Some cap -> (cap <= fuel)%nat ->
  (hues = true -> in_unit (midIntensity I)) ->
  pools hues n m r -> yields (renderPattern fuel pattern I r) (pools hues n m).
Proof.
  intros Hcap Hfuel Hmid Hp. destruct pattern; cbn [renderPattern];
    try (apply yields_ret; exact Hp).
  - eapply yields_bind;
      [apply (renderFractal_yields Math_sin Math_cos Math_pow fuel I r cap Hcap Hfuel)|].
    intros [r' image] [Hr' _]. cbn [fst] in Hr'. apply yields_ret. subst r'.
    destruct r. exact Hp.
  - eapply yields_weaken; [apply renderBubbles_yields|].
    intros r' (pool & updated & _ & _ & ->). destruct r. exact Hp.
  - apply yields_ret. apply renderVoronoi_pools; assumption.
  - apply yields_ret. apply (swarmPool_pools Math_sqrt I r hues n m Hp).
Qed.

Lemma render_pools (fuel : nat) (d : Uint8Array) (N : Z) (r : FlowFieldRenderer)
  (hues : bool) (n m : nat) :
  (100 <= fuel)%nat -> (hues = true -> validFrame N d) ->
  pools hues n m r -> yields (render fuel d N r) (pools hues n m).
Proof.
  intros Hfuel Hv Hp. unfold render.
  set (I := audioMetrics d N).
  destruct (maxIter_cap (audioIntensity I) (audioIntensity_capped _ _))
    as (cap & Hcap & Hle).
  change (countBelow (maxIterOf I) = Some cap) in Hcap.
  assert (Hc : (cap <= fuel)%nat) by lia.
  assert (Hmid : hues = true -> in_unit (midIntensity I)).
  { intros Hh. exact (proj1 (proj2 (proj2 (audioMetrics_in_unit d N (Hv Hh))))). }
  set (r1 := updatePatternTransition (audioIntensity I) _).
  assert (Hp1 : pools hues n m r1).
  { subst r1.
    match goal with
    | |- context [updatePatternTransition ?a ?x] =>
        destruct (updatePatternTransition_frame a x) as (_ & H1 & _ & H2 & _)
    end.
    unfold pools. rewrite H1, H2. destruct r. exact Hp. }
  destruct (isTransitioning r1).
  - eapply yields_bind; [apply (renderPattern_pools fuel _ I r1 cap hues n m Hcap Hc Hmid Hp1)|].
    intros r2 Hp2. apply (renderPattern_pools fuel _ I r2 cap hues n m Hcap Hc Hmid Hp2).
  - apply (renderPattern_pools fuel _ I r1 cap hues n m Hcap Hc Hmid Hp1).
Qed.

Lemma renderAll_pools (fuel : nat) (frames : list Uint8Array) (N : Z)
  (hues : bool) (n m : nat) :
  (100 <= fuel)%nat -> (hues = true -> Forall (validFrame N) frames) ->
  forall r, pools hues n m r -> yields (renderAll fuel frames N r) (pools hues n m).
Proof.
  intros Hfuel. induction frames as [|d frames IH]; intros Hv r Hp;
    cbn [renderAll].
  - apply yields_ret. exact Hp.
  - eapply yields_bind.
    + apply (render_pools fuel d N r hues n m Hfuel); [|exact Hp].
      intros Hh. specialize (Hv Hh). inversion Hv; assumption.
    + intros r1 Hp1. apply IH; [|exact Hp1].
      intros Hh. specialize (Hv Hh). inversion Hv; assumption.
Qed.

End PoolsSession.

Section Population.

Variable random : nat -> Q.
Variables Math_sin Math_cos Math_sqrt : num -> num.
Variable Math_pow : num -> num -> num.
Variable Math_PI : num.

Local Abbreviation renderAll :=
  (renderAll random Math_sin Math_cos Math_pow (swarmPool Math_sqrt)).
Local Abbreviation resize := (resize random Math_sin Math_cos Math_PI).


(** X14. After [resize], whatever the frames: no pattern creates or deletes
    a particle or a seed, the swarm being the only pattern that touches the
    particles and the Voronoi pattern the only one that touches the seeds;
    every trail has at most 20 points; and on valid frames every seed hue
    stays in [0, 360). *)
Theorem particles_and_seeds_along_a_session (fuel : nat) (w h : Z)
  (r : FlowFieldRenderer) (k : nat) (frames : list Uint8Array) (N : Z) :
  (100 <= fuel)%nat -> unit_random random ->
  exists r1 k1 r' k',
    resize w h r k = Returned r1 k1
    /\ renderAll fuel frames N r1 k1 = Returned r' k'
    /\ length (particles r') = length (particles r1)
    /\ Forall short (particles r')
    /\ length (voronoiSeeds r') = length (voronoiSeeds r1)
    /\ (Forall (validFrame N) frames ->
        Forall (fun s => hue_ok (Seed.hue s)) (voronoiSeeds r')).
Proof.
  intros Hfuel Hr.
  destruct (resize_pools random Math_sin Math_cos Math_PI Hr w h r k)
    as (r1 & k1 & E1 & _ & _ & _ & _ & _ & _ & Hps & _ & _ & _ & Hvs).
  assert (Hshort : Forall short (particles r1)).
  { eapply Forall_impl; [exact Hps|]. intros p (Ht & _). unfold short. rewrite Ht. cbn. lia. }
  assert (Hhue : Forall (fun s => hue_ok (Seed.hue s)) (voronoiSeeds r1)).
  { eapply Forall_impl; [exact Hvs|]. intros s (Hs & _). exact Hs. }
  destruct (renderAll_pools random Math_sin Math_cos Math_sqrt Math_pow fuel frames N
              false _ _ Hfuel ltac:(discriminate) r1
              (conj eq_refl (conj Hshort (conj eq_refl (fun H => Hhue)))) k1)
    as (r' & k' & E & H1 & H2 & H3 & _).
  exists r1, k1, r', k'. split; [exact E1|]. split; [exact E|].
  split; [exact H1|]. split; [exact H2|]. split; [exact H3|].
  intros Hv.
  destruct (renderAll_pools random Math_sin Math_cos Math_sqrt Math_pow fuel frames N
              true _ _ Hfuel (fun _ => Hv) r1
              (conj eq_refl (conj Hshort (conj eq_refl (fun H => Hhue)))) k1)
    as (r'' & k'' & E' & _ & _ & _ & H4).
  rewrite E in E'. injection E' as <- _. exact (H4 eq_refl).
Qed.

End Population.

Lemma demo_random_unit : unit_random Demo.random.
Proof. intros k. unfold Demo.random. lra. Qed.


Lemma particles_and_seeds_along_a_session_witness :
  (100 <= 100)%nat /\ unit_random Demo.random
  /\ exists r1 k1 r' k',
       Demo.resize 80 60 (fieldInitializers 16 16) 0%nat = Returned r1 k1
       /\ renderAll Demo.random Demo.Math_sin Demo.Math_cos Demo.Math_pow
            (swarmPool sqrt_ceil) 100 [Demo.quiet; Demo.loud; []] 8 r1 k1
          = Returned r' k'
       /\ length (particles r') = length (particles r1)
       /\ length (voronoiSeeds r') = length (voronoiSeeds r1).
Proof.
  assert (H1 : (100 <= 100)%nat) by lia.
  split; [exact H1|]. split; [exact demo_random_unit|].
  destruct (particles_and_seeds_along_a_session Demo.random Demo.Math_sin Demo.Math_cos
              sqrt_ceil Demo.Math_pow Demo.Math_PI 100 80 60 (fieldInitializers 16 16)
              0%nat [Demo.quiet; Demo.loud; []] 8 H1 demo_random_unit)
    as (r1 & k1 & r' & k' & E1 & E & Hp & _ & Hv & _).
  exists r1, k1, r', k'. auto.
Defined.

(** ** The seeds and the colours of the Voronoi pattern *)

Lemma imap_same_hues (vs vs0 : list Seed.t) :
  Forall2 (fun a b => Seed.hue a = Seed.hue b) vs vs0 ->
  forall f : nat -> Seed.t -> Seed.t,
    (forall i a b, Seed.hue a = Seed.hue b -> f i a = f i b) ->
    imap f vs = imap f vs0.
Proof.
  induction 1 as [|a b vs vs0 Hab _ IH]; intros f Hf; [reflexivity|].
  rewrite !imap_cons. f_equal; [apply Hf; exact Hab|].
  apply IH. intros i x y Hxy. apply Hf. exact Hxy.
Qed.

Lemma same_hues (vs vs0 : list Seed.t) :
  map Seed.hue vs = map Seed.hue vs0 ->
  Forall2 (fun a b => Seed.hue a = Seed.hue b) vs vs0.
Proof.
  revert vs0. induction vs as [|a vs IH]; intros [|b vs0] H; try discriminate.
  - constructor.
  - cbn in H. injection H as H1 H2. constructor; [exact H1|apply IH; exact H2].
Qed.

Section VoronoiSeeds.

Variables Math_sin Math_cos : num -> num.

Local Abbreviation animateSeed := (animateSeed Math_sin Math_cos).
Local Abbreviation renderVoronoi := (renderVoronoi Math_sin Math_cos).


End VoronoiSeeds.

Lemma finite_not_negative (a : num) :
  (0 <=? a)%num = true -> (a <? Inf false)%num = true ->
  exists q, a = Fin q /\ 0 <= q.
Proof.
  destruct a as [|[|]|q]; cbn; try discriminate.
  intros H _. apply Qle_bool_iff in H. exists q. split; [reflexivity|exact H].
Qed.

Lemma voronoiColor_ok (I : Intensities) (m : Q) (seed : Seed.t) :
  in_unit (audioIntensity I) -> hue_ok (Seed.hue seed) -> 0 <= m ->
  rgb_ok (voronoiColor I (Fin m) seed).
Proof.
  intros (a & Ea & Ha) (h & Eh & Hh) Hm. unfold voronoiColor.
  rewrite Ea, Eh. rewrite (div_const m 200) by lra.
  destruct (min_one_unit (m / 200)) as (dn & -> & Hdn).
  { apply Qle_shift_div_l; lra. }
  cbn [JS.add JS.mul]. rewrite !div_const by lra.
  apply hslToRgb_channels; apply Qdiv_between; lra.
Qed.

Lemma renderVoronoi_hues (Math_sin Math_cos : num -> num) (I : Intensities)
  (r : FlowFieldRenderer) :
  in_unit (midIntensity I) ->
  Forall (fun s => hue_ok (Seed.hue s)) (voronoiSeeds r) ->
  Forall (fun s => hue_ok (Seed.hue s))
    (voronoiSeeds (renderVoronoi Math_sin Math_cos I r)).
Proof.
  intros Hmid Hh. unfold renderVoronoi. destruct r; cbn in *.
  apply Forall_lookup. intros i s Hs. rewrite list_lookup_imap in Hs.
  destruct (voronoiSeeds0 !! i) as [s0|] eqn:E; [|discriminate].
  cbn in Hs. injection Hs as <-.
  apply animateSeed_hue; [exact Hmid|].
  rewrite Forall_lookup in Hh. exact (Hh i s0 E).
Qed.

Section VoronoiColours.

Variable Math_sqrt : num -> num.

Local Abbreviation seedDistance := (seedDistance Math_sqrt).
Local Abbreviation findClosest := (findClosest Math_sqrt).
Local Abbreviation voronoiBlock := (voronoiBlock Math_sqrt).
Local Abbreviation voronoiImage := (voronoiImage Math_sqrt).

Lemma voronoiBlock_ok (I : Intensities) (seeds : list Seed.t) (y x : Z) :
  sqrt_not_negative Math_sqrt ->
  in_unit (audioIntensity I) ->
  Forall (fun s => hue_ok (Seed.hue s)) seeds ->
  match voronoiBlock I seeds y x with
  | Some rgb => rgb_ok rgb
  | None => True
  end.
Proof.
  intros Hsqrt Ha Hh. unfold voronoiBlock.
  pose proof (findClosest_nearest Math_sqrt seeds x y) as H.
  destruct (findClosest seeds x y) as [minDist [seed|]]; [|exact Logic.I].
  cbn [nearest] in H. destruct H as (Em & Hfin & before & after & -> & _).
  assert (Hs : hue_ok (Seed.hue seed)).
  { apply Forall_app in Hh as [_ Hh]. inversion Hh; assumption. }
  destruct (Hsqrt ((of_Z x - Seed.x seed) * (of_Z x - Seed.x seed)
                   + (of_Z y - Seed.y seed) * (of_Z y - Seed.y seed))%num)
    as [E|E].
  - exfalso. rewrite Em in Hfin. unfold seedDistance in Hfin.
    cbv zeta in Hfin. rewrite E in Hfin. discriminate.
  - assert (E' : (0 <=? minDist)%num = true).
    { rewrite Em. unfold seedDistance. cbv zeta. exact E. }
    destruct (finite_not_negative minDist E' Hfin) as (m & -> & Hm).
    apply voronoiColor_ok; assumption.
Qed.

Variables Math_sin Math_cos : num -> num.

(** X16. On a valid frame, with seed hues in [0, 360) and a [Math.sqrt]
    that returns [NaN] or a number that is not negative, the diagram
    [renderVoronoi] computes for its animated seeds has one row of blocks
    for every second pixel row and one block for every second column, and
    every block that is painted gets three integer channels between 0 and
    255. *)
Theorem voronoi_colours (d : Uint8Array) (N : Z) (r : FlowFieldRenderer) :
  sqrt_not_negative Math_sqrt ->
  validFrame N d ->
  Forall (fun s => hue_ok (Seed.hue s)) (voronoiSeeds r) ->
  let I := audioMetrics d N in
  let r' := renderVoronoi Math_sin Math_cos I r in
  Forall2 (fun y row =>
             Forall2 (fun x block =>
                        block = voronoiBlock I (voronoiSeeds r') y x
                        /\ match block with
                           | Some rgb => rgb_ok rgb
                           | None => True
                           end)
               (steps2 (width r)) row)
    (steps2 (height r)) (voronoiImage I r').
Proof.
  intros Hsqrt Hv Hh I r'.
  destruct (audioMetrics_in_unit d N Hv) as (Ha & _ & Hmid & _). fold I in Ha, Hmid.
  assert (Hh' : Forall (fun s => hue_ok (Seed.hue s)) (voronoiSeeds r'))
    by (apply renderVoronoi_hues; assumption).
  unfold voronoiImage.
  replace (width r') with (width r) by (destruct r; reflexivity).
  replace (height r') with (height r) by (destruct r; reflexivity).
  apply Forall2_fmap_r, Forall_Forall2_diag, Forall_forall. intros y _.
  apply Forall2_fmap_r, Forall_Forall2_diag, Forall_forall. intros x _.
  split; [reflexivity|]. apply voronoiBlock_ok; assumption.
Qed.

End VoronoiColours.

Lemma sqrt_ceil_not_negative : sqrt_not_negative sqrt_ceil.
Proof.
  intros [|[|]|q]; cbn; auto. destruct (Qle_bool 0 q); [right|left; reflexivity].
  cbn. apply Qle_bool_iff. change 0 with (inject_Z 0). rewrite <- Zle_Qle.
  apply Z.sqrt_up_nonneg.
Qed.

Lemma voronoi_colours_witness :
  let r := set_voronoiSeeds [Seed.mk 3 4 120; Seed.mk 10 2 300]
             (set_size 4 4 (fieldInitializers 4 4)) in
  let I := audioMetrics Demo.quiet 8 in
  sqrt_not_negative sqrt_ceil /\ validFrame 8 Demo.quiet
  /\ Forall (fun s => hue_ok (Seed.hue s)) (voronoiSeeds r)
  /\ Forall (Forall (fun block => match block with
                                  | Some rgb => rgb_ok rgb
                                  | None => True
                                  end))
       (voronoiImage sqrt_ceil I (renderVoronoi Demo.Math_sin Demo.Math_cos I r)).
Proof.
  intros r I.
  assert (Hh : Forall (fun s => hue_ok (Seed.hue s)) (voronoiSeeds r)).
  { repeat constructor; eexists; (split; [reflexivity|lra]). }
  split; [exact sqrt_ceil_not_negative|]. split; [exact validFrame_quiet|].
  split; [exact Hh|].
  pose proof (voronoi_colours sqrt_ceil Demo.Math_sin Demo.Math_cos Demo.quiet 8 r
                sqrt_ceil_not_negative validFrame_quiet Hh) as H.
  cbv zeta in H. fold I in H.
  eapply Forall2_right. eapply Forall2_impl; [exact H|].
  intros y row Hrow. cbv beta.
  eapply Forall2_right. eapply Forall2_impl; [exact Hrow|].
  intros x block [_ Hb]. exact Hb.
Defined.

(** ** The life of a bubble *)

Section Life.

Variable random : nat -> Q.
Variable Math_sin : num -> num.

Local Abbreviation updateBubble := (updateBubble random Math_sin).
Local Abbreviation follow := (follow random Math_sin).

(** A popping bubble is spliced within [K] updates when [K] steps of 0.1
    take its progress to 1. *)
Lemma popping_follow (K : nat) :
  forall visits b p,
    Bubble.popping b = true -> Bubble.popProgress b = Fin p -> p < 1 ->
    1 - p <= 0.1 * inject_Z (Z.of_nat K) ->
    treble_unit visits -> (K <= length visits)%nat ->
    follow visits b = None.
Proof.
  induction K as [|K IH]; intros visits b p Hpop Hp Hp1 HK Hv Hlen.
  - change (inject_Z (Z.of_nat 0)) with 0 in HK. lra.
  - destruct Hv as [|[[I r] k] rest (t & Et & Ht) Hrest]; [cbn in Hlen; lia|].
    cbn [fst] in Et. cbn [follow].
    rewrite (updateBubble_popping random Math_sin I r b k Hpop). cbv zeta.
    rewrite Hp, Et. cbn [JS.add JS.mul JS.ge JS.le].
    destruct (Qle_bool 1 (p + (0.1 + t * 0.1))) eqn:E; [reflexivity|].
    assert (E' : p + (0.1 + t * 0.1) < 1)
      by (apply Qltb_lt; unfold Qltb; rewrite E; reflexivity).
    rewrite inject_Z_S in HK.
    apply (IH rest _ (p + (0.1 + t * 0.1))); try assumption; try reflexivity.
    + lra.
    + cbn [length] in Hlen. lia.
Qed.

(** A rising bubble ages by 1 per update and starts popping, at the latest,
    with the update that takes its age above [maxAge]. *)
Lemma rising_follow (j : nat) :
  forall visits b a m,
    Bubble.popping b = false -> Bubble.popProgress b = 0 ->
    Bubble.age b = Fin a -> Bubble.maxAge b = Fin m ->
    m - a < inject_Z (Z.of_nat j) ->
    treble_unit visits -> (j + 11 <= length visits)%nat ->
    follow visits b = None.
Proof.
  induction j as [|j IH]; intros visits b a m Hpop Hp Ha Hm Hj Hv Hlen.
  all: destruct Hv as [|[[I r] k] rest Ht Hrest]; [cbn in Hlen; lia|].
  all: cbn [follow]; cbn [length] in Hlen.
  all: destruct (updateBubble_rising random Math_sin I r b k Hpop)
         as (b' & k' & E & Hpop' & _ & _ & _ & _ & Hage & Hmax & _ & _ & Hprog).
  all: rewrite E.
  all: cbn [risen Bubble.age Bubble.maxAge] in Hpop', Hage.
  all: rewrite Ha, Hm in Hpop'; rewrite Ha in Hage; cbn [JS.add JS.gt JS.lt] in Hpop', Hage.
  all: destruct (Bubble.popping b') eqn:Eb.
  1,3: apply (popping_follow 10 rest b' 0); try assumption; try lia;
       [congruence|lra|change (inject_Z (Z.of_nat 10)) with 10; lra].
  - exfalso. symmetry in Hpop'. apply orb_false_iff in Hpop' as [Hpop' _].
    apply orb_false_iff in Hpop' as [Hpop' _]. apply Qltb_ge in Hpop'.
    change (inject_Z (Z.of_nat 0)) with 0 in Hj. lra.
  - symmetry in Hpop'. apply orb_false_iff in Hpop' as [Hpop' _].
    apply orb_false_iff in Hpop' as [Hpop' _]. apply Qltb_ge in Hpop'.
    rewrite inject_Z_S in Hj.
    apply (IH rest b' (a + 1) m); try assumption; try congruence; try lia. lra.
Qed.


End Life.


(** ** The size of the bubble pool *)

Section Population2.

Variable random : nat -> Q.
Variable Math_sin : num -> num.

Local Abbreviation updateBubble := (updateBubble random Math_sin).
Local Abbreviation renderBubbles := (renderBubbles random Math_sin).
Local Abbreviation spawnBubble := (spawnBubble random).

Lemma survivors_bounds (I : Intensities) (r : FlowFieldRenderer)
  (pool : list Bubble.t) (updated : list (Bubble.t * bool)) :
  Forall2 (fun b p => exists kb kb', updateBubble I r b kb = Returned p kb')
    pool updated ->
  (length (List.filter rising pool) <= length (survivors updated) <= length pool)%nat.
Proof.
  unfold survivors.
  induction 1 as [|b [b' s] pool updated (kb & kb' & E) _ IH];
    cbn [List.filter map fst snd length]; [lia|].
  unfold rising at 1. destruct (Bubble.popping b) eqn:Eb; cbn [negb].
  - destruct s; cbn [negb length map]; lia.
  - destruct (updateBubble_rising random Math_sin I r b kb Eb) as (b2 & k2 & E2 & _).
    rewrite E2 in E. injection E as _ <- _. cbn [negb length map]. lia.
Qed.

Lemma spawnBubble_quiet (I : Intensities) (r : FlowFieldRenderer) :
  (bassIntensity I >? 0.5)%num = false -> spawnBubble I r = ret r.
Proof. intros H. unfold spawnBubble. rewrite H. reflexivity. Qed.

Lemma renderBubbles_quiet (I : Intensities) (r : FlowFieldRenderer) (k : nat) :
  (bassIntensity I >? 0.5)%num = false ->
  exists r' k',
    renderBubbles I r k = Returned r' k'
    /\ (length (bubbles r') <= length (bubbles r))%nat.
Proof.
  intros H. unfold renderBubbles. rewrite spawnBubble_quiet by exact H.
  unfold bind at 1, ret at 1. unfold bind. rewrite bubbleLoop_whole. unfold bind.
  destruct (updateEach_yields random Math_sin I r (bubbles r) k)
    as (updated & k' & E & Hu).
  rewrite E. eexists _, _. split; [reflexivity|].
  rewrite bubbles_set_bubbles. exact (proj2 (survivors_bounds I r _ _ Hu)).
Qed.


End Population2.

(** ** What holds of every bubble, at any time *)

Lemma spawned_sound (w h : Z) (b : Bubble.t) : spawned w h b -> sound b.
Proof.
  intros ((Hage & Hpop & Hprog) & _ & _ & Hvy & Hr & Hh & (m & Hm & Hm') & _).
  unfold sound. split; [exact Hr|]. split; [exact Hh|]. split; [exact Hvy|]. split.
  - exists 0, m. split; [exact Hage|]. split; [exact Hm|].
    split; [lra|]. split; [lra|]. intros _. lra.
  - exists 0. split; [exact Hprog|]. split; [lra|]. intros _. exact Hprog.
Qed.

Section Sound.

Variable random : nat -> Q.
Variables Math_sin Math_cos : num -> num.
Variable Math_pow : num -> num -> num.
Variable Math_PI : num.
Variable flock : Intensities -> FlowFieldRenderer -> list Particle.t.
Hypothesis random_unit : unit_random random.

Local Abbreviation updateBubble := (updateBubble random Math_sin).
Local Abbreviation renderBubbles := (renderBubbles random Math_sin).
Local Abbreviation spawnBubble := (spawnBubble random).
Local Abbreviation renderPattern :=
  (renderPattern random Math_sin Math_cos Math_pow flock).
Local Abbreviation render := (render random Math_sin Math_cos Math_pow flock).
Local Abbreviation renderAll := (renderAll random Math_sin Math_cos Math_pow flock).

Lemma updateBubble_sound (I : Intensities) (r : FlowFieldRenderer) (b : Bubble.t)
  (k : nat) (b' : Bubble.t) (k' : nat) :
  in_unit (trebleIntensity I) -> sound b ->
  updateBubble I r b k = Returned (b', false) k' -> sound b'.
Proof.
  intros (t & Et & Ht) (Hr & Hh & (q & Hq & Hq') & (a & m & Ha & Hm & Hm' & Ha' & Hrise)
                        & (p & Hp & Hp' & Hfresh)) E.
  destruct (Bubble.popping b) eqn:Eb.
  - rewrite (updateBubble_popping random Math_sin I r b k Eb) in E. cbv zeta in E.
    rewrite Hp, Et in E. cbn [JS.add JS.mul JS.ge JS.le] in E.
    injection E as <- E _. unfold sound.
    cbn [Bubble.radius Bubble.hue Bubble.vy Bubble.age Bubble.maxAge Bubble.popping
         Bubble.popProgress].
    split; [exact Hr|]. split; [exact Hh|]. split; [exists q; auto|]. split.
    + exists a, m. split; [exact Ha|]. split; [exact Hm|].
      split; [exact Hm'|]. split; [exact Ha'|discriminate].
    + eexists. split; [reflexivity|]. split; [|discriminate].
      assert (E' : p + (0.1 + t * 0.1) < 1)
        by (apply Qltb_lt; unfold Qltb; rewrite E; reflexivity).
      lra.
  - destruct (updateBubble_rising random Math_sin I r b k Eb)
      as (b2 & k2 & E2 & Hpop' & _ & _ & _ & Hvy & Hage & Hmax & Hrad & Hhue & Hprog).
    rewrite E2 in E. injection E as -> _.
    cbn [risen Bubble.age Bubble.maxAge Bubble.vy] in Hpop', Hage, Hvy.
    rewrite Ha, Hm in Hpop'. rewrite Ha in Hage. rewrite Hq in Hvy.
    cbn [JS.add JS.sub JS.neg JS.mul JS.gt JS.lt] in Hpop', Hage, Hvy.
    specialize (Hrise eq_refl). specialize (Hfresh eq_refl).
    unfold sound. rewrite Hrad, Hhue, Hvy, Hage, Hmax, Hm, Hprog, Hfresh.
    split; [exact Hr|]. split; [exact Hh|]. split.
    { eexists. split; [reflexivity|lra]. }
    split.
    + exists (a + 1), m. split; [reflexivity|]. split; [reflexivity|].
      split; [exact Hm'|]. split; [lra|].
      intros Eb'. rewrite Eb' in Hpop'. symmetry in Hpop'.
      apply orb_false_iff in Hpop' as [Hpop' _].
      apply orb_false_iff in Hpop' as [Hpop' _]. apply Qltb_ge in Hpop'. exact Hpop'.
    + exists 0. split; [reflexivity|]. split; [lra|reflexivity].
Qed.

Lemma survivors_sound (I : Intensities) (r : FlowFieldRenderer)
  (pool : list Bubble.t) (updated : list (Bubble.t * bool)) :
  in_unit (trebleIntensity I) -> Forall sound pool ->
  Forall2 (fun b p => exists kb kb', updateBubble I r b kb = Returned p kb')
    pool updated ->
  Forall sound (survivors updated).
Proof.
  intros Ht Hs H. revert Hs. unfold survivors.
  induction H as [|b [b' s] pool updated (kb & kb' & E) _ IH]; intros Hs.
  - constructor.
  - apply Forall_cons in Hs as [Hb Hs]. cbn [List.filter map fst snd].
    destruct s; cbn [negb map fst]; [exact (IH Hs)|].
    constructor; [|exact (IH Hs)].
    exact (updateBubble_sound I r b kb b' kb' Ht Hb E).
Qed.

Lemma spawnBubble_sound (I : Intensities) (r : FlowFieldRenderer) :
  Forall sound (bubbles r) ->
  yields (spawnBubble I r)
    (fun r1 => exists pool, r1 = set_bubbles pool r /\ Forall sound pool).
Proof.
  intros Hs. unfold spawnBubble. destruct (bassIntensity I >? 0.5)%num.
  - eapply yields_bind; [apply yields_random|]. intros u _.
    destruct (u >? 0.8)%num.
    + eapply yields_bind; [apply (createBubble_spawned random random_unit)|].
      intros b Hb. apply yields_ret. eexists. split; [reflexivity|].
      apply Forall_app. split; [exact Hs|].
      constructor; [exact (spawned_sound _ _ b Hb)|constructor].
    + apply yields_ret. exists (bubbles r).
      split; [symmetry; apply set_bubbles_same|exact Hs].
  - apply yields_ret. exists (bubbles r).
    split; [symmetry; apply set_bubbles_same|exact Hs].
Qed.

Lemma renderBubbles_sound (I : Intensities) (r : FlowFieldRenderer) :
  in_unit (trebleIntensity I) -> Forall sound (bubbles r) ->
  yields (renderBubbles I r) (fun r' => Forall sound (bubbles r')).
Proof.
  intros Ht Hs. unfold renderBubbles.
  eapply yields_bind; [apply spawnBubble_sound; exact Hs|].
  intros r1 (pool & -> & Hpool) k. rewrite bubbles_set_bubbles.
  unfold bind. rewrite bubbleLoop_whole. unfold bind.
  destruct (updateEach_yields random Math_sin I (set_bubbles pool r) pool k)
    as (updated & k' & E & Hu).
  rewrite E. eexists _, _. split; [reflexivity|].
  rewrite set_bubbles_twice, bubbles_set_bubbles.
  exact (survivors_sound I (set_bubbles pool r) pool updated Ht Hpool Hu).
Qed.

Lemma renderPattern_sound (fuel : nat) (pattern : Pattern.t) (I : Intensities)
  (r : FlowFieldRenderer) (cap : nat) :
  countBelow (maxIterOf I) = Some cap -> (cap <= fuel)%nat ->
  in_unit (trebleIntensity I) -> Forall sound (bubbles r) ->
  yields (renderPattern fuel pattern I r) (fun r' => Forall sound (bubbles r')).
Proof.
  intros Hcap Hfuel Ht Hs. destruct pattern; cbn [renderPattern];
    try (apply yields_ret; exact Hs).
  - eapply yields_bind;
      [apply (renderFractal_yields Math_sin Math_cos Math_pow fuel I r cap Hcap Hfuel)|].
    intros [r' image] [Hr' _]. cbn [fst] in Hr'. apply yields_ret. subst r'.
    destruct r. exact Hs.
  - apply renderBubbles_sound; assumption.
  - apply yields_ret. destruct r. exact Hs.
  - apply yields_ret. destruct r. exact Hs.
Qed.

Lemma render_sound (fuel : nat) (d : Uint8Array) (N : Z) (r : FlowFieldRenderer) :
  (100 <= fuel)%nat -> validFrame N d -> Forall sound (bubbles r) ->
  yields (render fuel d N r) (fun r' => Forall sound (bubbles r')).
Proof.
  intros Hfuel Hv Hs. unfold render.
  set (I := audioMetrics d N).
  destruct (maxIter_cap (audioIntensity I) (audioIntensity_capped _ _))
    as (cap & Hcap & Hle).
  change (countBelow (maxIterOf I) = Some cap) in Hcap.
  assert (Hc : (cap <= fuel)%nat) by lia.
  assert (Ht : in_unit (trebleIntensity I))
    by exact (proj2 (proj2 (proj2 (audioMetrics_in_unit d N Hv)))).
  set (r1 := updatePatternTransition (audioIntensity I) _).
  assert (Hs1 : Forall sound (bubbles r1)).
  { subst r1.
    match goal with
    | |- context [updatePatternTransition ?a ?x] =>
        destruct (updatePatternTransition_frame a x) as (_ & _ & -> & _)
    end.
    destruct r. exact Hs. }
  destruct (isTransitioning r1).
  - eapply yields_bind; [apply (renderPattern_sound fuel _ I r1 cap Hcap Hc Ht Hs1)|].
    intros r2 Hs2. apply (renderPattern_sound fuel _ I r2 cap Hcap Hc Ht Hs2).
  - apply (renderPattern_sound fuel _ I r1 cap Hcap Hc Ht Hs1).
Qed.

Lemma renderAll_sound (fuel : nat) (frames : list Uint8Array) (N : Z) :
  (100 <= fuel)%nat -> Forall (validFrame N) frames ->
  forall r, Forall sound (bubbles r) ->
    yields (renderAll fuel frames N r) (fun r' => Forall sound (bubbles r')).
Proof.
  intros Hfuel. induction 1 as [|d frames Hd _ IH]; intros r Hs; cbn [renderAll].
  - apply yields_ret. exact Hs.
  - eapply yields_bind; [apply (render_sound fuel d N r Hfuel Hd Hs)|]. exact IH.
Qed.

End Sound.

Section SoundSession.

Variable random : nat -> Q.
Variables Math_sin Math_cos : num -> num.
Variable Math_pow : num -> num -> num.
Variable Math_PI : num.
Variable flock : Intensities -> FlowFieldRenderer -> list Particle.t.

Local Abbreviation renderAll := (renderAll random Math_sin Math_cos Math_pow flock).
Local Abbreviation resize := (resize random Math_sin Math_cos Math_PI).


End SoundSession.


(** ** The remainder operator *)

(** [x % 360]: in [0, 360) for a dividend that is not negative; for a
    negative dividend the result is not positive and not below the
    dividend. *)
Lemma rem_360_cases (x : Q) :
  exists q, (Fin x %% 360)%num = Fin q
            /\ (0 <= x -> 0 <= q < 360)
            /\ (x < 0 -> x <= q <= 0 /\ - 360 < q).
Proof.
  unfold JS.rem. rewrite (Qeq_bool_false 360 0) by lra.
  eexists. split; [reflexivity|].
  assert (Hx' : x == x / 360 * 360) by field.
  unfold Qtrunc. destruct (Qle_bool 0 (x / 360)) eqn:E.
  - apply Qle_bool_iff in E.
    pose proof (Qfloor_le (x / 360)) as H1.
    pose proof (Qlt_floor (x / 360)) as H2.
    rewrite inject_Z_plus in H2. change (inject_Z 1) with 1 in H2.
    set (f := inject_Z (Qfloor (x / 360))) in *.
    set (y := x / 360) in *. split; intros; repeat split; lra.
  - assert (Hy : x / 360 < 0) by (apply Qltb_lt; unfold Qltb; rewrite E; reflexivity).
    pose proof (Qle_ceiling (x / 360)) as H1.
    pose proof (Qceiling_lt (x / 360)) as H2.
    assert (H3 : (Qceiling (x / 360) <= 0)%Z).
    { assert (H : (Qceiling (x / 360) - 1 < 0)%Z).
      { rewrite Zlt_Qlt. eapply Qlt_trans; [exact H2|exact Hy]. }
      lia. }
    rewrite Zle_Qle in H3. unfold Z.sub in H2. rewrite inject_Z_plus in H2.
    rewrite inject_Z_opp in H2. change (inject_Z 1) with 1 in H2.
    change (inject_Z 0) with 0 in H3.
    set (c := inject_Z (Qceiling (x / 360))) in *.
    set (y := x / 360) in *. split; intros; repeat split; lra.
Qed.

(** [x % 1] for a dividend that is not negative. *)
Lemma rem_1_range (x : Q) :
  0 <= x -> exists q, (Fin x %% 1)%num = Fin q /\ 0 <= q < 1.
Proof.
  intros Hx. unfold JS.rem. rewrite (Qeq_bool_false 1 0) by lra.
  eexists. split; [reflexivity|].
  assert (Hx' : x == x / 1) by field.
  assert (Hy : 0 <= x / 1) by lra.
  unfold Qtrunc. rewrite (proj2 (Qle_bool_iff 0 (x / 1)) Hy).
  pose proof (Qfloor_le (x / 1)) as H1.
  pose proof (Qlt_floor (x / 1)) as H2.
  rewrite inject_Z_plus in H2. change (inject_Z 1) with 1 in H2.
  set (f := inject_Z (Qfloor (x / 1))) in *.
  set (y := x / 1) in *. lra.
Qed.

(** ** The tunnel *)

Lemma inject_Z_nonneg (z : Z) : (0 <= z)%Z -> 0 <= inject_Z z.
Proof. intros H. change 0 with (inject_Z 0). rewrite <- Zle_Qle. exact H. Qed.

Lemma ringRadius_range (I : Intensities) (r : FlowFieldRenderer) (ring : Z) :
  in_unit (bassIntensity I) -> (0 <= time r)%Z -> (0 <= ring)%Z ->
  exists m q,
    (ringZ I r ring %% 1)%num = Fin m /\ 0 <= m < 1
    /\ ringRadius I r ring = Fin q /\ 45 < q <= 500.
Proof.
  intros (b & Eb & Hb) Ht Hn. unfold ringRadius, ringZ, ringDepth, of_Z.
  rewrite Eb. rewrite (div_const (inject_Z ring) 30) by lra.
  cbn [JS.add JS.mul].
  pose proof (inject_Z_nonneg _ Ht) as Ht'. pose proof (inject_Z_nonneg _ Hn) as Hn'.
  assert (Hd : 0 <= inject_Z ring / 30) by (apply Qle_shift_div_l; lra).
  destruct (rem_1_range (inject_Z ring / 30 + inject_Z (time r) * 0.003 + b * 0.1))
    as (m & -> & Hm); [lra|].
  cbn [JS.add]. rewrite (div_const 1 (m + 0.1)) by lra. cbn [JS.mul].
  exists m. eexists. split; [reflexivity|]. split; [exact Hm|].
  split; [reflexivity|].
  assert (H : 0.905 <= 1 / (m + 0.1) <= 10) by (apply Qdiv_between; lra).
  lra.
Qed.

Lemma lookup_map_seq {A : Type} (f : nat -> A) (k n : nat) :
  (n < k)%nat -> map f (seq 0 k) !! n = Some (f n).
Proof.
  intros H. change (map f (seq 0 k)) with (f <$> seq 0 k).
  rewrite list_lookup_fmap, lookup_seq_lt by lia. reflexivity.
Qed.

Lemma product_in_unit (u w hi : Q) :
  0 < u <= 1 -> 0 < w <= hi -> 0 < u * w <= hi.
Proof.
  intros Hu Hw.
  assert (H0 : 0 < u * w) by (apply Qmult_lt_0_compat; lra).
  assert (H1 : 0 <= (1 - u) * w) by (apply Qmult_le_0_compat; lra).
  lra.
Qed.

Section Tunnel.

Variable Math_PI : num.

Local Abbreviation tunnelRing := (tunnelRing Math_PI).
Local Abbreviation renderTunnel := (renderTunnel Math_PI).

(** X20. The tunnel never divides by zero: with a bass and an audio
    intensity in [0, 1], a time that is not negative and the hue base in
    range, each of the 30 rings has a finite radius between 45 and 500. A
    ring is skipped exactly when its radius exceeds twice the larger side of
    the surface, so on a surface with a side of 250 or more every ring is
    drawn; a ring that is drawn has an alpha in (0, 0.5], a hue in
    [0, 360) and a line width from 1 to 4, and is filled when its index is
    a multiple of 3. *)
Theorem tunnel_rings (I : Intensities) (r : FlowFieldRenderer) :
  in_unit (audioIntensity I) -> in_unit (bassIntensity I) ->
  (0 <= time r)%Z -> hue_ok (hueBase r) ->
  length (renderTunnel I r) = 30%nat
  /\ forall n, (n < 30)%nat ->
       let ring := Z.of_nat n in
       let limit := (of_Z (Z.max (width r) (height r)) * 2)%num in
       renderTunnel I r !! n = Some (tunnelRing I r ring)
       /\ (exists q, ringRadius I r ring = Fin q /\ 45 < q <= 500)
       /\ ((250 <= Z.max (width r) (height r))%Z -> tunnelRing I r ring <> None)
       /\ match tunnelRing I r ring with
          | None => (ringRadius I r ring >? limit)%num = true
          | Some drawn =>
              ring_radius drawn = ringRadius I r ring
              /\ (ring_radius drawn >? limit)%num = false
              /\ (exists q, ring_alpha drawn = Fin q /\ 0 < q <= 0.5)
              /\ hue_ok (ring_hue drawn)
              /\ (exists q, ring_lineWidth drawn = Fin q /\ 1 <= q <= 4)
              /\ ring_filled drawn = (Z.rem ring 3 =? 0)%Z
          end.
Proof.
  intros (a & Ea & Ha) Hbass Ht (hb & Eh & Hh).
  split; [unfold renderTunnel; apply length_map|].
  intros n Hn ring limit.
  assert (Hring : (0 <= ring)%Z) by (unfold ring; lia).
  destruct (ringRadius_range I r ring Hbass Ht Hring) as (m & q & Em & Hm & Eq & Hq).
  split; [exact (lookup_map_seq (fun k => tunnelRing I r (Z.of_nat k)) 30 n Hn)|].
  split; [exists q; split; assumption|].
  unfold tunnelRing. fold limit. rewrite Eq, Em.
  destruct Hbass as (b & Eb & Hb).
  destruct (Fin q >? limit)%num eqn:E.
  - split; [|reflexivity]. intros Hbig. exfalso.
    unfold limit, of_Z in E. cbn [JS.mul JS.gt JS.lt] in E. apply Qltb_lt in E.
    rewrite Zle_Qle in Hbig. change (inject_Z 250) with 250 in Hbig. lra.
  - split; [discriminate|].
    cbn [ring_radius ring_alpha ring_hue ring_lineWidth ring_filled].
    rewrite Ea, Eb, Eh. split; [reflexivity|]. split; [exact E|].
    unfold ringDepth, of_Z. rewrite (div_const (inject_Z ring) 30) by lra.
    cbn [JS.add JS.sub JS.neg JS.mul].
    pose proof (inject_Z_nonneg _ Hring) as Hn'.
    assert (Hd : 0 <= inject_Z ring / 30) by (apply Qle_shift_div_l; lra).
    split; [|split; [|split]].
    + eexists. split; [reflexivity|].
      apply product_in_unit; lra.
    + apply rem_360_range. lra.
    + eexists. split; [reflexivity|lra].
    + reflexivity.
Qed.

End Tunnel.

Lemma tunnel_rings_witness :
  let I := audioMetrics Demo.quiet 8 in
  let r := set_size 800 600 (fieldInitializers 800 600) in
  in_unit (audioIntensity I) /\ in_unit (bassIntensity I)
  /\ (0 <= time r)%Z /\ hue_ok (hueBase r)
  /\ length (renderTunnel Demo.Math_PI I r) = 30%nat
  /\ tunnelRing Demo.Math_PI I r 0 <> None.
Proof.
  intros I r.
  destruct (audioMetrics_in_unit Demo.quiet 8 validFrame_quiet) as (Ha & Hb & _).
  assert (Ht : (0 <= time r)%Z) by (cbn; lia).
  assert (Hh : hue_ok (hueBase r)) by (exists 0; split; [reflexivity|lra]).
  split; [exact Ha|]. split; [exact Hb|]. split; [exact Ht|]. split; [exact Hh|].
  destruct (tunnel_rings Demo.Math_PI I r Ha Hb Ht Hh) as (Hlen & Hrings).
  split; [exact Hlen|].
  destruct (Hrings 0%nat ltac:(lia)) as (_ & _ & Hbig & _).
  apply Hbig. cbn. lia.
Defined.

(** ** The ray burst *)

Lemma rayCount_valid (I : Intensities) :
  in_unit (bassIntensity I) ->
  exists c, rayCount I = of_Z c /\ (24 <= c <= 48)%Z.
Proof.
  intros (b & Eb & Hb). unfold rayCount. rewrite Eb.
  cbn [JS.mul JS.floor JS.add]. exists (24 + Qfloor (b * 24))%Z. split.
  - unfold of_Z, inject_Z, Qplus. cbn [Qnum Qden]. f_equal. f_equal. lia.
  - assert (H0 : (Qfloor 0 <= Qfloor (b * 24))%Z) by (apply Qfloor_resp_le; lra).
    assert (H1 : (Qfloor (b * 24) <= Qfloor 24)%Z) by (apply Qfloor_resp_le; lra).
    change (Qfloor 0) with 0%Z in H0. change (Qfloor 24) with 24%Z in H1. lia.
Qed.

Lemma length_flat_map_const {A B : Type} (f : A -> list B) (l : list A) (n : nat) :
  (forall a, length (f a) = n) -> length (flat_map f l) = (n * length l)%nat.
Proof.
  intros H. induction l as [|a l IH]; cbn [flat_map length]; [lia|].
  rewrite length_app, H, IH. lia.
Qed.

Lemma ray_share (i c : Z) :
  (0 <= i < c)%Z -> 0 <= inject_Z i * (360 / inject_Z c) < 360.
Proof.
  intros Hi.
  assert (Hc : 0 < inject_Z c)
    by (change 0 with (inject_Z 0); rewrite <- Zlt_Qlt; lia).
  assert (Hi0 : 0 <= inject_Z i) by (apply inject_Z_nonneg; lia).
  assert (Hic : inject_Z i < inject_Z c) by (rewrite <- Zlt_Qlt; lia).
  assert (Hk : 0 < 360 / inject_Z c) by (apply Qlt_shift_div_l; lra).
  assert (E : inject_Z c * (360 / inject_Z c) == 360) by (field; lra).
  set (k := 360 / inject_Z c) in *.
  assert (H0 : 0 <= inject_Z i * k) by (apply Qmult_le_0_compat; lra).
  assert (H1 : inject_Z i * k < inject_Z c * k)
    by (apply Qmult_lt_compat_r; assumption).
  lra.
Qed.

Section Rays.

Variables Math_sin Math_cos : num -> num.
Variable Math_PI : num.

Local Abbreviation rayStroke := (rayStroke Math_sin Math_cos Math_PI).
Local Abbreviation renderRays := (renderRays Math_sin Math_cos Math_PI).

Lemma rayStroke_ok (I : Intensities) (r : FlowFieldRenderer) (c i offset : Z) :
  in_unit (audioIntensity I) -> in_unit (trebleIntensity I) -> hue_ok (hueBase r) ->
  rayCount I = of_Z c -> (0 <= i < c)%Z -> In offset rayOffsets ->
  stroke_ok c (rayStroke I r i offset).
Proof.
  intros (a & Ea & Ha) (t & Et & Ht) (hb & Eh & Hh) Ec Hi Ho.
  unfold stroke_ok, rayStroke.
  cbn [ray_index ray_offset ray_alpha ray_hue ray_width].
  split; [exact Hi|]. split; [exact Ho|].
  rewrite Ea, Et, Eh, Ec. unfold of_Z.
  assert (Hc : 0 < inject_Z c)
    by (change 0 with (inject_Z 0); rewrite <- Zlt_Qlt; lia).
  rewrite (div_const 360 (inject_Z c)) by lra.
  cbn [JS.add JS.sub JS.neg JS.mul].
  pose proof (ray_share i c Hi) as Hshare.
  set (share := inject_Z i * (360 / inject_Z c)) in *.
  assert (Hoff : (offset = -2 \/ offset = -1 \/ offset = 0 \/ offset = 1 \/ offset = 2)%Z).
  { unfold rayOffsets in Ho. cbn in Ho. intuition lia. }
  split; [|split].
  - eexists. split; [reflexivity|].
    destruct Hoff as [->|[->|[->|[->| ->]]]];
      match goal with
      | |- context [inject_Z (Z.abs ?z)] =>
          let v := eval compute in (Z.abs z) in
          change (inject_Z (Z.abs z)) with (v # 1)
      end; lra.
  - destruct (rem_360_cases (hb + share + inject_Z offset * 10)) as (q & -> & Hpos & Hneg).
    exists q. split; [reflexivity|].
    assert (Hrange : - 20 <= inject_Z offset * 10 <= 20).
    { destruct Hoff as [->|[->|[->|[->| ->]]]];
        match goal with
        | |- context [inject_Z ?z] => change (inject_Z z) with (z # 1)
        end; lra. }
    destruct (Qlt_le_dec (hb + share + inject_Z offset * 10) 0) as [Hlt|Hge].
    + destruct (Hneg Hlt) as [H1 H2]. lra.
    + specialize (Hpos Hge). lra.
  - eexists. split; [reflexivity|lra].
Qed.

(** X21. With intensities in [0, 1] and the hue base in range the ray burst
    draws between 24 and 48 rays ([24 + floor(bass * 24)]), five strokes
    each: every stroke has an alpha between 0.06 and 0.3 and a line width
    between 2 and 10; its hue is between -20 and 360, since the chromatic
    offset is added before the remainder is taken and the remainder of a
    negative number is negative. With a bass intensity of [NaN] (an array of
    fewer than 7 bins) the loop condition fails at once and no ray is
    drawn. *)
Theorem ray_burst (I : Intensities) (r : FlowFieldRenderer) :
  (in_unit (audioIntensity I) -> in_unit (bassIntensity I) ->
   in_unit (trebleIntensity I) -> hue_ok (hueBase r) ->
   exists c,
     (24 <= c <= 48)%Z /\ rayCount I = of_Z c
     /\ forall k, exists strokes,
          renderRays I r k = Returned strokes k
          /\ length strokes = (5 * Z.to_nat c)%nat
          /\ Forall (stroke_ok c) strokes)
  /\ (bassIntensity I = NaN -> forall k, renderRays I r k = Returned [] k).
Proof.
  split.
  - intros Ha Hb Ht Hh. destruct (rayCount_valid I Hb) as (c & Ec & Hc).
    exists c. split; [exact Hc|]. split; [exact Ec|]. intros k.
    unfold renderRays, forCount. rewrite Ec, countBelow_of_Z.
    unfold bind, ret. eexists. split; [reflexivity|]. split.
    + rewrite (length_flat_map_const _ _ 5) by reflexivity.
      rewrite length_seq. reflexivity.
    + apply Forall_flat_map, Forall_forall. intros i Hi.
      apply list_elem_of_In, in_seq in Hi.
      apply Forall_forall. intros s Hs. apply list_elem_of_In, in_map_iff in Hs.
      destruct Hs as (offset & <- & Ho).
      apply rayStroke_ok; try assumption. lia.
  - intros Hb k. unfold renderRays, forCount, rayCount. rewrite Hb. reflexivity.
Qed.

End Rays.

Lemma ray_burst_witness :
  let I := audioMetrics Demo.quiet 8 in
  let r := set_size 800 600 (fieldInitializers 800 600) in
  in_unit (audioIntensity I) /\ in_unit (bassIntensity I)
  /\ in_unit (trebleIntensity I) /\ hue_ok (hueBase r)
  /\ exists c strokes,
       (24 <= c <= 48)%Z
       /\ renderRays Demo.Math_sin Demo.Math_cos Demo.Math_PI I r 0%nat
          = Returned strokes 0%nat
       /\ Forall (stroke_ok c) strokes.
Proof.
  intros I r.
  destruct (audioMetrics_in_unit Demo.quiet 8 validFrame_quiet) as (Ha & Hb & _ & Ht).
  assert (Hh : hue_ok (hueBase r)) by (exists 0; split; [reflexivity|lra]).
  split; [exact Ha|]. split; [exact Hb|]. split; [exact Ht|]. split; [exact Hh|].
  destruct (proj1 (ray_burst Demo.Math_sin Demo.Math_cos Demo.Math_PI I r) Ha Hb Ht Hh)
    as (c & Hc & _ & H).
  destruct (H 0%nat) as (strokes & E & _ & Hs).
  exists c, strokes. auto.
Defined.

(** ** The plasma *)

Lemma square_nonneg (a : Q) : 0 <= a * a.
Proof.
  destruct (Qlt_le_dec a 0) as [H|H].
  - assert (H' : 0 <= (- a) * (- a)) by (apply Qmult_le_0_compat; lra).
    assert (E : (- a) * (- a) == a * a) by ring. rewrite E in H'. exact H'.
  - apply Qmult_le_0_compat; exact H.
Qed.

Section Plasma.

Variables Math_sin Math_sqrt : num -> num.
Hypothesis sin_range : sin_bounded Math_sin.
Hypothesis sqrt_range : sqrt_finite Math_sqrt.

Local Abbreviation plasmaValue := (plasmaValue Math_sin Math_sqrt).
Local Abbreviation plasmaBlock := (plasmaBlock Math_sin Math_sqrt).
Local Abbreviation renderPlasma := (renderPlasma Math_sin Math_sqrt).

Lemma plasmaValue_range (I : Intensities) (r : FlowFieldRenderer) (y x : Z) :
  in_unit (audioIntensity I) ->
  (exists cx cy, centerX r = Fin cx /\ centerY r = Fin cy) ->
  exists p, plasmaValue I r y x = Fin p /\ - 1 <= p <= 1.
Proof.
  intros (a & Ea & Ha) (cx & cy & Ecx & Ecy). unfold plasmaValue, of_Z.
  rewrite Ea, Ecx, Ecy. cbn [JS.add JS.sub JS.neg JS.mul].
  rewrite !div_const by lra.
  destruct (sqrt_range ((inject_Z x + - cx) * (inject_Z x + - cx)
                        + (inject_Z y + - cy) * (inject_Z y + - cy)))
    as (s & ->).
  { pose proof (square_nonneg (inject_Z x + - cx)).
    pose proof (square_nonneg (inject_Z y + - cy)). lra. }
  cbn [JS.add JS.mul].
  repeat match goal with
         | |- context [Math_sin (Fin ?q)] =>
             let v := fresh "v" in let E := fresh "E" in let H := fresh "H" in
             destruct (sin_range q) as (v & E & H); rewrite E; clear E
         end.
  cbn [JS.add]. rewrite div_const by lra.
  eexists. split; [reflexivity|]. apply Qdiv_between; lra.
Qed.

Lemma plasmaBlock_ok (I : Intensities) (r : FlowFieldRenderer) (y x : Z) :
  in_unit (audioIntensity I) -> in_unit (bassIntensity I) ->
  in_unit (midIntensity I) -> hue_ok (hueBase r) ->
  (exists cx cy, centerX r = Fin cx /\ centerY r = Fin cy) ->
  rgb_ok (plasmaBlock I r y x).
Proof.
  intros Ha (b & Eb & Hb) (m & Em & Hm) (hb & Eh & Hh) Hc. unfold plasmaBlock.
  destruct (plasmaValue_range I r y x Ha Hc) as (p & -> & Hp).
  destruct Ha as (a & Ea & Ha). rewrite Ea, Eb, Em, Eh.
  cbn [JS.add JS.mul].
  destruct (rem_360_cases (hb + p * 180 + b * 60)) as (q & -> & Hpos & Hneg).
  rewrite !div_const by lra.
  assert (Hq : - 180 <= q < 360).
  { destruct (Qlt_le_dec (hb + p * 180 + b * 60) 0) as [Hlt|Hge].
    - destruct (Hneg Hlt) as [H1 H2]. lra.
    - specialize (Hpos Hge). lra. }
  apply hslToRgb_channels; apply Qdiv_between; lra.
Qed.

End Plasma.

(** X22. On a valid frame, with the hue base in range, a finite centre and
    [Math.sin] and [Math.sqrt] within their ranges, every block of the
    plasma gets three integer channels between 0 and 255, although the hue
    handed to [hslToRgb] can be negative (down to -180 degrees): the plasma
    value is between -1 and 1 and is added to the hue base before the
    remainder is taken. *)
Theorem plasma_colours (Math_sin Math_sqrt : num -> num) (d : Uint8Array) (N : Z)
  (r : FlowFieldRenderer) :
  sin_bounded Math_sin -> sqrt_finite Math_sqrt ->
  validFrame N d -> hue_ok (hueBase r) ->
  (exists cx cy, centerX r = Fin cx /\ centerY r = Fin cy) ->
  let I := audioMetrics d N in
  Forall2 (fun y row =>
             Forall2 (fun x block =>
                        block = plasmaBlock Math_sin Math_sqrt I r y x
                        /\ rgb_ok block
                        /\ exists p, plasmaValue Math_sin Math_sqrt I r y x = Fin p
                                     /\ - 1 <= p <= 1)
               (steps2 (width r)) row)
    (steps2 (height r)) (renderPlasma Math_sin Math_sqrt I r).
Proof.
  intros Hsin Hsqrt Hv Hh Hc I.
  destruct (audioMetrics_in_unit d N Hv) as (Ha & Hb & Hm & _). fold I in Ha, Hb, Hm.
  unfold renderPlasma.
  apply Forall2_fmap_r, Forall_Forall2_diag, Forall_forall. intros y _.
  apply Forall2_fmap_r, Forall_Forall2_diag, Forall_forall. intros x _.
  split; [reflexivity|]. split.
  - apply plasmaBlock_ok; assumption.
  - apply plasmaValue_range; assumption.
Qed.

Lemma demo_sin_bounded : sin_bounded Demo.Math_sin.
Proof. intros q. exists 0. split; [reflexivity|lra]. Qed.

Lemma sqrt_ceil_finite : sqrt_finite sqrt_ceil.
Proof.
  intros q Hq. unfold sqrt_ceil. rewrite (proj2 (Qle_bool_iff 0 q) Hq).
  eexists. reflexivity.
Qed.

Lemma plasma_colours_witness :
  let r := set_center 2 2 (set_size 4 4 (fieldInitializers 4 4)) in
  let I := audioMetrics Demo.quiet 8 in
  sin_bounded Demo.Math_sin /\ sqrt_finite sqrt_ceil
  /\ validFrame 8 Demo.quiet /\ hue_ok (hueBase r)
  /\ (exists cx cy, centerX r = Fin cx /\ centerY r = Fin cy)
  /\ Forall (Forall rgb_ok) (renderPlasma Demo.Math_sin sqrt_ceil I r).
Proof.
  intros r I.
  assert (Hh : hue_ok (hueBase r)) by (exists 0; split; [reflexivity|lra]).
  assert (Hc : exists cx cy, centerX r = Fin cx /\ centerY r = Fin cy)
    by (exists 2, 2; split; reflexivity).
  split; [exact demo_sin_bounded|]. split; [exact sqrt_ceil_finite|].
  split; [exact validFrame_quiet|]. split; [exact Hh|]. split; [exact Hc|].
  pose proof (plasma_colours Demo.Math_sin sqrt_ceil Demo.quiet 8 r
                demo_sin_bounded sqrt_ceil_finite validFrame_quiet Hh Hc) as H.
  cbv zeta in H. fold I in H.
  eapply Forall2_right. eapply Forall2_impl; [exact H|].
  intros y row Hrow. cbv beta.
  eapply Forall2_right. eapply Forall2_impl; [exact Hrow|].
  intros x block (_ & Hb & _). exact Hb.
Defined.

(** ** The pixel blocks *)

Lemma steps2_spec (bound v : Z) :
  In v (steps2 bound) <-> (0 <= v < bound)%Z /\ exists k, v = (2 * k)%Z.
Proof.
  unfold steps2. rewrite in_map_iff. split.
  - intros (k & <- & Hk). apply in_seq in Hk. split.
    + assert (H : (Z.of_nat k < (bound + 1) / 2)%Z) by lia.
      Z.to_euclidean_division_equations; lia.
    + exists (Z.of_nat k). reflexivity.
  - intros (Hv & k & ->). exists (Z.to_nat k). split; [lia|].
    apply in_seq. split; [lia|]. cbn [Nat.add].
    assert (H : (k < (bound + 1) / 2)%Z) by (Z.to_euclidean_division_equations; lia).
    lia.
Qed.

Lemma blockSteps_spec (bound v d : Z) :
  (v < bound)%Z ->
  In d (blockSteps bound v) <-> (d = 0 \/ d = 1)%Z /\ (v + d < bound)%Z.
Proof.
  intros Hv. unfold blockSteps.
  destruct (v + 0 <? bound)%Z eqn:E0; [|apply Z.ltb_ge in E0; lia].
  destruct (v + 1 <? bound)%Z eqn:E1;
    [apply Z.ltb_lt in E1|apply Z.ltb_ge in E1]; cbn [In]; intuition lia.
Qed.

Lemma blockWrites_spec (width height py px i : Z) :
  (py < height)%Z -> (px < width)%Z ->
  In i (blockWrites width height py px) <->
  exists dy dx, ((dy = 0 \/ dy = 1) /\ py + dy < height)%Z /\
                ((dx = 0 \/ dx = 1) /\ px + dx < width)%Z /\
                i = (((py + dy) * width + (px + dx)) * 4)%Z.
Proof.
  intros Hy Hx. unfold blockWrites. rewrite in_flat_map. split.
  - intros (dy & Hdy & Hi). apply in_map_iff in Hi as (dx & <- & Hdx).
    apply blockSteps_spec in Hdy; [|exact Hy].
    apply blockSteps_spec in Hdx; [|exact Hx].
    exists dy, dx. auto.
  - intros (dy & dx & Hdy & Hdx & ->). exists dy. split.
    + apply blockSteps_spec; assumption.
    + apply in_map_iff. exists dx. split; [reflexivity|].
      apply blockSteps_spec; assumption.
Qed.

(** A pixel's index determines its row and its column. *)
Lemma cell_unique (w r1 c1 r2 c2 : Z) :
  (0 <= c1 < w)%Z -> (0 <= c2 < w)%Z ->
  ((r1 * w + c1) * 4 = (r2 * w + c2) * 4)%Z -> r1 = r2 /\ c1 = c2.
Proof.
  intros H1 H2 E.
  assert (r1 = r2) as ->; [|split; [reflexivity|lia]].
  destruct (Z.lt_trichotomy r1 r2) as [H|[H|H]]; [exfalso|exact H|exfalso]; nia.
Qed.

Lemma NoDup_steps2 (bound : Z) : NoDup (steps2 bound).
Proof.
  unfold steps2. change (map ?f ?l) with (f <$> l).
  apply NoDup_fmap_2; [|apply NoDup_seq].
  intros a b E. lia.
Qed.

Lemma NoDup_blockSteps (bound v : Z) : NoDup (blockSteps bound v).
Proof.
  unfold blockSteps.
  destruct (v + 0 <? bound)%Z; [|constructor].
  destruct (v + 1 <? bound)%Z.
  - apply NoDup_cons. split; [|apply NoDup_singleton].
    intros H. apply list_elem_of_In in H. cbn in H. lia.
  - apply NoDup_singleton.
Qed.

(** X23. The 2x2 blocks of the pixel loops tile the surface. Whatever the
    width and the height, every write of a frame that paints all its blocks,
    as the fractal and the plasma do, goes to a pixel of the surface, so
    that its four bytes lie inside the [width * height * 4] bytes of the
    image data, also where the width or the height is odd and the last block
    is cut; every pixel of the surface is written; and no pixel is written
    twice. The Voronoi diagram paints the blocks for which a seed was found:
    its writes are among these. *)
Theorem pixel_blocks_tile_the_surface (width height : Z) :
  (forall i, In i (imageWrites width height) ->
     (exists px py, (0 <= px < width)%Z /\ (0 <= py < height)%Z /\
                    i = ((py * width + px) * 4)%Z) /\
     (0 <= i)%Z /\ (i + 3 < width * height * 4)%Z) /\
  (forall px py, (0 <= px < width)%Z -> (0 <= py < height)%Z ->
     In ((py * width + px) * 4)%Z (imageWrites width height)) /\
  NoDup (imageWrites width height).
Proof.
  split; [|split].
  - intros i Hi. unfold imageWrites in Hi.
    apply in_flat_map in Hi as (py & Hpy & Hi).
    apply in_flat_map in Hi as (px & Hpx & Hi).
    apply steps2_spec in Hpy as (Hpy & _), Hpx as (Hpx & _).
    apply blockWrites_spec in Hi as (dy & dx & Hdy & Hdx & ->); [|lia|lia].
    split; [exists (px + dx)%Z, (py + dy)%Z; repeat split; lia|].
    split; [nia|].
    assert ((py + dy) * width + (px + dx) < height * width)%Z; [|lia].
    assert ((py + dy + 1) * width <= height * width)%Z by nia. lia.
  - intros px py Hx Hy. unfold imageWrites.
    apply in_flat_map. exists (2 * (py / 2))%Z. split.
    { apply steps2_spec. split; [|eexists; reflexivity].
      Z.to_euclidean_division_equations; lia. }
    apply in_flat_map. exists (2 * (px / 2))%Z. split.
    { apply steps2_spec. split; [|eexists; reflexivity].
      Z.to_euclidean_division_equations; lia. }
    apply blockWrites_spec.
    { Z.to_euclidean_division_equations; lia. }
    { Z.to_euclidean_division_equations; lia. }
    exists (py mod 2)%Z, (px mod 2)%Z.
    split; [Z.to_euclidean_division_equations; lia|].
    split; [Z.to_euclidean_division_equations; lia|].
    f_equal. f_equal; [f_equal|]; Z.to_euclidean_division_equations; lia.
  - unfold imageWrites.
    change (flat_map ?f ?l) with (l ≫= f).
    apply NoDup_bind; [| |apply NoDup_steps2].
    + intros y1 y2 i Hy1 Hy2 H1 H2.
      apply list_elem_of_In, steps2_spec in Hy1 as (Hy1 & k1 & ->).
      apply list_elem_of_In, steps2_spec in Hy2 as (Hy2 & k2 & ->).
      apply list_elem_of_In, in_flat_map in H1 as (x1 & Hx1 & H1).
      apply list_elem_of_In, in_flat_map in H2 as (x2 & Hx2 & H2).
      apply steps2_spec in Hx1 as (Hx1 & _), Hx2 as (Hx2 & _).
      apply blockWrites_spec in H1 as (dy1 & dx1 & Hdy1 & Hdx1 & ->); [|lia|lia].
      apply blockWrites_spec in H2 as (dy2 & dx2 & Hdy2 & Hdx2 & E); [|lia|lia].
      apply cell_unique in E as (E & _); lia.
    + intros py Hpy.
      apply list_elem_of_In, steps2_spec in Hpy as (Hpy & _).
      apply NoDup_bind; [| |apply NoDup_steps2].
      * intros x1 x2 i Hx1 Hx2 H1 H2.
        apply list_elem_of_In, steps2_spec in Hx1 as (Hx1 & k1 & ->).
        apply list_elem_of_In, steps2_spec in Hx2 as (Hx2 & k2 & ->).
        apply list_elem_of_In, blockWrites_spec in H1
          as (dy1 & dx1 & Hdy1 & Hdx1 & ->); [|lia|lia].
        apply list_elem_of_In, blockWrites_spec in H2
          as (dy2 & dx2 & Hdy2 & Hdx2 & E); [|lia|lia].
        apply cell_unique in E as (_ & E); lia.
      * intros px Hpx.
        apply list_elem_of_In, steps2_spec in Hpx as (Hpx & _).
        unfold blockWrites. change (flat_map ?f ?l) with (l ≫= f).
        apply NoDup_bind; [| |apply NoDup_blockSteps].
        -- intros d1 d2 i Hd1 Hd2 H1 H2.
           apply list_elem_of_In, blockSteps_spec in Hd1; [|lia].
           apply list_elem_of_In, blockSteps_spec in Hd2; [|lia].
           apply list_elem_of_In, in_map_iff in H1 as (e1 & <- & He1).
           apply list_elem_of_In, in_map_iff in H2 as (e2 & E & He2).
           apply blockSteps_spec in He1; [|lia].
           apply blockSteps_spec in He2; [|lia].
           apply cell_unique in E as (E & _); lia.
        -- intros dy Hdy. change (map ?f ?l) with (f <$> l).
           apply NoDup_fmap_2; [|apply NoDup_blockSteps].
           intros a b E. lia.
Qed.
